(** * k-colorability by reduction to SAT

    A shallow embedding of the two programs of the repository:

    - [color2sat] (color2sat.c): reads a DIMACS [.col] graph and an integer
      [k] and prints a DIMACS CNF formula for "the graph is k-colorable";
    - [k-colorability] (k-colorability.c): the driver that pipes the graph
      through [color2sat] and [minisat] for increasing [k].

    C integers are modelled as [Z] with the two's complement wrap-around of
    the LP64 target written out ([int] is 32 bits, [long] and [long long]
    are 64 bits).  Text is modelled as [string]: the bytes of a stream or
    of a buffer, a zero byte among them if there is one; where the C code
    works on a C string, the model stops at the first zero byte.  The
    standard output of [color2sat] is modelled as the list of the lines it
    prints.  The external world of the driver (system calls, the two child
    processes, the solver) is a parameter of its model: a record that says
    which calls succeed, whether the write of the graph finds a reader,
    and what the solver writes.

    Signed overflow is undefined in C.  The properties of the encoder are
    stated where it does not happen: [n] and [k] below [INT_MAX], so that
    the [int] counters of the loops end them, and where the header's
    clause count is concerned the product [n*k*(k-1)] within [long long].
    The conversion of [n*k] to the [int] [num_vars] is defined (reduction
    modulo 2^32 with gcc) and is modelled as such. *)

From Stdlib Require Import ZArith List Lia Bool String Ascii.
Import ListNotations.
Open Scope Z_scope.

(* ================================================================== *)
(** * Machine integers *)

Module MachineInt.

Definition INT_MAX : Z := 2147483647.
Definition INT_MIN : Z := -2147483648.
Definition LONG_MAX : Z := 9223372036854775807.
Definition LONG_MIN : Z := -9223372036854775808.

(** Two's complement reduction of an ideal integer to [w] bits. *)
Definition wrap (w : Z) (x : Z) : Z :=
  (x + 2 ^ (w - 1)) mod 2 ^ w - 2 ^ (w - 1).

(** Result of an [int] operation, and of a conversion to [int]. *)
Definition to_int (x : Z) : Z := wrap 32 x.

(** Result of a [long] / [long long] operation. *)
Definition to_long (x : Z) : Z := wrap 64 x.

(** glibc's [strtol] and [scanf] saturate a decimal numeral that does not
    fit a [long]. *)
Definition clamp_long (x : Z) : Z := Z.max LONG_MIN (Z.min LONG_MAX x).

End MachineInt.
Import MachineInt.

(* ================================================================== *)
(** * Counting loops *)

(** [upto cnt i] lists the values taken by a counter that starts at [i] and
    is incremented [cnt] times. *)
Fixpoint upto (cnt : nat) (i : Z) : list Z :=
  match cnt with
  | O => []
  | S c => i :: upto c (i + 1)
  end.

(** Values of [i] in [for (i = lo; i <= hi; i++)].  The C counters are
    [int]s: the loop is the one below as long as [hi < INT_MAX], so that
    the final increment does not overflow. *)
Definition range (lo hi : Z) : list Z := upto (Z.to_nat (hi + 1 - lo)) lo.

(** [for (i = lo; i <= hi; i++) body(i)], the body appending to an output. *)
Definition for_loop {A : Type} (lo hi : Z) (body : Z -> list A) : list A :=
  flat_map body (range lo hi).

(* ================================================================== *)
(** * The C library's scanners *)

Module Scan.

Definition isspace (c : ascii) : bool :=
  let x := nat_of_ascii c in
  Nat.eqb x 32 || (Nat.leb 9 x && Nat.leb x 13).

Definition isdigit (c : ascii) : bool :=
  let x := nat_of_ascii c in
  Nat.leb 48 x && Nat.leb x 57.

Definition digit_val (c : ascii) : Z := Z.of_nat (nat_of_ascii c) - 48.

Fixpoint skip_ws (s : string) : string :=
  match s with
  | String c r => if isspace c then skip_ws r else s
  | EmptyString => s
  end.

(** The longest run of decimal digits at the head of [s], accumulated on
    [acc], and what follows it. *)
Fixpoint scan_digits (acc : Z) (s : string) : Z * string :=
  match s with
  | String c r =>
      if isdigit c then scan_digits (10 * acc + digit_val c) r else (acc, s)
  | EmptyString => (acc, s)
  end.

(** A numeral has at least one digit. *)
Definition scan_number (s : string) : option (Z * string) :=
  match s with
  | String c _ => if isdigit c then Some (scan_digits 0 s) else None
  | EmptyString => None
  end.

(** An optional sign and a numeral. *)
Definition scan_signed (s : string) : option (Z * string) :=
  match s with
  | String c r =>
      if Ascii.eqb c "-"%char then
        match scan_number r with
        | Some (v, r') => Some (- v, r')
        | None => None
        end
      else if Ascii.eqb c "+"%char then scan_number r
      else scan_number s
  | EmptyString => None
  end.

(** [strtol(s, &endptr, 10)]: the value and the text at [endptr].  With no
    numeral the value is 0 and [endptr] is [s] itself. *)
Definition strtol (s : string) : Z * string :=
  match scan_signed (skip_ws s) with
  | Some (v, rest) => (clamp_long v, rest)
  | None => (0, s)
  end.

(** A [%d] conversion of [sscanf]: leading white space is skipped, the
    value is stored in an [int]. *)
Definition scan_d (s : string) : option (Z * string) :=
  match scan_signed (skip_ws s) with
  | Some (v, rest) => Some (to_int (clamp_long v), rest)
  | None => None
  end.

(** An ordinary character of a format matches itself. *)
Definition expect (c : ascii) (s : string) : option string :=
  match s with
  | String c' r => if Ascii.eqb c' c then Some r else None
  | EmptyString => None
  end.

Definition bind {A B : Type} (x : option A) (f : A -> option B) : option B :=
  match x with
  | Some a => f a
  | None => None
  end.

Notation "x <- e ;; k" := (bind e (fun x => k))
  (at level 61, e at next level, right associativity).

(** [sscanf(s, "p edge %d %d", &n, &m) == 2]: both values.  A blank of the
    format matches any amount of white space, also none. *)
Definition sscanf_p_edge (s : string) : option (Z * Z) :=
  s <- expect "p" s ;;
  s <- expect "e" (skip_ws s) ;;
  s <- expect "d" s ;;
  s <- expect "g" s ;;
  s <- expect "e" s ;;
  a <- scan_d (skip_ws s) ;;
  b <- scan_d (skip_ws (snd a)) ;;
  Some (fst a, fst b).

(** [sscanf(s, "e %d %d", &u, &v) == 2]: both values. *)
Definition sscanf_e (s : string) : option (Z * Z) :=
  s <- expect "e" s ;;
  a <- scan_d (skip_ws s) ;;
  b <- scan_d (skip_ws (snd a)) ;;
  Some (fst a, fst b).

Definition newline : ascii := ascii_of_nat 10.

(** [s] followed by the character [c]. *)
Definition snoc (s : string) (c : ascii) : string :=
  (s ++ String c EmptyString)%string.

(** The successive results of [fgets(line, room0 + 1, fp)] until it
    returns NULL: a result ends after a newline or when the buffer is
    full.  [cur] is the part of the current result already read and
    [room] the room left in the buffer. *)
Fixpoint fgets_all (room0 room : nat) (cur : string) (s : string)
  : list string :=
  match s with
  | EmptyString =>
      match cur with
      | EmptyString => []
      | _ => [cur]
      end
  | String c r =>
      if Ascii.eqb c newline || Nat.leb room 1
      then snoc cur c :: fgets_all room0 room0 EmptyString r
      else fgets_all room0 (room - 1) (snoc cur c) r
  end.

(** The results of [fgets] with a buffer of [size] bytes on stream [s]. *)
Definition fgets_lines (size : nat) (s : string) : list string :=
  fgets_all (size - 1) (size - 1) EmptyString s.

(** The zero byte that closes a C string. *)
Definition zero : ascii := Ascii.zero.

(** The C string held by the bytes [s]: the bytes before the first zero
    byte.  It is all that [strchr], [sscanf] and [strtol] see of [s]. *)
Fixpoint c_str (s : string) : string :=
  match s with
  | EmptyString => EmptyString
  | String c r => if Ascii.eqb c zero then EmptyString else String c (c_str r)
  end.

(** [line[0] == c]. *)
Definition first_is (c : ascii) (line : string) : bool :=
  match line with
  | String c' _ => Ascii.eqb c' c
  | EmptyString => false
  end.

End Scan.

(* ================================================================== *)
(** * color2sat: the encoder *)

Module Color2sat.
Import Scan.

(** The struct [Graph]: vertex count [n], edge count [m] and the array
    [edges] of endpoint pairs. *)
Record Graph : Type := mkGraph {
  n : Z;
  m : Z;
  edges : list (Z * Z)
}.

(** Diagnostics printed on standard error. *)
Inductive diag : Type :=
| Usage                                  (* usage() *)
| InvalidK                               (* "Invalid k: must be positive integer in base 10." *)
| OpenFailed                             (* "Error opening file %s" *)
| InvalidProblemLine                     (* "Invalid problem line format." *)
| InvalidNM (vn vm : Z)                  (* "Invalid n or m: %d vertices, %d edges." *)
| InvalidEdgeLine (count : Z) (l : string)
    (* "%d: Line [%s] Invalid edge line format or count exceeding problem size." *)
| EdgeCountWarning (count expected : Z). (* "Warning: read %d edges, expected %d." *)

(** A run either reaches its end, having printed the warnings [log] with
    the macro ERROR, or is terminated by ERROR_EXIT. *)
Inductive result (A : Type) : Type :=
| Ok (a : A) (log : list diag)
| Fatal (d : diag).
Arguments Ok {A} a log.
Arguments Fatal {A} d.

(** The first loop of [read_graph]: lines are dropped up to the first one
    that starts with 'p'; without one, [n] and [m] keep their initial 0. *)
Fixpoint problem_line (lines : list string)
  : diag + (Z * Z * list string) :=
  match lines with
  | [] => inr (0, 0, [])
  | l :: rest =>
      if first_is "p" l then
        match sscanf_p_edge l with
        | Some (vn, vm) => inr (vn, vm, rest)
        | None => inl InvalidProblemLine
        end
      else problem_line rest
  end.

(** The second loop of [read_graph]: [count] edges are recorded so far, in
    [acc]. *)
Fixpoint edge_lines (vm count : Z) (acc : list (Z * Z)) (lines : list string)
  : diag + (Z * list (Z * Z)) :=
  match lines with
  | [] => inr (count, acc)
  | l :: rest =>
      if first_is "e" l && (count <? vm) then
        match sscanf_e l with
        | Some (u, v) => edge_lines vm (count + 1) (acc ++ [(u, v)]) rest
        | None => edge_lines vm count acc rest
        end
      else inl (InvalidEdgeLine count l)
  end.

(** [read_graph] on the lines that [fgets] returns. *)
Definition read_lines (lines : list string) : result Graph :=
  match problem_line lines with
  | inl d => Fatal d
  | inr (vn, vm, rest) =>
      if (vn <=? 0) || (vm <? 0) then Fatal (InvalidNM vn vm)
      else
        match edge_lines vm 0 [] rest with
        | inl d => Fatal d
        | inr (count, es) =>
            if negb (count =? vm)
            then Ok (mkGraph vn count es) [EdgeCountWarning count vm]
            else Ok (mkGraph vn vm es) []
        end
  end.

(** [read_graph(file)]: [file] is the content of the stream, or [None]
    when it cannot be opened.  Lines are read with a buffer of 256
    bytes.  Memory allocation is taken to succeed. *)
Definition read_graph (file : option string) : result Graph :=
  match file with
  | None => Fatal OpenFailed
  | Some text => read_lines (fgets_lines 256 text)
  end.

(** A line of standard output. *)
Inductive line : Type :=
| Comment (k vn vm : Z)             (* "c CNF: %ld-coloring of %d vertices, %d edges" *)
| Problem (num_vars num_clauses : Z) (* "p cnf %d %lld" *)
| Clause (lits : list Z)             (* literals, then "0" *)
| Garbled (x y : Z).                 (* "-%ld -%ld 0" printed for an [x] or
                                        a [y] that is not positive: the text
                                        holds "-0" or "--", it is no clause *)

(** [(v - 1) * k + i] with [v], [i] of type [int] and [k] of type [long]:
    the difference is computed in [int], the product and the sum in
    [long]. *)
Definition var (k v i : Z) : Z :=
  to_long (to_long (to_int (v - 1) * k) + i).

(** ["-%ld"] printed for [x]: for a positive [x] it is the negative
    literal [-x]; for [x <= 0] the text is "-0" or begins with "--", which
    is no literal. *)
Definition neg (x : Z) : option Z :=
  if 0 <? x then Some (- x) else None.

(** The line ["-%ld -%ld 0\n"] printed for [x] and [y]. *)
Definition neg_pair (x y : Z) : line :=
  match neg x, neg y with
  | Some a, Some b => Clause [a; b]
  | _, _ => Garbled x y
  end.

(** [int num_vars = n * k;] the product is a [long], stored in an [int]. *)
Definition num_vars (g : Graph) (k : Z) : Z := to_int (to_long (n g * k)).

(** The three [num_clauses += ...] statements, in [long long]. *)
Definition num_clauses (g : Graph) (k : Z) : Z :=
  let c0 := 0 in
  let c1 := to_long (c0 + n g) in
  let c2 := to_long (c1 + Z.quot (to_long (to_long (n g * k) * (k - 1))) 2) in
  let c3 := to_long (c2 + to_long (m g * k)) in
  c3.

(** 1. Every vertex is assigned at least one color. *)
Definition coverage (g : Graph) (k : Z) : list line :=
  for_loop 1 (n g) (fun v =>
    [Clause (for_loop 1 k (fun i => [var k v i]))]).

(** 2. Every vertex is assigned at most one color. *)
Definition exclusivity (g : Graph) (k : Z) : list line :=
  for_loop 1 (n g) (fun v =>
    for_loop 1 k (fun i =>
      for_loop (i + 1) k (fun j =>
        [neg_pair (var k v i) (var k v j)]))).

(** 3. Adjacent vertices have different colors.  [edges[e]] is read for
    [e] in [0 .. m-1]; a graph built by [read_graph] has exactly [m]
    recorded edges. *)
Definition adjacency (g : Graph) (k : Z) : list line :=
  for_loop 0 (m g - 1) (fun e =>
    let '(u, v) := nth (Z.to_nat e) (edges g) (0, 0) in
    for_loop 1 k (fun i =>
      [neg_pair (var k u i) (var k v i)])).

(** The output of [main] once [k] is parsed and the graph is read. *)
Definition encode (g : Graph) (k : Z) : list line :=
  Comment k (n g) (m g)
    :: Problem (num_vars g k) (num_clauses g k)
    :: coverage g k ++ exclusivity g k ++ adjacency g k.

(** The clauses of an output, in order; a garbled line is none. *)
Fixpoint clauses_of (out : list line) : list (list Z) :=
  match out with
  | [] => []
  | Clause c :: rest => c :: clauses_of rest
  | _ :: rest => clauses_of rest
  end.

(** The header line of an output, if any. *)
Fixpoint header_of (out : list line) : option (Z * Z) :=
  match out with
  | [] => None
  | Problem nv nc :: _ => Some (nv, nc)
  | _ :: rest => header_of rest
  end.

(** [strtol(argv[2], &endptr, 10)] and the test
    [*endptr != 0 || k <= 0]: the accepted [k], if any. *)
Definition parse_k (arg : string) : option Z :=
  let '(k, endptr) := strtol arg in
  match endptr with
  | EmptyString => if k <=? 0 then None else Some k
  | String _ _ => None
  end.

(** [main]: [args] are the arguments after the program name, [file] the
    stream named by the first one. *)
Definition main (args : list string) (file : option string)
  : result (list line) :=
  match args with
  | [_; karg] =>
      match parse_k karg with
      | None => Fatal InvalidK
      | Some k =>
          match read_graph file with
          | Fatal d => Fatal d
          | Ok g log => Ok (encode g k) log
          end
      end
  | _ => Fatal Usage
  end.

End Color2sat.

(* ================================================================== *)
(** * k-colorability: the driver *)

Module Driver.
Import Scan.

(** [parse_header(buf, &n)]: [p] runs over the starts of the lines of the
    C string in the buffer; at a 'p' the rest of the C string is scanned
    for "p edge %d %d".  [s] holds the bytes from [p] on and [bol] tells
    whether its head starts a line.  The walk ends at the first zero byte,
    where [strchr] finds no further newline, and [sscanf] sees the bytes
    before it.  The result is the vertex count, or [None] for the return
    value -1. *)
Fixpoint parse_header_from (bol : bool) (s : string) : option Z :=
  match s with
  | EmptyString => None
  | String c r =>
      if Ascii.eqb c zero then None
      else
        let next := parse_header_from (Ascii.eqb c newline) r in
        if bol && Ascii.eqb c "p" then
          match sscanf_p_edge (c_str s) with
          | Some (nn, _) => Some nn
          | None => next
          end
        else next
  end.

Definition parse_header (buf : string) : option Z :=
  parse_header_from true buf.

(** Diagnostics of the driver. *)
Inductive diag : Type :=
| InvalidK              (* "Invalid k: must be positive integer in base 10." *)
| LoadFailed            (* "Error opening file %s" *)
| NoHeader              (* "Could not parse graph header for vertex count." *)
| MkstempFailed         (* "mkstemp failed." *)
| OpenResultFailed      (* "Opening result file failed. %s" *)
| OpenOutputFailed      (* "Opening output file failed. %s" *)
| PipeFailed            (* "pipe failed:%s" *)
| ForkFailed            (* "fork failed.%s" *)
| WriteFailed           (* "write failed:%s" *)
| ChildExecColor2sat    (* child: "exec color2sat failed." *)
| ChildOpenResult       (* child: "open result_file failed." *)
| ChildExecMinisat.     (* child: "exec minisat failed." *)

(** How [write(p2c[1], graph_buf, graph_sz)] ends. *)
Inductive write_end : Type :=
| Written       (* the graph is written *)
| WriteError    (* write returns -1 *)
| Sigpipe.      (* no reader is left on the pipe: SIGPIPE, which the
                   driver neither ignores nor handles, ends the driver *)

(** What the system calls and the two children of one round do. *)
Record round_env : Type := mkRound {
  pipe_p2c_ok : bool;        (* pipe(p2c) *)
  pipe_c2s_ok : bool;        (* pipe(c2s) *)
  fork1_ok : bool;           (* first fork() *)
  exec_color2sat_ok : bool;  (* execvp("color2sat") in the first child *)
  write_graph : write_end;   (* write() of the graph *)
  fork2_ok : bool;           (* second fork() *)
  open_result_ok : bool;     (* open(result_file) in the second child *)
  exec_minisat_ok : bool;    (* execvp("minisat") in the second child *)
  solver_output : string;    (* what minisat writes to the result file *)
  fopen_result_ok : bool     (* fopen(result_file, "r") in the parent *)
}.

(** The result file: its content, or [None] when it does not exist. *)
Definition file := option string.

(** [fgets(line, size, rf)] on a stream with content [s]: NULL at end of
    file, else the first line, cut at [size - 1] characters. *)
Definition fgets (size : nat) (s : string) : option string :=
  match fgets_lines size s with
  | [] => None
  | l :: _ => Some l
  end.

(** [strncmp(line, "SAT", 3) == 0]. *)
Definition starts_with_SAT (l : string) : bool := String.prefix "SAT" l.

(** How a round ends for the driver. *)
Inductive round_end : Type :=
| Returned (ret : Z)    (* [run_color_minisat] returns [ret] *)
| Killed.               (* SIGPIPE ends the driver inside the round *)

(** [run_color_minisat]: how the round ends, the result file afterwards
    and the diagnostics.  ERROR_EXIT in a child ends the child only.  A
    write that raises SIGPIPE ends the driver before the second child is
    started. *)
Definition run_color_minisat (e : round_env) (result_file : file)
  : round_end * file * list diag :=
  if negb (pipe_p2c_ok e && pipe_c2s_ok e)
  then (Returned (-1), result_file, [PipeFailed])
  else if negb (fork1_ok e) then (Returned (-1), result_file, [ForkFailed])
  else
    let log1 := if exec_color2sat_ok e then [] else [ChildExecColor2sat] in
    match write_graph e with
    | Sigpipe => (Killed, result_file, log1)
    | w =>
        let log2 := match w with WriteError => [WriteFailed] | _ => [] end in
        if negb (fork2_ok e)
        then (Returned (-1), result_file, log1 ++ log2 ++ [ForkFailed])
        else
          let '(f, log3) :=
            if negb (open_result_ok e) then (result_file, [ChildOpenResult])
            else if negb (exec_minisat_ok e)
                 then (Some EmptyString, [ChildExecMinisat])
                 else (Some (solver_output e), []) in
          let log := log1 ++ log2 ++ log3 in
          match (if fopen_result_ok e then f else None) with
          | None => (Returned (-1), f, log)
          | Some content =>
              match fgets 32 content with
              | None => (Returned (-1), f, log)
              | Some l =>
                  (Returned (if starts_with_SAT l then 0 else -1), f, log)
              end
          end
    end.

(** The options of the command line, as [getopt_long] leaves them. *)
Record args : Type := mkArgs {
  k_opt : option string;     (* optarg of -k *)
  outfile : option string    (* optarg of -o *)
}.

(** The environment of a run of the driver. *)
Record env : Type := mkEnv {
  graph_buf : option string; (* load_file: content of the input *)
  mkstemp_ok : bool;         (* mkstemp(tmpfile) *)
  rounds : Z -> round_env;   (* the round for each k *)
  reopen_ok : bool;          (* fopen(tmpfile, "r") in main *)
  outfile_ok : bool          (* fopen(outfile, "w") *)
}.

(** What a run does, in order. *)
Inductive event : Type :=
| Created                                   (* mkstemp created tmpfile *)
| Round (k ret : Z)                         (* run_color_minisat returned *)
| Log (d : diag)                            (* ERROR *)
| Report (k : Z) (content : string) (dest : option string)
                                            (* "k = %ld" and the result *)
| Removed                                   (* remove(tmpfile) *)
| Signal (k : Z).                           (* SIGPIPE in the round of k *)

(** How the process ends: with one of the two exit statuses, or by the
    signal SIGPIPE. *)
Inductive exit_status : Type := EXIT_SUCCESS | EXIT_FAILURE | SIGNALED.

(** The end of a run: exit status, the diagnostic of ERROR_EXIT if the run
    ended there, the result file left behind and the events. *)
Record outcome : Type := mkOutcome {
  status : exit_status;
  died : option diag;
  tmpfile : file;
  trace : list event
}.

Definition die (d : diag) (tmp : file) (tr : list event) : outcome :=
  mkOutcome EXIT_FAILURE (Some d) tmp tr.

(** [k_override = strtol(optarg, NULL, 10)] and the test
    [k_override <= 0]; without -k, [k_override] stays 0. *)
Definition parse_k_override (optarg : option string) : option Z :=
  match optarg with
  | None => Some 0
  | Some s =>
      let k_override := fst (strtol s) in
      if k_override <=? 0 then None else Some k_override
  end.

Definition k_start (k_override : Z) : Z :=
  if 0 <? k_override then k_override else 2.

(** The search loop on the values [ks] that [k] still has to take, and
    the end of [main] after it. *)
Fixpoint search (a : args) (e : env) (ks : list Z) (tmp : file)
  (tr : list event) : outcome :=
  match ks with
  | [] => mkOutcome EXIT_FAILURE None None (tr ++ [Removed])
  | k :: ks' =>
      let '(re, tmp', log) := run_color_minisat (rounds e k) tmp in
      match re with
      | Killed => mkOutcome SIGNALED None tmp' (tr ++ map Log log ++ [Signal k])
      | Returned ret =>
          let tr' := tr ++ map Log log ++ [Round k ret] in
          if ret =? 0 then
            match (if reopen_ok e then tmp' else None) with
            | None => die OpenResultFailed tmp' tr'
            | Some content =>
                match outfile a with
                | Some o =>
                    if outfile_ok e
                    then mkOutcome EXIT_SUCCESS None None
                           (tr' ++ [Report k content (Some o); Removed])
                    else die OpenOutputFailed tmp' tr'
                | None =>
                    mkOutcome EXIT_SUCCESS None None
                      (tr' ++ [Report k content None; Removed])
                end
            end
          else search a e ks' tmp' tr'
      end
  end.

(** [main]. *)
Definition main (a : args) (e : env) : outcome :=
  match parse_k_override (k_opt a) with
  | None => die InvalidK None []
  | Some k_override =>
      match graph_buf e with
      | None => die LoadFailed None []
      | Some buf =>
          match parse_header buf with
          | None => die NoHeader None []
          | Some max_k =>
              if mkstemp_ok e
              then search a e (range (k_start k_override) max_k)
                     (Some EmptyString) [Created]
              else die MkstempFailed None []
          end
      end
  end.

(** The values of [k] for which a round was run, in order. *)
Fixpoint tried (tr : list event) : list Z :=
  match tr with
  | [] => []
  | Round k _ :: rest => k :: tried rest
  | Signal k :: rest => k :: tried rest
  | _ :: rest => tried rest
  end.

(** The rounds that returned, each with its return value, in order. *)
Fixpoint rounds_of (tr : list event) : list (Z * Z) :=
  match tr with
  | [] => []
  | Round k ret :: rest => (k, ret) :: rounds_of rest
  | _ :: rest => rounds_of rest
  end.

(** The reported [k], if any. *)
Fixpoint reported (tr : list event) : option Z :=
  match tr with
  | [] => None
  | Report k _ _ :: _ => Some k
  | _ :: rest => reported rest
  end.

End Driver.

(* ================================================================== *)
(** * The specification's notions *)

Module Spec.
Import Color2sat.

(** The variable numbering convention: the index of "vertex [v] has color
    [c]" among [k] colors. *)
Definition index (k v c : Z) : Z := (v - 1) * k + c.

(** Coverage: for each vertex, the [k] positive literals of the vertex. *)
Definition coverage_family (vn k : Z) : list (list Z) :=
  map (fun v => map (index k v) (range 1 k)) (range 1 vn).

(** The pairs of colors [(i, j)] with [1 <= i < j <= k]. *)
Definition color_pairs (k : Z) : list (Z * Z) :=
  filter (fun p => fst p <? snd p) (list_prod (range 1 k) (range 1 k)).

(** Exclusivity: for each vertex and each pair of colors, the two negative
    literals. *)
Definition exclusivity_family (vn k : Z) : list (list Z) :=
  flat_map (fun v =>
    map (fun p => [- index k v (fst p); - index k v (snd p)]) (color_pairs k))
    (range 1 vn).

(** Adjacency: for each edge and each color, the two negative literals. *)
Definition adjacency_family (es : list (Z * Z)) (k : Z) : list (list Z) :=
  flat_map (fun e =>
    map (fun c => [- index k (fst e) c; - index k (snd e) c]) (range 1 k))
    es.

(** Satisfaction of a CNF formula: a positive literal says that its
    variable holds, a negative one that it does not. *)
Definition assignment : Type := Z -> bool.

Definition lit_holds (a : assignment) (l : Z) : bool :=
  if 0 <? l then a l else negb (a (- l)).

Definition clause_holds (a : assignment) (c : list Z) : bool :=
  existsb (lit_holds a) c.

Definition models (a : assignment) (f : list (list Z)) : bool :=
  forallb (clause_holds a) f.

Definition satisfiable (f : list (list Z)) : Prop :=
  exists a, models a f = true.

(** A proper coloring with [k] colors: every vertex has one of the colors
    [1 .. k] and no edge joins two vertices of the same color. *)
Definition proper_coloring (g : Graph) (k : Z) (col : Z -> Z) : Prop :=
  (forall v, 1 <= v <= n g -> 1 <= col v <= k) /\
  (forall u w, In (u, w) (edges g) -> col u <> col w).

Definition colorable (g : Graph) (k : Z) : Prop :=
  exists col, proper_coloring g k col.

(** The invariant of a graph model: a positive number of vertices, [m]
    recorded edges, every endpoint among the vertices. *)
Definition valid_graph (g : Graph) : Prop :=
  1 <= n g /\
  m g = Z.of_nat (List.length (edges g)) /\
  Forall (fun e => 1 <= fst e <= n g /\ 1 <= snd e <= n g) (edges g).

(** The assignment that reads a coloring: the variable of vertex [v] and
    color [c] holds when [c] is the color of [v]. *)
Definition assignment_of (k : Z) (col : Z -> Z) : assignment :=
  fun x => (x - 1) mod k + 1 =? col ((x - 1) / k + 1).

(** The coloring that reads an assignment: the first color of the vertex
    whose variable holds. *)
Definition coloring_of (k : Z) (a : assignment) : Z -> Z :=
  fun v =>
    match find (fun c => a (index k v c)) (range 1 k) with
    | Some c => c
    | None => 1
    end.

(** The edges of the lines that match "e U V", in order. *)
Definition valid_edges (lines : list string) : list (Z * Z) :=
  flat_map (fun l =>
    match Scan.sscanf_e l with
    | Some e => [e]
    | None => []
    end) lines.

(** A string of decimal digits, and its value. *)
Fixpoint all_digits (s : string) : bool :=
  match s with
  | EmptyString => true
  | String c r => Scan.isdigit c && all_digits r
  end.

Definition decimal (s : string) : Z := fst (Scan.scan_digits 0 s).

(** A string that does not go on with a digit. *)
Definition no_digit_ahead (s : string) : bool :=
  match s with
  | EmptyString => true
  | String c _ => negb (Scan.isdigit c)
  end.

(** A text from its lines: each is ended by a newline. *)
Definition unlines (lines : list string) : string :=
  fold_right (fun l t => (l ++ String Scan.newline t)%string) EmptyString lines.

(** A round in which every system call and both launches succeed. *)
Definition launches (r : Driver.round_env) : Prop :=
  Driver.pipe_p2c_ok r = true /\ Driver.pipe_c2s_ok r = true /\
  Driver.fork1_ok r = true /\ Driver.exec_color2sat_ok r = true /\
  Driver.write_graph r = Driver.Written /\ Driver.fork2_ok r = true /\
  Driver.open_result_ok r = true /\ Driver.exec_minisat_ok r = true /\
  Driver.fopen_result_ok r = true.

(** The solver's verdict: its output begins with the marker "SAT". *)
Definition verdict (r : Driver.round_env) : bool :=
  match Driver.fgets 32 (Driver.solver_output r) with
  | Some l => Driver.starts_with_SAT l
  | None => false
  end.

(** A scan of the candidates [ks], upward and one round for each: it goes
    on after a round that does not return 0 and stops at the first round
    that returns 0, or at the end of the candidates. *)
Inductive scan : list Z -> list (Z * Z) -> Prop :=
| scan_end : scan [] []
| scan_hit (k : Z) (ks : list Z) : scan (k :: ks) [(k, 0)]
| scan_miss (k ret : Z) (ks : list Z) (rs : list (Z * Z)) :
    ret <> 0 -> scan ks rs -> scan (k :: ks) ((k, ret) :: rs).

(** A scan that SIGPIPE ends in the round of [k]: each candidate before
    [k] has had its round, none of which returned 0. *)
Inductive scan_killed : list Z -> list (Z * Z) -> Z -> Prop :=
| killed_now (k : Z) (ks : list Z) : scan_killed (k :: ks) [] k
| killed_after (k ret : Z) (ks : list Z) (rs : list (Z * Z)) (k' : Z) :
    ret <> 0 -> scan_killed ks rs k' ->
    scan_killed (k :: ks) ((k, ret) :: rs) k'.

End Spec.

(* ================================================================== *)
(** * Inputs used below *)

Module Examples.
Import Color2sat Driver Spec.
Local Open Scope string_scope.

(** The triangle. *)
Definition triangle : Graph := mkGraph 3 3 [(1, 2); (2, 3); (1, 3)].

Definition triangle_text : string :=
  unlines ["c triangle"; "p edge 3 3"; "e 1 2"; "e 2 3"; "e 1 3"].

(** Two vertices and an edge to a vertex 5. *)
Definition stray_text : string := unlines ["p edge 2 1"; "e 1 5"].

(** 2^30 vertices and no edge. *)
Definition big_graph : Graph := mkGraph 1073741824 0 [].

(** 2500000 vertices and no edge. *)
Definition wide_graph : Graph := mkGraph 2500000 0 [].

(** Two edges declared, one given. *)
Definition short_text : string :=
  unlines ["c two edges declared"; "p edge 3 2"; "e 1 2"].

(** An edge line without its second endpoint. *)
Definition malformed_text : string := unlines ["p edge 3 1"; "e 1"].

(** An edge line without numbers before a good one. *)
Definition malformed_text2 : string :=
  unlines ["p edge 3 1"; "e x y"; "e 1 2"].

(** Three vertices, no edge. *)
Definition three_vertices : string := unlines ["p edge 3 0"].

(** Five vertices, no edge. *)
Definition five_vertices : string := unlines ["p edge 5 0"].

(** A round in which everything works and the solver answers SAT. *)
Definition sat_round : round_env :=
  mkRound true true true true Written true true true
    (unlines ["SAT"; "1 -2 3 -4 0"]) true.

(** A round in which [pipe] fails. *)
Definition no_pipe_round : round_env :=
  mkRound false true true true Written true true true
    (unlines ["SAT"; "1 -2 3 -4 0"]) true.

(** Every round satisfiable. *)
Definition env_sat (text : string) : env :=
  mkEnv (Some text) true (fun _ => sat_round) true true.

(** The round of [k = 2] without pipe, the others satisfiable. *)
Definition env_no_pipe : env :=
  mkEnv (Some three_vertices) true
    (fun k => if (k =? 2)%Z then no_pipe_round else sat_round) true true.

(** Every round satisfiable, but the output file cannot be opened. *)
Definition env_no_output : env :=
  mkEnv (Some three_vertices) true (fun _ => sat_round) true false.

(** A round in which the solver cannot be executed. *)
Definition no_solver_round : round_env :=
  mkRound true true true true Written true true false EmptyString true.

(** A round in which the encoder cannot be executed; the solver, on an
    empty input, answers SAT. *)
Definition no_encoder_round : round_env :=
  mkRound true true true false Written true true true
    (unlines ["SAT"; "0"]) true.

(** A round in which the encoder cannot be executed and the write of the
    graph finds no reader. *)
Definition sigpipe_round : round_env :=
  mkRound true true true false Sigpipe true true true EmptyString true.

(** The round of [k = 2] ended by SIGPIPE, the others satisfiable. *)
Definition env_sigpipe : env :=
  mkEnv (Some three_vertices) true
    (fun k => if (k =? 2)%Z then sigpipe_round else sat_round) true true.

(** No round can execute the solver. *)
Definition env_no_solver : env :=
  mkEnv (Some three_vertices) true (fun _ => no_solver_round) true true.

(** No round can execute the encoder. *)
Definition env_no_encoder : env :=
  mkEnv (Some three_vertices) true (fun _ => no_encoder_round) true true.

(** Every round satisfiable, but the result file cannot be opened again. *)
Definition env_no_reopen : env :=
  mkEnv (Some three_vertices) true (fun _ => sat_round) false true.

Definition no_options : args := mkArgs None None.
Definition override_5 : args := mkArgs (Some "5") None.
Definition to_file : args := mkArgs None (Some "/nonexistent/out").

End Examples.

(* ================================================================== *)
(** * Lines of a text *)

Module Lines.
Import Scan.

(** The texts of a list one after the other. *)
Definition glue (ls : list string) : string :=
  fold_right String.append EmptyString ls.

(** A complete line: a newline at its end and nowhere else. *)
Fixpoint ends_line (l : string) : bool :=
  match l with
  | EmptyString => false
  | String c r =>
      match r with
      | EmptyString => Ascii.eqb c newline
      | String _ _ => negb (Ascii.eqb c newline) && ends_line r
      end
  end.

(** A text without newline. *)
Fixpoint no_newline (s : string) : bool :=
  match s with
  | EmptyString => true
  | String c r => negb (Ascii.eqb c newline) && no_newline r
  end.

(** A text without zero byte. *)
Fixpoint no_zero (s : string) : bool :=
  match s with
  | EmptyString => true
  | String c r => negb (Ascii.eqb c zero) && no_zero r
  end.

(** [body] with the end of a line. *)
Definition with_newline (body : string) : string :=
  (body ++ String newline EmptyString)%string.

End Lines.

(* ================================================================== *)
(** * k-colorability: the arguments of the two children *)

Module Pipeline.
Import Scan.

Definition digit_char (d : Z) : ascii := ascii_of_nat (48 + Z.to_nat d).

(** The decimal digits of [x >= 0], the most significant first; [fuel]
    bounds their number. *)
Fixpoint utoa (fuel : nat) (x : Z) : string :=
  match fuel with
  | O => EmptyString
  | S f =>
      if x <? 10 then String (digit_char x) EmptyString
      else (utoa f (x / 10) ++ String (digit_char (x mod 10)) EmptyString)%string
  end.

(** What the conversion [%ld] prints for a [long]: it has at most 19
    digits. *)
Definition ltoa (k : Z) : string :=
  if k <? 0 then String "-" (utoa 20 (- k)) else utoa 20 k.

(** The first [len] characters of [s]. *)
Fixpoint take (len : nat) (s : string) : string :=
  match len, s with
  | S l, String c r => String c (take l r)
  | _, _ => EmptyString
  end.

(** [snprintf(ks, size, "%ld", k)]: at most [size - 1] characters are
    stored. *)
Definition snprintf_ld (size : nat) (k : Z) : string :=
  take (size - 1) (ltoa k).

(** The [argv] of the first child: [{"color2sat", "-", ks, NULL}] with
    [char ks[32]]. *)
Definition color2sat_argv (k : Z) : list string :=
  ["color2sat"%string; "-"%string; snprintf_ld 32 k].

(** The [argv] of the second child: "minisat", the options, "-" and the
    result file. *)
Definition minisat_argv (ms_opts : list string) (result_file : string)
  : list string :=
  "minisat"%string :: ms_opts ++ ["-"%string; result_file].

(** The first child once [execvp] has succeeded: [color2sat] with the
    arguments after the program name, its standard input being the graph
    that the driver has written into the pipe. *)
Definition encoder_child (graph_buf : string) (k : Z)
  : Color2sat.result (list Color2sat.line) :=
  Color2sat.main (tl (color2sat_argv k)) (Some graph_buf).

End Pipeline.

(* ================================================================== *)
(** * k-colorability: the options for minisat *)

Module Options.

Definition tab : ascii := ascii_of_nat 9.

(** A delimiter of [strtok_r(..., " \t", ...)]. *)
Definition is_delim (c : ascii) : bool :=
  Ascii.eqb c " " || Ascii.eqb c tab.

Fixpoint skip_delims (s : string) : string :=
  match s with
  | String c r => if is_delim c then skip_delims r else s
  | EmptyString => s
  end.

(** The token at the head of [s] and the text after the delimiter that
    ends it. *)
Fixpoint token (s : string) : string * string :=
  match s with
  | EmptyString => (EmptyString, EmptyString)
  | String c r =>
      if is_delim c then (EmptyString, r)
      else let '(t, rest) := token r in (String c t, rest)
  end.

(** [strtok_r]: the next token and the text to go on with, or [None] for
    NULL when only delimiters are left. *)
Definition strtok_r (s : string) : option (string * string) :=
  match skip_delims s with
  | EmptyString => None
  | String c r => Some (token (String c r))
  end.

(** The loop [while (tok && ms_optc < 31)]: [room] is the number of
    entries that may still be stored. *)
Fixpoint tokens (room : nat) (s : string) : list string :=
  match room with
  | O => []
  | S room' =>
      match strtok_r s with
      | None => []
      | Some (tok, rest) => tok :: tokens room' rest
      end
  end.

(** [ms_opts] after the tokenizing of [minisat_opts_str]. *)
Definition ms_opts (minisat_opts_str : option string) : list string :=
  match minisat_opts_str with
  | None => []
  | Some s => tokens 31 s
  end.

(** The names of [longopts], the last entry being the one of zeros. *)
Definition longopts : list (option string) :=
  [Some "minisat-op"%string; Some "help"%string; None].

(** What [case 0] of the option loop does. *)
Inductive long_case : Type :=
| Sets (optarg : string)   (* minisat_opts_str = optarg *)
| Keeps                    (* minisat_opts_str unchanged *)
| Undefined.               (* strcmp on a null name, or a read past longopts *)

(** [if (strcmp("minisat-op", longopts[optind-1].name)==0)
       minisat_opts_str = optarg;] *)
Definition long_option_case (optind : Z) (optarg : string) : long_case :=
  if optind - 1 <? 0 then Undefined
  else
    match nth_error longopts (Z.to_nat (optind - 1)) with
    | Some (Some name) =>
        if String.eqb "minisat-op" name then Sets optarg else Keeps
    | Some None => Undefined
    | None => Undefined
    end.

End Options.

(* ================================================================== *)
(** * k-colorability: loading the input *)

Module Loader.
Import Scan.

(** Arithmetic of [size_t]. *)
Definition to_size (x : Z) : Z := x mod 2 ^ 64.

(** The buffer that [load_file] returns: its text, the size stored in
    [*sz] and the number of bytes allocated. *)
Record loaded : Type := mkLoaded {
  content : string;
  sz : Z;
  capacity : Z
}.

(** The loop reading standard input: [s] is what [fgetc] still returns,
    [cap] the allocated size, [used] the number of bytes stored and [buf]
    these bytes.  A store outside the [cap] bytes gives [None].  At the end
    of the input the closing zero is stored at [buf[used]].  Allocation is
    taken to succeed. *)
Fixpoint read_stdin (s : string) (cap used : Z) (buf : string)
  : option loaded :=
  match s with
  | EmptyString =>
      if used <? cap then Some (mkLoaded buf used cap) else None
  | String c r =>
      let cap' := if to_size (used + 1) >=? cap then to_size (cap * 2) else cap in
      if used <? cap'
      then read_stdin r cap' (to_size (used + 1)) (snoc buf c)
      else None
  end.

(** [load_file("-", &sz)]. *)
Definition load_stdin (s : string) : option loaded :=
  read_stdin s 4096 0 EmptyString.

End Loader.

(* ================================================================== *)
(** * Graphs as text *)

Module Format.
Import Scan Lines Pipeline Color2sat.

Local Open Scope string_scope.

(** The problem line and the edge lines of the DIMACS format, without
    their ends. *)
Definition problem_text (vn vm : Z) : string :=
  "p edge " ++ utoa 20 vn ++ " " ++ utoa 20 vm.

Definition edge_text (e : Z * Z) : string :=
  "e " ++ utoa 20 (fst e) ++ " " ++ utoa 20 (snd e).

(** The text of a graph: the problem line, then one line for each edge. *)
Definition show_graph (g : Graph) : string :=
  glue (map with_newline
          (problem_text (n g) (m g) :: map edge_text (edges g))).

End Format.

(* ================================================================== *)
(** * Further notions and inputs *)

Module Notions.
Import Scan Color2sat Driver Options Spec Examples.

(** A text without delimiter. *)
Fixpoint no_delim (s : string) : bool :=
  match s with
  | EmptyString => true
  | String c r => negb (is_delim c) && no_delim r
  end.

(** A word: not empty and without delimiter. *)
Definition word (t : string) : Prop := t <> EmptyString /\ no_delim t = true.

(** The words with a blank between two of them. *)
Fixpoint unwords (ts : list string) : string :=
  match ts with
  | [] => EmptyString
  | t :: rest =>
      match rest with
      | [] => t
      | _ :: _ => (t ++ String " " (unwords rest))%string
      end
  end.

(** The result file when the second child is over: the solver's output,
    nothing when the solver could not be executed, and the file as it was
    when the child could not open it. *)
Definition result_after (r : round_env) (before : file) : file :=
  if open_result_ok r
  then if exec_minisat_ok r then Some (solver_output r) else Some EmptyString
  else before.

(** A round in which everything works and the solver answers UNSAT. *)
Definition unsat_round : round_env :=
  mkRound true true true true Written true true true
    (unlines ["UNSAT"%string]) true.

(** The triangle as input, and a solver that is right about it. *)
Definition env_triangle : env :=
  mkEnv (Some triangle_text) true
    (fun k => if k <? 3 then unsat_round else sat_round) true true.

(** [len] times the character [c]. *)
Fixpoint fill (len : nat) (c : ascii) : string :=
  match len with
  | O => EmptyString
  | S l => String c (fill l c)
  end.

(** Two vertices joined by an edge, and a loop at the second. *)
Definition loop_graph : Graph := mkGraph 2 2 [(1, 2); (2, 2)].

End Notions.

(* ================================================================== *)
(** * Machine arithmetic in range *)

Section MachineFacts.

Lemma to_long_id (x : Z) : LONG_MIN <= x <= LONG_MAX -> to_long x = x.
Proof.
  unfold to_long, wrap, LONG_MIN, LONG_MAX. intros H.
  change (2 ^ (64 - 1)) with 9223372036854775808.
  change (2 ^ 64) with 18446744073709551616.
  rewrite Z.mod_small; lia.
Qed.

Lemma to_int_id (x : Z) : INT_MIN <= x <= INT_MAX -> to_int x = x.
Proof.
  unfold to_int, wrap, INT_MIN, INT_MAX. intros H.
  change (2 ^ (32 - 1)) with 2147483648.
  change (2 ^ 32) with 4294967296.
  rewrite Z.mod_small; lia.
Qed.

End MachineFacts.

(* ================================================================== *)
(** * Counting loops *)

Section Loops.

Lemma in_upto (cnt : nat) : forall i x,
  In x (upto cnt i) <-> i <= x < i + Z.of_nat cnt.
Proof.
  induction cnt as [|c IH]; intros i x; simpl.
  - lia.
  - rewrite IH. lia.
Qed.

Lemma in_range (lo hi x : Z) : In x (range lo hi) <-> lo <= x <= hi.
Proof. unfold range. rewrite in_upto. lia. Qed.

Lemma length_upto (cnt : nat) : forall i, List.length (upto cnt i) = cnt.
Proof. induction cnt; intros; simpl; auto. Qed.

Lemma length_range (lo hi : Z) :
  lo <= hi + 1 -> Z.of_nat (List.length (range lo hi)) = hi + 1 - lo.
Proof. intros H. unfold range. rewrite length_upto. lia. Qed.

Lemma upto_app (c1 c2 : nat) : forall i,
  upto (c1 + c2) i = upto c1 i ++ upto c2 (i + Z.of_nat c1).
Proof.
  induction c1 as [|c IH]; intros i.
  - simpl. f_equal. lia.
  - cbn [Nat.add upto app]. rewrite IH. do 3 f_equal. lia.
Qed.

Lemma range_split (lo mid hi : Z) :
  lo <= mid + 1 -> mid <= hi ->
  range lo hi = range lo mid ++ range (mid + 1) hi.
Proof.
  intros H1 H2. unfold range.
  replace (Z.to_nat (hi + 1 - lo))
    with (Z.to_nat (mid + 1 - lo) + Z.to_nat (hi + 1 - (mid + 1)))%nat by lia.
  rewrite upto_app. do 2 f_equal. lia.
Qed.

Lemma range_empty (lo hi : Z) : hi < lo -> range lo hi = [].
Proof.
  intros H. unfold range. replace (Z.to_nat (hi + 1 - lo)) with O by lia.
  reflexivity.
Qed.

Lemma range_cons (lo hi : Z) :
  lo <= hi -> range lo hi = lo :: range (lo + 1) hi.
Proof.
  intros H. unfold range.
  replace (Z.to_nat (hi + 1 - lo)) with (S (Z.to_nat (hi + 1 - (lo + 1)))) by lia.
  reflexivity.
Qed.

Lemma flat_map_single {A B : Type} (f : A -> B) (l : list A) :
  flat_map (fun x => [f x]) l = map f l.
Proof. induction l; simpl; congruence. Qed.

Lemma flat_map_ext_on {A B : Type} (f h : A -> list B) (l : list A) :
  (forall x, In x l -> f x = h x) -> flat_map f l = flat_map h l.
Proof.
  induction l as [|a l IH]; intros H; simpl; auto.
  rewrite H by (left; reflexivity). rewrite IH; auto.
  intros x Hx. apply H. right. exact Hx.
Qed.

Lemma flat_map_map_out {A B C : Type} (f : A -> list B) (h : B -> C)
  (l : list A) :
  flat_map (fun x => map h (f x)) l = map h (flat_map f l).
Proof.
  induction l as [|a l IH]; simpl; auto.
  rewrite IH, map_app. reflexivity.
Qed.

(** Reading [l[e]] for [e] from 0 to [List.length l - 1] visits [l]. *)
Lemma nth_upto {A : Type} (d : A) (l : list A) : forall pre,
  map (fun e => nth (Z.to_nat e) (pre ++ l) d)
      (upto (List.length l) (Z.of_nat (List.length pre))) = l.
Proof.
  induction l as [|a l IH]; intros pre; simpl; auto.
  f_equal.
  - rewrite Nat2Z.id. rewrite app_nth2 by lia.
    rewrite Nat.sub_diag. reflexivity.
  - specialize (IH (pre ++ [a])).
    rewrite <- app_assoc in IH. simpl in IH.
    rewrite List.length_app in IH. simpl in IH.
    replace (Z.of_nat (List.length pre) + 1)
      with (Z.of_nat (List.length pre + 1)) by lia.
    exact IH.
Qed.

Lemma nth_range {A : Type} (d : A) (l : list A) :
  map (fun e => nth (Z.to_nat e) l d) (range 0 (Z.of_nat (List.length l) - 1)) = l.
Proof.
  unfold range.
  replace (Z.to_nat (Z.of_nat (List.length l) - 1 + 1 - 0)) with (List.length l) by lia.
  exact (nth_upto d l []).
Qed.

End Loops.

(* ================================================================== *)
(** * The encoder's clauses *)

Section Encoder.
Import Color2sat Spec.

Lemma mul_bound (a b : Z) :
  0 <= a <= INT_MAX -> 0 <= b <= INT_MAX ->
  0 <= a * b <= INT_MAX * INT_MAX.
Proof.
  intros Ha Hb. split.
  - apply Z.mul_nonneg_nonneg; lia.
  - apply Z.mul_le_mono_nonneg; lia.
Qed.

(** Without overflow the encoder's variable is the convention's index. *)
Lemma var_exact (k v i : Z) :
  1 <= v <= INT_MAX -> 1 <= k <= INT_MAX -> 1 <= i <= k ->
  var k v i = index k v i.
Proof.
  intros Hv Hk Hi. unfold var, index.
  assert (Hb := mul_bound (v - 1) k).
  unfold INT_MAX, INT_MIN in *.
  rewrite (to_int_id (v - 1)) by (unfold INT_MIN, INT_MAX; lia).
  rewrite (to_long_id ((v - 1) * k)) by (unfold LONG_MIN, LONG_MAX; lia).
  apply to_long_id. unfold LONG_MIN, LONG_MAX. lia.
Qed.

Lemma index_range (vn k v c : Z) :
  1 <= v <= vn -> 1 <= c <= k -> 1 <= index k v c <= vn * k.
Proof. unfold index. intros Hv Hc. nia. Qed.

Lemma index_injective (k v c v' c' : Z) :
  1 <= c <= k -> 1 <= c' <= k ->
  index k v c = index k v' c' -> v = v' /\ c = c'.
Proof.
  unfold index. intros Hc Hc' H.
  assert (Hd : (v - v') * k = c' - c) by lia.
  assert (Hv : v = v').
  { destruct (Z.lt_trichotomy v v') as [L|[E|G]]; auto; exfalso.
    - assert (1 * k <= (v' - v) * k) by (apply Z.mul_le_mono_nonneg_r; lia).
      lia.
    - assert (1 * k <= (v - v') * k) by (apply Z.mul_le_mono_nonneg_r; lia).
      lia. }
  subst v'. split; [reflexivity | lia].
Qed.

Lemma clauses_of_app (l1 l2 : list line) :
  clauses_of (l1 ++ l2) = clauses_of l1 ++ clauses_of l2.
Proof.
  induction l1 as [|[ | |c| ] l1 IH]; simpl; auto. rewrite IH. reflexivity.
Qed.

(** For positive arguments the line of two negative literals is their
    clause. *)
Lemma neg_pair_positive (x y : Z) :
  0 < x -> 0 < y -> neg_pair x y = Clause [- x; - y].
Proof.
  intros Hx Hy. unfold neg_pair, neg.
  destruct (Z.ltb_spec 0 x); [| lia]. destruct (Z.ltb_spec 0 y); [| lia].
  reflexivity.
Qed.

Lemma clauses_of_map (f : list (list Z)) : clauses_of (map Clause f) = f.
Proof. induction f; simpl; congruence. Qed.

Lemma coverage_spec (g : Graph) (k : Z) :
  n g <= INT_MAX -> 1 <= k <= INT_MAX ->
  coverage g k = map Clause (coverage_family (n g) k).
Proof.
  intros Hn Hk. unfold coverage, coverage_family, for_loop.
  rewrite flat_map_single, map_map.
  apply map_ext_in. intros v Hv. apply in_range in Hv.
  rewrite flat_map_single. f_equal.
  apply map_ext_in. intros i Hi. apply in_range in Hi.
  apply var_exact; lia.
Qed.

Lemma filter_none {A : Type} (P : A -> bool) (l : list A) :
  (forall x, In x l -> P x = false) -> filter P l = [].
Proof.
  induction l as [|a l IH]; intros H; simpl; auto.
  rewrite H by (left; reflexivity). apply IH.
  intros x Hx. apply H. right. exact Hx.
Qed.

Lemma filter_all {A : Type} (P : A -> bool) (l : list A) :
  (forall x, In x l -> P x = true) -> filter P l = l.
Proof.
  induction l as [|a l IH]; intros H; simpl; auto.
  rewrite H by (left; reflexivity). f_equal. apply IH.
  intros x Hx. apply H. right. exact Hx.
Qed.

Lemma filter_pair {A B : Type} (P : A * B -> bool) (a : A) (l : list B) :
  filter P (map (pair a) l) = map (pair a) (filter (fun y => P (a, y)) l).
Proof.
  induction l as [|b l IH]; simpl; auto.
  destruct (P (a, b)); simpl; rewrite IH; reflexivity.
Qed.

Lemma filter_prod {A B : Type} (P : A * B -> bool) (l : list A) (l' : list B) :
  filter P (list_prod l l')
  = flat_map (fun x => map (pair x) (filter (fun y => P (x, y)) l')) l.
Proof.
  induction l as [|a l IH]; simpl; auto.
  rewrite filter_app, IH, filter_pair. reflexivity.
Qed.

Lemma filter_above (i k : Z) :
  1 <= i -> filter (fun j => i <? j) (range 1 k) = range (i + 1) k.
Proof.
  intros Hi. destruct (Z_le_gt_dec i k) as [Hik|Hik].
  - rewrite (range_split 1 i k) by lia.
    rewrite filter_app, filter_none, filter_all; auto.
    + intros x Hx. apply in_range in Hx. apply Z.ltb_lt. lia.
    + intros x Hx. apply in_range in Hx. apply Z.ltb_ge. lia.
  - rewrite (range_empty (i + 1) k) by lia.
    apply filter_none. intros x Hx. apply in_range in Hx.
    apply Z.ltb_ge. lia.
Qed.

(** The pairs of colors in the order of the two inner loops. *)
Lemma color_pairs_loops (k : Z) :
  color_pairs k
  = flat_map (fun i => map (pair i) (range (i + 1) k)) (range 1 k).
Proof.
  unfold color_pairs. rewrite filter_prod.
  apply flat_map_ext_on. intros i Hi. apply in_range in Hi.
  f_equal. simpl. apply filter_above. lia.
Qed.

Lemma exclusivity_spec (g : Graph) (k : Z) :
  n g <= INT_MAX -> 1 <= k <= INT_MAX ->
  exclusivity g k = map Clause (exclusivity_family (n g) k).
Proof.
  intros Hn Hk. unfold exclusivity, exclusivity_family, for_loop.
  rewrite <- flat_map_map_out.
  apply flat_map_ext_on. intros v Hv. apply in_range in Hv.
  rewrite color_pairs_loops, map_map, <- flat_map_map_out.
  apply flat_map_ext_on. intros i Hi. apply in_range in Hi.
  rewrite flat_map_single, map_map.
  apply map_ext_in. intros j Hj. apply in_range in Hj.
  simpl. rewrite !var_exact by lia.
  assert (Bi := index_range (n g) k v i ltac:(lia) ltac:(lia)).
  assert (Bj := index_range (n g) k v j ltac:(lia) ltac:(lia)).
  rewrite neg_pair_positive by lia. reflexivity.
Qed.

Lemma adjacency_spec (g : Graph) (k : Z) :
  valid_graph g -> n g <= INT_MAX -> 1 <= k <= INT_MAX ->
  adjacency g k = map Clause (adjacency_family (edges g) k).
Proof.
  intros (Hn1 & Hm & Hes) Hn Hk. unfold adjacency, adjacency_family, for_loop.
  rewrite Hm.
  rewrite <- flat_map_map_out.
  pose (body := fun e : Z * Z =>
    flat_map (fun i => [neg_pair (var k (fst e) i) (var k (snd e) i)])
      (range 1 k)).
  transitivity (flat_map body
    (map (fun e => nth (Z.to_nat e) (edges g) (0, 0))
         (range 0 (Z.of_nat (List.length (edges g)) - 1)))).
  - rewrite flat_map_concat_map, (flat_map_concat_map body), map_map.
    f_equal. apply map_ext. intros e.
    destruct (nth (Z.to_nat e) (edges g) (0, 0)) as [u w]. reflexivity.
  - rewrite nth_range. apply flat_map_ext_on. intros [u w] He.
    rewrite Forall_forall in Hes. specialize (Hes _ He). simpl in Hes.
    unfold body. rewrite flat_map_single, map_map.
    apply map_ext_in. intros i Hi. apply in_range in Hi.
    simpl. rewrite !var_exact by lia.
    assert (Bu := index_range (n g) k u i ltac:(lia) ltac:(lia)).
    assert (Bw := index_range (n g) k w i ltac:(lia) ltac:(lia)).
    rewrite neg_pair_positive by lia. reflexivity.
Qed.

(** The clauses of the output are the three families, in order. *)
Lemma encode_clauses (g : Graph) (k : Z) :
  valid_graph g -> n g <= INT_MAX -> 1 <= k <= INT_MAX ->
  clauses_of (encode g k)
  = coverage_family (n g) k ++ exclusivity_family (n g) k
      ++ adjacency_family (edges g) k.
Proof.
  intros Hg Hn Hk. unfold encode. cbn [clauses_of].
  rewrite !clauses_of_app.
  rewrite coverage_spec, exclusivity_spec, adjacency_spec by assumption.
  rewrite !clauses_of_map. reflexivity.
Qed.

End Encoder.

(* ================================================================== *)
(** * Counting the clauses *)

Section Counting.
Import Color2sat Spec.

Lemma length_flat_map_const {A B : Type} (f : A -> list B) (l : list A)
  (c : nat) :
  (forall x, In x l -> List.length (f x) = c) ->
  List.length (flat_map f l) = (List.length l * c)%nat.
Proof.
  induction l as [|a l IH]; intros H; simpl; auto.
  rewrite List.length_app, H by (left; reflexivity).
  rewrite IH; auto. intros x Hx. apply H. right. exact Hx.
Qed.

(** Pairs [(i, j)] with [lo <= i < j <= k], counted twice. *)
Lemma length_pairs_from (k : Z) (cnt : nat) : forall lo,
  lo + Z.of_nat cnt = k + 1 ->
  2 * Z.of_nat (List.length
        (flat_map (fun i => map (pair i) (range (i + 1) k)) (upto cnt lo)))
  = (k - lo) * (k - lo + 1).
Proof.
  induction cnt as [|c IH]; intros lo H.
  - simpl. replace (k - lo) with (-1) by lia. reflexivity.
  - cbn [upto flat_map]. rewrite List.length_app, length_map.
    rewrite Nat2Z.inj_add, Z.mul_add_distr_l.
    rewrite IH by lia. rewrite length_range by lia. ring.
Qed.

Lemma length_color_pairs (k : Z) :
  0 <= k -> 2 * Z.of_nat (List.length (color_pairs k)) = k * (k - 1).
Proof.
  intros Hk. rewrite color_pairs_loops. unfold range at 2.
  rewrite (length_pairs_from k) by lia. ring.
Qed.

Lemma length_coverage_family (vn k : Z) :
  0 <= vn -> Z.of_nat (List.length (coverage_family vn k)) = vn.
Proof.
  intros H. unfold coverage_family. rewrite length_map, length_range; lia.
Qed.

Lemma length_exclusivity_family (vn k : Z) :
  0 <= vn -> 0 <= k ->
  2 * Z.of_nat (List.length (exclusivity_family vn k)) = vn * k * (k - 1).
Proof.
  intros Hn Hk. unfold exclusivity_family.
  rewrite (length_flat_map_const _ _ (List.length (color_pairs k)))
    by (intros; apply length_map).
  rewrite Nat2Z.inj_mul, length_range by lia.
  assert (H := length_color_pairs k Hk). nia.
Qed.

Lemma length_adjacency_family (es : list (Z * Z)) (k : Z) :
  0 <= k ->
  Z.of_nat (List.length (adjacency_family es k))
  = Z.of_nat (List.length es) * k.
Proof.
  intros Hk. unfold adjacency_family.
  rewrite (length_flat_map_const _ _ (Z.to_nat k)).
  - rewrite Nat2Z.inj_mul. lia.
  - intros e _. rewrite length_map. unfold range. rewrite length_upto. lia.
Qed.

(** [n*k*(k-1)] is even: its half is the number of exclusivity clauses. *)
Lemma half_exclusivity (vn k : Z) :
  0 <= vn -> 0 <= k ->
  vn * k * (k - 1) / 2 = Z.of_nat (List.length (exclusivity_family vn k)).
Proof.
  intros Hn Hk. rewrite <- (length_exclusivity_family vn k Hn Hk).
  rewrite Z.mul_comm. apply Z.div_mul. lia.
Qed.

Lemma length_clauses (g : Graph) (k : Z) :
  valid_graph g -> n g <= INT_MAX -> 1 <= k <= INT_MAX ->
  Z.of_nat (List.length (clauses_of (encode g k)))
  = n g + n g * k * (k - 1) / 2 + m g * k.
Proof.
  intros Hg Hn Hk. rewrite encode_clauses by assumption.
  destruct Hg as (Hn1 & Hm & _).
  rewrite !List.length_app, !Nat2Z.inj_add.
  rewrite length_coverage_family, length_adjacency_family by lia.
  rewrite half_exclusivity by lia. rewrite Hm. ring.
Qed.

(** The count of the header, when the product [n*k*(k-1)] fits a
    [long long]. *)
Lemma num_clauses_exact (g : Graph) (k : Z) :
  1 <= n g <= INT_MAX -> 0 <= m g <= INT_MAX -> 1 <= k <= INT_MAX ->
  n g * k * (k - 1) <= LONG_MAX ->
  num_clauses g k = n g + n g * k * (k - 1) / 2 + m g * k.
Proof.
  intros Hn Hm Hk Hfit. unfold num_clauses. cbv zeta.
  assert (Hnk := mul_bound (n g) k).
  assert (Hmk := mul_bound (m g) k).
  assert (Hp : 0 <= n g * k * (k - 1)).
  { apply Z.mul_nonneg_nonneg; lia. }
  assert (Hh : 0 <= n g * k * (k - 1) / 2 <= n g * k * (k - 1)).
  { split; [apply Z.div_pos; lia | apply Z.div_le_upper_bound; lia]. }
  assert (Hh2 : 2 * (n g * k * (k - 1) / 2) <= LONG_MAX).
  { assert (E := Z.mul_div_le (n g * k * (k - 1)) 2). lia. }
  unfold INT_MAX, LONG_MAX in *.
  rewrite (to_long_id (0 + n g)) by (unfold LONG_MIN, LONG_MAX; lia).
  rewrite (to_long_id (n g * k)) by (unfold LONG_MIN, LONG_MAX; lia).
  rewrite (to_long_id (n g * k * (k - 1))) by (unfold LONG_MIN, LONG_MAX; lia).
  rewrite Z.quot_div_nonneg by lia.
  rewrite (to_long_id (m g * k)) by (unfold LONG_MIN, LONG_MAX; lia).
  rewrite (to_long_id (0 + n g + _)) by (unfold LONG_MIN, LONG_MAX; lia).
  apply to_long_id. unfold LONG_MIN, LONG_MAX. lia.
Qed.

End Counting.

(* ================================================================== *)
(** * Satisfiability and colorability *)

Section Reduction.
Import Color2sat Spec.

Lemma lit_holds_pos (a : assignment) (x : Z) :
  0 < x -> lit_holds a x = a x.
Proof.
  intros H. unfold lit_holds.
  destruct (Z.ltb_spec 0 x); [reflexivity | lia].
Qed.

Lemma lit_holds_neg (a : assignment) (x : Z) :
  0 < x -> lit_holds a (- x) = negb (a x).
Proof.
  intros H. unfold lit_holds.
  destruct (Z.ltb_spec 0 (- x)); [lia |].
  rewrite Z.opp_involutive. reflexivity.
Qed.

Lemma assignment_of_index (k : Z) (col : Z -> Z) (v c : Z) :
  1 <= c <= k ->
  assignment_of k col (index k v c) = (c =? col v).
Proof.
  intros Hc. unfold assignment_of, index.
  replace ((v - 1) * k + c - 1) with (k * (v - 1) + (c - 1)) by ring.
  assert (Hq : (k * (v - 1) + (c - 1)) / k = v - 1).
  { symmetry. apply (Z.div_unique_pos _ _ _ (c - 1)); lia. }
  assert (Hr : (k * (v - 1) + (c - 1)) mod k = c - 1).
  { symmetry. apply (Z.mod_unique_pos _ _ (v - 1)); lia. }
  rewrite Hq, Hr.
  replace (c - 1 + 1) with c by lia. replace (v - 1 + 1) with v by lia.
  reflexivity.
Qed.

Section FromColoring.
Variables (g : Graph) (k : Z) (col : Z -> Z).
Hypothesis Hg : valid_graph g.
Hypothesis Hk : 1 <= k.
Hypothesis Hcol : proper_coloring g k col.

Let a := assignment_of k col.

Lemma coverage_holds : models a (coverage_family (n g) k) = true.
Proof.
  apply forallb_forall. intros cl Hcl.
  apply in_map_iff in Hcl. destruct Hcl as (v & <- & Hv).
  apply in_range in Hv. destruct Hcol as [Hc _]. specialize (Hc v Hv).
  apply existsb_exists. exists (index k v (col v)). split.
  - apply in_map, in_range. exact Hc.
  - assert (Hi := index_range (n g) k v (col v) Hv Hc).
    rewrite lit_holds_pos by lia. unfold a.
    rewrite assignment_of_index by exact Hc. apply Z.eqb_refl.
Qed.

Lemma exclusivity_holds : models a (exclusivity_family (n g) k) = true.
Proof.
  apply forallb_forall. intros cl Hcl.
  apply in_flat_map in Hcl. destruct Hcl as (v & Hv & Hcl).
  apply in_map_iff in Hcl. destruct Hcl as ([i j] & <- & Hp).
  apply in_range in Hv. unfold color_pairs in Hp.
  apply filter_In in Hp. destruct Hp as [Hp Hlt].
  apply in_prod_iff in Hp. destruct Hp as [Hi Hj].
  apply in_range in Hi. apply in_range in Hj.
  simpl in Hlt. apply Z.ltb_lt in Hlt. cbn [fst snd].
  assert (Bi := index_range (n g) k v i Hv Hi).
  assert (Bj := index_range (n g) k v j Hv Hj).
  unfold clause_holds. cbn [existsb].
  rewrite !lit_holds_neg by lia. unfold a.
  rewrite !assignment_of_index by assumption.
  destruct (Z.eqb_spec i (col v)), (Z.eqb_spec j (col v)); simpl; auto.
  lia.
Qed.

Lemma adjacency_holds : models a (adjacency_family (edges g) k) = true.
Proof.
  apply forallb_forall. intros cl Hcl.
  apply in_flat_map in Hcl. destruct Hcl as ([u w] & He & Hcl).
  apply in_map_iff in Hcl. destruct Hcl as (c & <- & Hc).
  apply in_range in Hc. cbn [fst snd].
  destruct Hg as (_ & _ & Hes). rewrite Forall_forall in Hes.
  destruct (Hes _ He) as [Hu Hw]. cbn [fst snd] in Hu, Hw.
  assert (Bu := index_range (n g) k u c Hu Hc).
  assert (Bw := index_range (n g) k w c Hw Hc).
  unfold clause_holds. cbn [existsb].
  rewrite !lit_holds_neg by lia. unfold a.
  rewrite !assignment_of_index by assumption.
  destruct Hcol as [_ Hne]. specialize (Hne u w He).
  destruct (Z.eqb_spec c (col u)), (Z.eqb_spec c (col w)); simpl; auto.
  congruence.
Qed.

End FromColoring.

Section FromAssignment.
Variables (g : Graph) (k : Z) (a : assignment).
Hypothesis Hg : valid_graph g.
Hypothesis Hk : 1 <= k.
Hypothesis Hcov : models a (coverage_family (n g) k) = true.
Hypothesis Hadj : models a (adjacency_family (edges g) k) = true.

Let col := coloring_of k a.

Lemma coloring_of_holds (v : Z) :
  1 <= v <= n g -> 1 <= col v <= k /\ a (index k v (col v)) = true.
Proof.
  intros Hv. unfold col, coloring_of.
  destruct (find (fun c => a (index k v c)) (range 1 k)) as [c|] eqn:Hf.
  - apply find_some in Hf. destruct Hf as [Hin Ha].
    apply in_range in Hin. auto.
  - exfalso.
    assert (Hcl : clause_holds a (map (index k v) (range 1 k)) = true).
    { unfold models in Hcov. rewrite forallb_forall in Hcov.
      apply Hcov. unfold coverage_family.
      apply (in_map (fun v => map (index k v) (range 1 k))).
      apply in_range. exact Hv. }
    apply existsb_exists in Hcl. destruct Hcl as (x & Hx & Hl).
    apply in_map_iff in Hx. destruct Hx as (c & <- & Hc).
    assert (Hn := find_none _ _ Hf c Hc). cbv beta in Hn.
    apply in_range in Hc.
    assert (Bi := index_range (n g) k v c Hv Hc).
    rewrite lit_holds_pos in Hl by lia. congruence.
Qed.

Lemma coloring_of_proper : proper_coloring g k col.
Proof.
  split.
  - intros v Hv. apply coloring_of_holds. exact Hv.
  - intros u w He Heq.
    destruct Hg as (_ & _ & Hes). rewrite Forall_forall in Hes.
    destruct (Hes _ He) as [Hu Hw]. cbn [fst snd] in Hu, Hw.
    destruct (coloring_of_holds u Hu) as [Hcu Hau].
    destruct (coloring_of_holds w Hw) as [Hcw Haw].
    rewrite <- Heq in Haw.
    assert (Hcl : clause_holds a
              [- index k u (col u); - index k w (col u)] = true).
    { unfold models in Hadj. rewrite forallb_forall in Hadj.
      apply Hadj. unfold adjacency_family. apply in_flat_map.
      exists (u, w). split; [exact He |].
      apply (in_map (fun c => [- index k u c; - index k w c])).
      apply in_range. exact Hcu. }
    assert (Bu := index_range (n g) k u (col u) Hu Hcu).
    assert (Bw := index_range (n g) k w (col u) Hw Hcu).
    unfold clause_holds in Hcl. cbn [existsb] in Hcl.
    rewrite !lit_holds_neg in Hcl by lia.
    rewrite Hau, Haw in Hcl. discriminate.
Qed.

End FromAssignment.

Lemma models_app (a : assignment) (f1 f2 : list (list Z)) :
  models a (f1 ++ f2) = models a f1 && models a f2.
Proof. apply forallb_app. Qed.

(** The three families are satisfiable exactly when the graph is
    colorable. *)
Lemma families_colorable (g : Graph) (k : Z) :
  valid_graph g -> 1 <= k ->
  satisfiable (coverage_family (n g) k ++ exclusivity_family (n g) k
                 ++ adjacency_family (edges g) k)
  <-> colorable g k.
Proof.
  intros Hg Hk. split.
  - intros [a Ha]. rewrite !models_app in Ha.
    apply andb_prop in Ha. destruct Ha as [Hc Ha].
    apply andb_prop in Ha. destruct Ha as [_ Ha].
    exists (coloring_of k a). apply coloring_of_proper; assumption.
  - intros [col Hcol]. exists (assignment_of k col).
    rewrite !models_app.
    rewrite coverage_holds, exclusivity_holds, adjacency_holds by assumption.
    reflexivity.
Qed.

(** The triangle can be colored with three colors and not with two. *)
Lemma triangle_colorable_3 : colorable Examples.triangle 3.
Proof.
  exists (fun v => v). split.
  - intros v Hv. simpl in Hv. lia.
  - intros u w [H|[H|[H|[]]]]; inversion H; lia.
Qed.

Lemma triangle_not_colorable_2 : ~ colorable Examples.triangle 2.
Proof.
  intros (col & Hc & He).
  assert (H1 := Hc 1). assert (H2 := Hc 2). assert (H3 := Hc 3).
  simpl in H1, H2, H3.
  assert (E12 := He 1 2). assert (E23 := He 2 3). assert (E13 := He 1 3).
  simpl in E12, E23, E13.
  assert (col 1 <> col 2) by auto.
  assert (col 2 <> col 3) by auto.
  assert (col 1 <> col 3) by auto 6.
  lia.
Qed.

End Reduction.

(* ================================================================== *)
(** * Numerals *)

Section Numerals.
Import Scan Spec.

Lemma digit_not_space (c : ascii) : isdigit c = true -> isspace c = false.
Proof.
  unfold isdigit, isspace. intros H.
  apply andb_prop in H. destruct H as [H1 H2].
  apply Nat.leb_le in H1. apply Nat.leb_le in H2.
  destruct (Nat.eqb_spec (nat_of_ascii c) 32); [lia |].
  destruct (Nat.leb_spec (nat_of_ascii c) 13); [lia |].
  rewrite andb_false_r. reflexivity.
Qed.

Lemma digit_not_char (c d : ascii) :
  isdigit c = true -> isdigit d = false -> Ascii.eqb c d = false.
Proof.
  intros Hc Hd. destruct (Ascii.eqb_spec c d); [congruence | reflexivity].
Qed.

Lemma scan_digits_prefix (ds rest : string) : forall acc,
  all_digits ds = true -> no_digit_ahead rest = true ->
  scan_digits acc (ds ++ rest) = (fst (scan_digits acc ds), rest).
Proof.
  induction ds as [|c ds IH]; intros acc Hds Hrest.
  - simpl. destruct rest as [|c r]; [reflexivity |].
    simpl in Hrest. simpl. destruct (isdigit c); [discriminate | reflexivity].
  - simpl in Hds. apply andb_prop in Hds. destruct Hds as [Hc Hds].
    simpl. rewrite Hc. apply IH; assumption.
Qed.

(** [strtol] on a numeral without sign followed by something else: the
    value of the numeral, saturated, and what follows. *)
Lemma strtol_prefix (ds rest : string) :
  ds <> EmptyString -> all_digits ds = true -> no_digit_ahead rest = true ->
  strtol (ds ++ rest) = (clamp_long (decimal ds), rest).
Proof.
  intros Hne Hds Hrest. destruct ds as [|c ds]; [contradiction |].
  assert (Hc : isdigit c = true).
  { simpl in Hds. apply andb_prop in Hds. tauto. }
  unfold strtol, decimal.
  change (String c ds ++ rest)%string with (String c (ds ++ rest)%string).
  cbn [skip_ws]. rewrite (digit_not_space c Hc).
  unfold scan_signed.
  rewrite (digit_not_char c "-"), (digit_not_char c "+") by auto.
  unfold scan_number. rewrite Hc.
  change (String c (ds ++ rest)%string) with (String c ds ++ rest)%string.
  rewrite scan_digits_prefix by assumption. reflexivity.
Qed.

End Numerals.

(* ================================================================== *)
(** * The reader *)

Section Reader.
Import Scan Color2sat Spec.

(** Lines that do not start with 'p' are dropped before the problem
    line. *)
Lemma problem_line_skip (pre lines : list string) :
  Forall (fun l => first_is "p" l = false) pre ->
  problem_line (pre ++ lines) = problem_line lines.
Proof.
  induction 1 as [|l pre Hl _ IH]; simpl; auto.
  rewrite Hl. exact IH.
Qed.

(** A line that does not start with 'e' ends the run. *)
Lemma edge_lines_other (vm count : Z) (acc : list (Z * Z)) (l : string)
  (rest : list string) :
  first_is "e" l = false ->
  edge_lines vm count acc (l :: rest) = inl (InvalidEdgeLine count l).
Proof. intros H. simpl. rewrite H. reflexivity. Qed.

(** Any line read once [vm] edges are recorded ends the run. *)
Lemma edge_lines_full (vm count : Z) (acc : list (Z * Z)) (l : string)
  (rest : list string) :
  vm <= count ->
  edge_lines vm count acc (l :: rest) = inl (InvalidEdgeLine count l).
Proof.
  intros H. simpl. destruct (Z.ltb_spec count vm); [lia |].
  rewrite andb_false_r. reflexivity.
Qed.

(** The loop records at most [vm] edges, and [count] counts them. *)
Lemma edge_lines_count (vm : Z) (lines : list string) :
  forall count acc count' es,
    count <= vm -> count = Z.of_nat (List.length acc) ->
    edge_lines vm count acc lines = inr (count', es) ->
    count' <= vm /\ count' = Z.of_nat (List.length es).
Proof.
  induction lines as [|l rest IH]; intros count acc count' es Hle Hc H.
  - simpl in H. inversion H; subst. auto.
  - simpl in H.
    destruct (first_is "e" l); [| discriminate].
    destruct (Z.ltb_spec count vm); [| discriminate].
    simpl in H. destruct (sscanf_e l) as [[u v]|].
    + apply IH in H; auto; [lia |].
      rewrite List.length_app. simpl. lia.
    + apply IH in H; auto.
Qed.

(** Lines that start with 'e', fewer of them valid than [vm] allows: the
    valid ones are recorded and the others are passed over. *)
Lemma edge_lines_short (vm : Z) (lines : list string) :
  forall count acc,
    Forall (fun l => first_is "e" l = true) lines ->
    count + Z.of_nat (List.length (valid_edges lines)) < vm ->
    edge_lines vm count acc lines
    = inr (count + Z.of_nat (List.length (valid_edges lines)),
           acc ++ valid_edges lines).
Proof.
  induction lines as [|l rest IH]; intros count acc Hall Hlt.
  - simpl. rewrite Z.add_0_r, app_nil_r. reflexivity.
  - inversion Hall as [|? ? Hl Hrest]; subst.
    unfold valid_edges in *. cbn [flat_map edge_lines] in *.
    rewrite List.length_app in Hlt.
    rewrite Hl. destruct (Z.ltb_spec count vm); [| lia].
    simpl andb. cbv iota.
    destruct (sscanf_e l) as [[u v]|].
    + simpl in Hlt. rewrite IH by (auto; lia).
      rewrite List.length_app. simpl List.length.
      rewrite <- app_assoc. simpl. f_equal. f_equal. lia.
    + simpl in Hlt. rewrite IH by (auto; lia).
      reflexivity.
Qed.

(** The lines read without failure leave the loop in the state from which
    it goes on with the next line. *)
Lemma edge_lines_app (vm : Z) (good : list string) : forall count acc count' acc' more,
  edge_lines vm count acc good = inr (count', acc') ->
  edge_lines vm count acc (good ++ more) = edge_lines vm count' acc' more.
Proof.
  induction good as [|l good IH]; intros count acc count' acc' more H.
  - simpl in H. inversion H. reflexivity.
  - simpl in H. simpl.
    destruct (first_is "e" l && (count <? vm)); [| discriminate].
    destruct (sscanf_e l) as [[u v]|]; apply IH; exact H.
Qed.

(** Wherever it stands after the problem line, a line that does not start
    with 'e', and any line that comes once [vm] edges are recorded, ends
    the run with the diagnostic of the edge lines. *)
Lemma edge_lines_fatal (vm : Z) (good : list string) (l : string)
  (more : list string) (count' : Z) (acc' : list (Z * Z)) :
  edge_lines vm 0 [] good = inr (count', acc') ->
  first_is "e" l = false \/ vm <= count' ->
  edge_lines vm 0 [] (good ++ l :: more) = inl (InvalidEdgeLine count' l).
Proof.
  intros Hgood Hbad. rewrite (edge_lines_app vm good 0 [] count' acc') by exact Hgood.
  destruct Hbad as [Hl|Hfull].
  - apply edge_lines_other. exact Hl.
  - apply edge_lines_full. exact Hfull.
Qed.

(** A graph returned by the reader has at least one vertex and as many
    recorded edges as its count [m] says. *)
Lemma read_lines_shape (lines : list string) (g : Graph) (log : list diag) :
  read_lines lines = Ok g log ->
  1 <= n g /\ m g = Z.of_nat (List.length (edges g)).
Proof.
  unfold read_lines.
  destruct (problem_line lines) as [d|[[vn vm] rest]]; [discriminate |].
  destruct (Z.leb_spec vn 0); [discriminate |].
  destruct (Z.ltb_spec vm 0); [discriminate |].
  cbn [orb].
  destruct (edge_lines vm 0 [] rest) as [d|[count es]] eqn:He; [discriminate |].
  destruct (edge_lines_count vm rest 0 [] count es) as [Hle Hc]; auto.
  destruct (Z.eqb_spec count vm); cbn [negb]; intros Heq; inversion Heq; subst;
    cbn [n m edges]; split; auto; lia.
Qed.

(** What a successful run of [main] has printed. *)
Lemma main_output (f karg : string) (file : option string)
  (out : list line) (log : list diag) :
  main [f; karg] file = Ok out log ->
  exists g k,
    parse_k karg = Some k /\ 1 <= k /\
    read_graph file = Ok g log /\
    1 <= n g /\ m g = Z.of_nat (List.length (edges g)) /\
    out = encode g k.
Proof.
  unfold main. destruct (parse_k karg) as [k|] eqn:Hk; [| discriminate].
  destruct (read_graph file) as [g lg|d] eqn:Hg; [| discriminate].
  intros H. inversion H; subst. exists g, k.
  assert (Hk1 : 1 <= k).
  { unfold parse_k in Hk. destruct (strtol karg) as [k' rest].
    destruct rest; [| discriminate].
    destruct (Z.leb_spec k' 0); [discriminate |]. inversion Hk. lia. }
  assert (Hs : 1 <= n g /\ m g = Z.of_nat (List.length (edges g))).
  { unfold read_graph in Hg. destruct file as [text|]; [| discriminate].
    exact (read_lines_shape _ _ _ Hg). }
  destruct Hs. auto 10.
Qed.

End Reader.

(* ================================================================== *)
(** * The rounds and the search *)

Section Search.
Import Driver Spec.

Lemma tried_app (t1 t2 : list event) : tried (t1 ++ t2) = tried t1 ++ tried t2.
Proof.
  induction t1 as [|[ | | | | | ] t1 IH]; simpl; auto; rewrite IH; reflexivity.
Qed.

Lemma reported_app (t1 t2 : list event) :
  reported (t1 ++ t2)
  = match reported t1 with Some k => Some k | None => reported t2 end.
Proof. induction t1 as [|[ | | | | | ] t1 IH]; simpl; auto. Qed.

Lemma tried_rounds (ks : list Z) (ret : Z) :
  tried (map (fun k => Round k ret) ks) = ks.
Proof. induction ks; simpl; congruence. Qed.

Lemma reported_rounds (ks : list Z) (ret : Z) :
  reported (map (fun k => Round k ret) ks) = None.
Proof. induction ks; simpl; auto. Qed.

(** A round without failure returns the solver's verdict. *)
Lemma round_launches (r : round_env) (tmp : file) :
  launches r ->
  run_color_minisat r tmp
  = (Returned (if verdict r then 0 else -1), Some (solver_output r), []).
Proof.
  intros (H1 & H2 & H3 & H4 & H5 & H6 & H7 & H8 & H9).
  unfold run_color_minisat, verdict.
  rewrite H1, H2, H3, H4, H5, H6, H7, H8, H9. simpl.
  destruct (fgets 32 (solver_output r)); reflexivity.
Qed.

(** The round from the write of the graph on, when the write raises no
    signal. *)
Lemma round_after_write (r : round_env) (tmp : file) :
  pipe_p2c_ok r = true -> pipe_c2s_ok r = true -> fork1_ok r = true ->
  write_graph r <> Sigpipe ->
  run_color_minisat r tmp
  = let log1 := if exec_color2sat_ok r then [] else [ChildExecColor2sat] in
    let log2 := match write_graph r with
                | WriteError => [WriteFailed]
                | _ => []
                end in
    if negb (fork2_ok r)
    then (Returned (-1), tmp, log1 ++ log2 ++ [ForkFailed])
    else
      let '(f, log3) :=
        if negb (open_result_ok r) then (tmp, [ChildOpenResult])
        else if negb (exec_minisat_ok r)
             then (Some EmptyString, [ChildExecMinisat])
             else (Some (solver_output r), []) in
      let log := log1 ++ log2 ++ log3 in
      match (if fopen_result_ok r then f else None) with
      | None => (Returned (-1), f, log)
      | Some content =>
          match fgets 32 content with
          | None => (Returned (-1), f, log)
          | Some l => (Returned (if starts_with_SAT l then 0 else -1), f, log)
          end
      end.
Proof.
  intros H1 H2 H3 Hw. unfold run_color_minisat. rewrite H1, H2, H3.
  cbn [andb negb]. destruct (write_graph r); [reflexivity | reflexivity |].
  contradiction.
Qed.

(** The result file exists after a round if it existed before. *)
Lemma round_keeps_file (r : round_env) (tmp : file) :
  tmp <> None -> snd (fst (run_color_minisat r tmp)) <> None.
Proof.
  intros H. unfold run_color_minisat.
  destruct (pipe_p2c_ok r && pipe_c2s_ok r); simpl; auto.
  destruct (fork1_ok r); simpl; auto.
  destruct (write_graph r); simpl; auto;
    (destruct (fork2_ok r); simpl; auto;
     destruct (open_result_ok r); simpl;
     [ destruct (exec_minisat_ok r); simpl;
         destruct (fopen_result_ok r); simpl;
         try (destruct (fgets 32 _)); simpl; discriminate
     | destruct (fopen_result_ok r); simpl; auto;
       destruct tmp as [c|]; [| contradiction];
       destruct (fgets 32 c); simpl; discriminate ]).
Qed.

(** A round returns 0 or -1, or the driver is ended inside it. *)
Lemma round_returns (r : round_env) (tmp : file) :
  fst (fst (run_color_minisat r tmp)) = Returned 0 \/
  fst (fst (run_color_minisat r tmp)) = Returned (-1) \/
  fst (fst (run_color_minisat r tmp)) = Killed.
Proof.
  unfold run_color_minisat.
  destruct (pipe_p2c_ok r && pipe_c2s_ok r); simpl; auto.
  destruct (fork1_ok r); simpl; auto.
  destruct (write_graph r); simpl; auto;
    (destruct (fork2_ok r); simpl; auto;
     destruct (if negb (open_result_ok r) then _ else _) as [f l3];
     destruct (if fopen_result_ok r then f else None); simpl; auto;
     destruct (fgets 32 s); simpl; auto;
     destruct (starts_with_SAT s0); simpl; auto).
Qed.

(** After a round that returns 0 the result file exists. *)
Lemma round_zero_file (r : round_env) (tmp tmp' : file) (log : list diag) :
  run_color_minisat r tmp = (Returned 0, tmp', log) ->
  exists content, tmp' = Some content.
Proof.
  unfold run_color_minisat.
  destruct (pipe_p2c_ok r && pipe_c2s_ok r); simpl; [| discriminate].
  destruct (fork1_ok r); simpl; [| discriminate].
  destruct (write_graph r); simpl; try discriminate;
    (destruct (fork2_ok r); simpl; [| discriminate];
     destruct (if negb (open_result_ok r) then _ else _) as [f l3];
     destruct (fopen_result_ok r); [| discriminate];
     destruct f as [content|]; [| discriminate];
     destruct (fgets 32 content); [| discriminate];
     intros H; inversion H; subst; eauto).
Qed.

(** A round that does not return 0 makes the search go on with the next
    value of [k]. *)
Lemma search_advance (a : args) (e : env) (k : Z) (ks : list Z)
  (tmp tmp' : file) (tr : list event) (ret : Z) (log : list diag) :
  run_color_minisat (rounds e k) tmp = (Returned ret, tmp', log) ->
  ret <> 0 ->
  search a e (k :: ks) tmp tr
  = search a e ks tmp' (tr ++ map Log log ++ [Round k ret]).
Proof.
  intros H Hret. cbn [search]. rewrite H.
  destruct (Z.eqb_spec ret 0); [contradiction | reflexivity].
Qed.

(** A round in which the driver is ended is the end of the run: nothing is
    reported and the result file stays. *)
Lemma search_killed (a : args) (e : env) (k : Z) (ks : list Z)
  (tmp tmp' : file) (tr : list event) (log : list diag) :
  run_color_minisat (rounds e k) tmp = (Killed, tmp', log) ->
  search a e (k :: ks) tmp tr
  = mkOutcome SIGNALED None tmp' (tr ++ map Log log ++ [Signal k]).
Proof. intros H. cbn [search]. rewrite H. reflexivity. Qed.

Lemma rounds_of_app (t1 t2 : list event) :
  rounds_of (t1 ++ t2) = rounds_of t1 ++ rounds_of t2.
Proof.
  induction t1 as [|[ | | | | | ] t1 IH]; simpl; auto. rewrite IH. reflexivity.
Qed.

Lemma rounds_of_log (log : list diag) : rounds_of (map Log log) = [].
Proof. induction log; simpl; auto. Qed.

Lemma reported_log (log : list diag) : reported (map Log log) = None.
Proof. induction log; simpl; auto. Qed.

(** How a search ends, in every environment.  The rounds that returned
    form a scan of the candidates, and the search ends in one of three
    ways: every candidate has had a round and none returned 0; or the
    last round returned 0, and its k is reported exactly when the result
    file can be opened again and the output file, if one is named, can be
    opened; or the driver is ended by SIGPIPE inside a round. *)
Lemma search_outcome (a : args) (e : env) (ks : list Z) : forall tmp tr,
  reported tr = None ->
  exists rs,
    rounds_of (trace (search a e ks tmp tr)) = rounds_of tr ++ rs /\
    ((scan ks rs /\ Forall (fun p => snd p <> 0) rs /\
      status (search a e ks tmp tr) = EXIT_FAILURE /\
      died (search a e ks tmp tr) = None /\
      reported (trace (search a e ks tmp tr)) = None) \/
     (exists pre k,
        rs = pre ++ [(k, 0)] /\ scan ks rs /\
        Forall (fun p => snd p <> 0) pre /\
        ((reopen_ok e = true /\ (outfile a = None \/ outfile_ok e = true) /\
          status (search a e ks tmp tr) = EXIT_SUCCESS /\
          died (search a e ks tmp tr) = None /\
          reported (trace (search a e ks tmp tr)) = Some k) \/
         ((reopen_ok e = false \/
           (outfile a <> None /\ outfile_ok e = false)) /\
          status (search a e ks tmp tr) = EXIT_FAILURE /\
          died (search a e ks tmp tr) <> None /\
          reported (trace (search a e ks tmp tr)) = None))) \/
     (exists k,
        scan_killed ks rs k /\ Forall (fun p => snd p <> 0) rs /\
        status (search a e ks tmp tr) = SIGNALED /\
        died (search a e ks tmp tr) = None /\
        reported (trace (search a e ks tmp tr)) = None /\
        In (Signal k) (trace (search a e ks tmp tr)))).
Proof.
  induction ks as [|k ks IH]; intros tmp tr Hrep.
  - exists []. cbn [search trace status died].
    rewrite rounds_of_app, reported_app, Hrep. cbn [rounds_of reported].
    split; [reflexivity |]. left. repeat split; constructor.
  - destruct (run_color_minisat (rounds e k) tmp) as [[re tmp'] log] eqn:Hrun.
    destruct re as [ret|].
    + assert (Hr : rounds_of (tr ++ map Log log ++ [Round k ret])
                   = rounds_of tr ++ [(k, ret)]).
      { rewrite !rounds_of_app, rounds_of_log. reflexivity. }
      assert (Hp : reported (tr ++ map Log log ++ [Round k ret]) = None).
      { rewrite !reported_app, Hrep, reported_log. reflexivity. }
      destruct (Z.eq_dec ret 0) as [->|Hret].
      * destruct (round_zero_file _ _ _ _ Hrun) as [content ->].
        exists [(k, 0)]. cbn [search]. rewrite Hrun. cbn [Z.eqb].
        assert (Hscan : scan (k :: ks) [(k, 0)]) by constructor.
        destruct (reopen_ok e) eqn:Hre.
        -- destruct (outfile a) as [o|] eqn:Ho; [destruct (outfile_ok e) eqn:Hok |].
           ++ cbn [trace status died]. rewrite rounds_of_app, reported_app, Hr, Hp.
              cbn [rounds_of reported]. rewrite app_nil_r.
              split; [reflexivity |]. right. left.
              exists [], k. split; [reflexivity |]. split; [exact Hscan |].
              split; [constructor |]. left. auto 10.
           ++ cbn [die trace status died]. rewrite Hr, Hp.
              split; [reflexivity |]. right. left.
              exists [], k. split; [reflexivity |]. split; [exact Hscan |].
              split; [constructor |]. right.
              split; [right; split; [discriminate | reflexivity] |].
              split; [reflexivity |]. split; [discriminate | reflexivity].
           ++ cbn [trace status died]. rewrite rounds_of_app, reported_app, Hr, Hp.
              cbn [rounds_of reported]. rewrite app_nil_r.
              split; [reflexivity |]. right. left.
              exists [], k. split; [reflexivity |]. split; [exact Hscan |].
              split; [constructor |]. left. auto 10.
        -- cbn [die trace status died]. rewrite Hr, Hp.
           split; [reflexivity |]. right. left.
           exists [], k. split; [reflexivity |]. split; [exact Hscan |].
           split; [constructor |]. right.
           split; [left; reflexivity |].
           split; [reflexivity |]. split; [discriminate | reflexivity].
      * rewrite (search_advance a e k ks tmp tmp' tr ret log Hrun Hret).
        destruct (IH tmp' (tr ++ map Log log ++ [Round k ret]) Hp)
          as (rs & Hrs & Hend).
        exists ((k, ret) :: rs). split.
        { rewrite Hrs, Hr, <- app_assoc. reflexivity. }
        destruct Hend as [(Hscan & Hall & Hend)
                         |[(pre & k0 & -> & Hscan & Hall & Hend)
                          |(k0 & Hscan & Hall & Hend)]].
        -- left. split; [constructor; assumption |].
           split; [constructor; [exact Hret | exact Hall] | exact Hend].
        -- right. left. exists ((k, ret) :: pre), k0.
           split; [reflexivity |].
           split; [constructor; assumption |].
           split; [constructor; [exact Hret | exact Hall] | exact Hend].
        -- right. right. exists k0.
           split; [constructor; assumption |].
           split; [constructor; [exact Hret | exact Hall] | exact Hend].
    + rewrite (search_killed a e k ks tmp tmp' tr log Hrun).
      exists []. cbn [trace status died].
      rewrite !rounds_of_app, !reported_app, Hrep, rounds_of_log, reported_log.
      cbn [rounds_of reported app].
      split; [reflexivity |]. right. right. exists k.
      split; [constructor |]. split; [constructor |].
      repeat split. apply in_or_app. right. apply in_or_app. right.
      left. reflexivity.
Qed.

Section WellBehaved.
Variables (a : args) (e : env).
Hypothesis Hlaunch : forall k, launches (rounds e k).

(** No value of [ks] is satisfiable: every round is run and the search
    fails. *)
Lemma search_exhausted (ks : list Z) : forall tmp tr,
  (forall k, In k ks -> verdict (rounds e k) = false) ->
  search a e ks tmp tr
  = mkOutcome EXIT_FAILURE None None
      (tr ++ map (fun k => Round k (-1)) ks ++ [Removed]).
Proof.
  induction ks as [|k ks IH]; intros tmp tr H.
  - reflexivity.
  - rewrite (search_advance a e k ks tmp (Some (solver_output (rounds e k)))
               tr (-1) []).
    + rewrite IH by (intros; apply H; right; assumption).
      simpl. rewrite <- !app_assoc. reflexivity.
    + rewrite round_launches by apply Hlaunch.
      rewrite H by (left; reflexivity). reflexivity.
    + discriminate.
Qed.

Hypothesis Hreopen : reopen_ok e = true.
Hypothesis Hout : outfile a = None \/ outfile_ok e = true.

(** The first satisfiable value is reported and ends the search. *)
Lemma search_found (pre : list Z) (k0 : Z) (post : list Z) : forall tmp tr,
  (forall k, In k pre -> verdict (rounds e k) = false) ->
  verdict (rounds e k0) = true ->
  search a e (pre ++ k0 :: post) tmp tr
  = mkOutcome EXIT_SUCCESS None None
      (tr ++ map (fun k => Round k (-1)) pre
          ++ [Round k0 0;
              Report k0 (solver_output (rounds e k0)) (outfile a);
              Removed]).
Proof.
  induction pre as [|k pre IH]; intros tmp tr H H0.
  - cbn [app search map]. rewrite round_launches by apply Hlaunch.
    rewrite H0. cbn [Z.eqb]. rewrite Hreopen. simpl app.
    destruct (outfile a) as [o|] eqn:Ho.
    + destruct Hout as [Hn|Hok]; [discriminate |].
      rewrite Hok. rewrite <- app_assoc. reflexivity.
    + rewrite <- app_assoc. reflexivity.
  - cbn [app].
    rewrite (search_advance a e k _ tmp (Some (solver_output (rounds e k)))
               tr (-1) []).
    + rewrite IH by (auto; intros; apply H; right; assumption).
      simpl. rewrite <- !app_assoc. reflexivity.
    + rewrite round_launches by apply Hlaunch.
      rewrite H by (left; reflexivity). reflexivity.
    + discriminate.
Qed.

End WellBehaved.

End Search.

(* ================================================================== *)
(** * The result file *)

Section ResultFile.
Import Driver.

Lemma removed_not_logged (log : list diag) : ~ In Removed (map Log log).
Proof.
  intros H. apply in_map_iff in H. destruct H as (d & Hd & _). discriminate.
Qed.

(** How the search ends, from a state in which the result file exists:
    either it ends normally and the last thing it does is to remove the
    file; or it is ended inside the loop by a file that cannot be opened,
    and the result file stays; or the driver is ended by SIGPIPE inside a
    round, and the result file stays as well. *)
Lemma search_ends (a : args) (e : env) (ks : list Z) : forall tmp tr,
  tmp <> None ->
  exists tr2, trace (search a e ks tmp tr) = tr ++ tr2 /\
    ((died (search a e ks tmp tr) = None /\
      status (search a e ks tmp tr) <> SIGNALED /\
      tmpfile (search a e ks tmp tr) = None /\
      exists tr3, tr2 = tr3 ++ [Removed] /\ ~ In Removed tr3) \/
     (exists d, died (search a e ks tmp tr) = Some d /\
        (d = OpenResultFailed \/ d = OpenOutputFailed) /\
        status (search a e ks tmp tr) = EXIT_FAILURE /\
        tmpfile (search a e ks tmp tr) <> None /\
        ~ In Removed tr2) \/
     (status (search a e ks tmp tr) = SIGNALED /\
      died (search a e ks tmp tr) = None /\
      tmpfile (search a e ks tmp tr) <> None /\
      ~ In Removed tr2)).
Proof.
  induction ks as [|k ks IH]; intros tmp tr Htmp.
  - exists [Removed]. simpl. split; [reflexivity |]. left.
    split; [reflexivity |]. split; [discriminate |]. split; [reflexivity |].
    exists []. split; [reflexivity | intros []].
  - cbn [search].
    assert (Hkeep := round_keeps_file (rounds e k) tmp Htmp).
    destruct (run_color_minisat (rounds e k) tmp) as [[re tmp'] log].
    cbn [fst snd] in Hkeep.
    destruct re as [ret|].
    2: { exists (map Log log ++ [Signal k]). cbn [trace status died tmpfile].
         split; [reflexivity |]. right. right.
         split; [reflexivity |]. split; [reflexivity |].
         split; [exact Hkeep |].
         intros H. apply in_app_or in H. destruct H as [H|[H|[]]].
         - exact (removed_not_logged log H).
         - discriminate. }
    assert (Hlog : ~ In Removed (map Log log ++ [Round k ret])).
    { intros H. apply in_app_or in H. destruct H as [H|[H|[]]].
      - exact (removed_not_logged log H).
      - discriminate. }
    destruct (ret =? 0).
    + destruct (if reopen_ok e then tmp' else None) as [content|].
      * destruct (outfile a) as [o|].
        -- destruct (outfile_ok e).
           ++ eexists. cbn [trace died tmpfile status]. split.
              { rewrite <- app_assoc. reflexivity. }
              left. split; [reflexivity |]. split; [discriminate |].
              split; [reflexivity |].
              exists ((map Log log ++ [Round k ret])
                        ++ [Report k content (Some o)]).
              split; [rewrite <- !app_assoc; reflexivity |].
              intros H. apply in_app_or in H. destruct H as [H|[H|[]]].
              ** exact (Hlog H).
              ** discriminate.
           ++ exists (map Log log ++ [Round k ret]).
              cbn [die trace died tmpfile status]. split; [reflexivity |].
              right. left. exists OpenOutputFailed. auto 10.
        -- eexists. cbn [trace died tmpfile status]. split.
           { rewrite <- app_assoc. reflexivity. }
           left. split; [reflexivity |]. split; [discriminate |].
           split; [reflexivity |].
           exists ((map Log log ++ [Round k ret]) ++ [Report k content None]).
           split; [rewrite <- !app_assoc; reflexivity |].
           intros H. apply in_app_or in H. destruct H as [H|[H|[]]].
           ++ exact (Hlog H).
           ++ discriminate.
      * exists (map Log log ++ [Round k ret]).
        cbn [die trace died tmpfile status]. split; [reflexivity |].
        right. left. exists OpenResultFailed. auto 10.
    + destruct (IH tmp' (tr ++ map Log log ++ [Round k ret]) Hkeep)
        as (tr2 & Htr & Hend).
      exists ((map Log log ++ [Round k ret]) ++ tr2). split.
      { rewrite Htr. rewrite <- !app_assoc. reflexivity. }
      destruct Hend as [(Hd & Hst & Hf & tr3 & -> & Hno)
                       |[(d & Hd & Hwhich & Hs & Hf & Hno)
                        |(Hs & Hd & Hf & Hno)]].
      * left. repeat split; auto.
        exists ((map Log log ++ [Round k ret]) ++ tr3). split.
        { rewrite <- !app_assoc. reflexivity. }
        intros H. apply in_app_or in H. destruct H; auto.
      * right. left. exists d. repeat split; auto.
        intros H. apply in_app_or in H. destruct H; auto.
      * right. right. repeat split; auto.
        intros H. apply in_app_or in H. destruct H; auto.
Qed.

End ResultFile.

(* ================================================================== *)
(** * Properties of the encoder *)

Section EncoderProperties.
Import Color2sat Spec Examples.

(** What [main] prints for a graph whose endpoints are vertices is
    satisfiable exactly when the graph can be colored with [k] colors. *)
Lemma main_satisfiable_iff_colorable (f karg : string) (file : option string)
  (out : list line) (log : list diag) (g : Graph) (k : Z) :
  main [f; karg] file = Ok out log ->
  read_graph file = Ok g log -> parse_k karg = Some k ->
  Forall (fun e => 1 <= fst e <= n g /\ 1 <= snd e <= n g) (edges g) ->
  n g < INT_MAX -> k < INT_MAX ->
  satisfiable (clauses_of out) <-> colorable g k.
Proof.
  intros Hmain Hg Hk Hes Hn Hkmax.
  destruct (main_output f karg file out log Hmain)
    as (g' & k' & Hk' & Hk1 & Hg' & Hn1 & Hm & ->).
  rewrite Hg in Hg'. inversion Hg'; subst g'.
  rewrite Hk in Hk'. inversion Hk'; subst k'.
  assert (Hv : valid_graph g) by (repeat split; auto; lia).
  rewrite encode_clauses by (auto; lia).
  apply families_colorable; assumption.
Qed.

Lemma read_triangle : read_graph (Some triangle_text) = Ok triangle [].
Proof. vm_compute. reflexivity. Qed.

Lemma valid_triangle : valid_graph triangle.
Proof.
  unfold valid_graph, triangle. simpl.
  split; [lia |]. split; [reflexivity |].
  repeat constructor; simpl; lia.
Qed.

(** The triangle: the formula for three colors is satisfiable, the one for
    two colors is not. *)
Lemma triangle_formulas :
  satisfiable (clauses_of (encode triangle 3)) /\
  ~ satisfiable (clauses_of (encode triangle 2)).
Proof.
  assert (H3 : 1 <= 3 <= INT_MAX) by (unfold INT_MAX; lia).
  assert (H2 : 1 <= 2 <= INT_MAX) by (unfold INT_MAX; lia).
  assert (Hn : n triangle <= INT_MAX) by (unfold INT_MAX; simpl; lia).
  rewrite !encode_clauses by (auto using valid_triangle).
  split.
  - apply families_colorable; [exact valid_triangle | lia |].
    exact triangle_colorable_3.
  - intros H. apply families_colorable in H; [| exact valid_triangle | lia].
    exact (triangle_not_colorable_2 H).
Qed.

(** Every literal of the three families is a variable of the convention
    or its negation, when the endpoints of the edges are vertices. *)
Lemma family_literals (g : Graph) (k : Z) (cl : list Z) (l : Z) :
  valid_graph g -> 1 <= k ->
  In cl (coverage_family (n g) k ++ exclusivity_family (n g) k
           ++ adjacency_family (edges g) k) ->
  In l cl -> 1 <= Z.abs l <= n g * k.
Proof.
  intros (Hn & Hm & Hes) Hk Hcl Hl.
  assert (Hidx : forall v c, 1 <= v <= n g -> 1 <= c <= k ->
            1 <= Z.abs (index k v c) <= n g * k /\
            1 <= Z.abs (- index k v c) <= n g * k).
  { intros v c Hv Hc. assert (B := index_range (n g) k v c Hv Hc). lia. }
  apply in_app_or in Hcl. destruct Hcl as [Hcl|Hcl];
    [| apply in_app_or in Hcl; destruct Hcl as [Hcl|Hcl]].
  - apply in_map_iff in Hcl. destruct Hcl as (v & <- & Hv).
    apply in_map_iff in Hl. destruct Hl as (c & <- & Hc).
    apply in_range in Hv. apply in_range in Hc. apply Hidx; assumption.
  - apply in_flat_map in Hcl. destruct Hcl as (v & Hv & Hcl).
    apply in_map_iff in Hcl. destruct Hcl as ([i j] & <- & Hp).
    apply in_range in Hv. apply filter_In in Hp. destruct Hp as [Hp _].
    apply in_prod_iff in Hp. destruct Hp as [Hi Hj].
    apply in_range in Hi. apply in_range in Hj.
    destruct Hl as [<-|[<-|[]]]; apply Hidx; assumption.
  - apply in_flat_map in Hcl. destruct Hcl as ([u w] & He & Hcl).
    apply in_map_iff in Hcl. destruct Hcl as (c & <- & Hc).
    apply in_range in Hc. rewrite Forall_forall in Hes.
    destruct (Hes _ He) as [Hu Hw]. cbn [fst snd] in *.
    destruct Hl as [<-|[<-|[]]]; apply Hidx; assumption.
Qed.

(** C1. For every graph with at least one vertex whose edge endpoints all
    lie in [1, n], and every number of colors k >= 1 (n and k below
    INT_MAX, the values for which the encoder's int counters end their
    loops), the CNF formula that the encoder emits is satisfiable if and
    only if the graph has a proper k-coloring: an assignment of one of k
    colors to each vertex such that no edge joins two vertices of the
    same color. *)
Theorem encoding_satisfiable_iff_colorable (g : Graph) (k : Z) :
  valid_graph g -> n g < INT_MAX -> 1 <= k < INT_MAX ->
  satisfiable (clauses_of (encode g k)) <-> colorable g k.
Proof.
  intros Hg Hn Hk.
  rewrite encode_clauses by (auto; lia).
  apply families_colorable; [exact Hg | lia].
Qed.

Lemma encoding_satisfiable_iff_colorable_witness :
  valid_graph triangle /\ n triangle < INT_MAX /\ 1 <= 3 < INT_MAX /\
  (satisfiable (clauses_of (encode triangle 3)) <-> colorable triangle 3).
Proof.
  split; [exact valid_triangle |].
  split; [unfold INT_MAX; simpl; lia |].
  split; [unfold INT_MAX; lia |].
  apply (encoding_satisfiable_iff_colorable triangle 3).
  - exact valid_triangle.
  - unfold INT_MAX. simpl. lia.
  - unfold INT_MAX. lia.
Defined.

(** X17. For every graph model with n >= 1 vertices, m recorded edges
    and endpoints in [1, n], and every k >= 1 (n and k below INT_MAX), the
    encoder emits, after the comment and the header line, exactly three
    families of clauses in the order coverage, exclusivity, adjacency: for
    each vertex v in 1..n the clause of the k positive literals
    (v-1)*k+1 .. (v-1)*k+k; then for each vertex v and each pair of colors
    1 <= i < j <= k the clause of -((v-1)*k+i) and -((v-1)*k+j); then for
    each edge (u, w) and each color c in 1..k the clause of -((u-1)*k+c)
    and -((w-1)*k+c).  The number of clauses emitted is
    n + n*k*(k-1)/2 + m*k, and it is the clause count of the header line
    when m is at most INT_MAX and the product n*k*(k-1) fits a long
    long. *)
Theorem encoder_three_families (g : Graph) (k : Z) :
  valid_graph g -> n g < INT_MAX -> 1 <= k < INT_MAX ->
  encode g k
  = Comment k (n g) (m g)
      :: Problem (num_vars g k) (num_clauses g k)
      :: map Clause (coverage_family (n g) k ++ exclusivity_family (n g) k
                       ++ adjacency_family (edges g) k)
  /\ Z.of_nat (List.length (clauses_of (encode g k)))
     = n g + n g * k * (k - 1) / 2 + m g * k
  /\ (m g <= INT_MAX -> n g * k * (k - 1) <= LONG_MAX ->
      header_of (encode g k)
      = Some (num_vars g k, n g + n g * k * (k - 1) / 2 + m g * k)).
Proof.
  intros Hg Hn Hk. split; [| split].
  - unfold encode. rewrite !map_app.
    rewrite coverage_spec, exclusivity_spec, adjacency_spec by (auto; lia).
    reflexivity.
  - apply length_clauses; auto; lia.
  - intros Hm Hfit. unfold encode. cbn [header_of].
    destruct Hg as (Hn1 & Hmm & _).
    rewrite num_clauses_exact by lia. reflexivity.
Qed.

Lemma encoder_three_families_witness :
  valid_graph triangle /\
  encode triangle 3
  = Comment 3 3 3 :: Problem 9 21
      :: map Clause (coverage_family 3 3 ++ exclusivity_family 3 3
                       ++ adjacency_family [(1, 2); (2, 3); (1, 3)] 3)
  /\ Z.of_nat (List.length (clauses_of (encode triangle 3))) = 21
  /\ header_of (encode triangle 3) = Some (9, 21).
Proof.
  split; [exact valid_triangle |].
  destruct (encoder_three_families triangle 3 valid_triangle)
    as (H1 & H2 & H3).
  - vm_compute. reflexivity.
  - vm_compute. split; [discriminate | reflexivity].
  - split; [reflexivity |]. split; [exact H2 |].
    apply H3; vm_compute; discriminate.
Defined.

End EncoderProperties.

(* ================================================================== *)
(** * Properties of the header and of the variables *)

Section HeaderProperties.
Import Scan Color2sat Spec Examples.

(** C6. The variable count of the header is not n*k for every graph
    model and k: it is the product reduced to a 32-bit int.  For the
    graph of 2^30 vertices without edges and k = 2 the header declares
    -2147483648 variables, whereas n*k = 2147483648 and the clause count,
    2147483648, is exact.  The clause count is not exact for all inputs
    either: for 2500000 vertices and k = 2500000 the product n*k*(k-1)
    leaves the 64-bit range before it is halved, though the number of
    clauses, 7812496875002500000, is within it. *)
Theorem header_counts_at_large_inputs :
  read_graph (Some (unlines ["p edge 1073741824 0"%string]))
    = Ok big_graph [] /\
  valid_graph big_graph /\
  n big_graph * 2 = 2147483648 /\
  header_of (encode big_graph 2) = Some (-2147483648, 2147483648) /\
  n big_graph + n big_graph * 2 * (2 - 1) / 2 + m big_graph * 2
    = 2147483648 /\
  num_clauses wide_graph 2500000 = -1410875161852275808 /\
  n wide_graph + n wide_graph * 2500000 * (2500000 - 1) / 2
    + m wide_graph * 2500000 = 7812496875002500000.
Proof.
  split; [vm_compute; reflexivity |].
  split.
  { unfold valid_graph, big_graph. simpl.
    split; [lia |]. split; [reflexivity | constructor]. }
  split; [reflexivity |].
  split.
  { unfold encode. cbn [header_of]. vm_compute. reflexivity. }
  split; [reflexivity |].
  split; vm_compute; reflexivity.
Qed.

(** C2. The number of clauses emitted is not the clause count of the
    header line for every graph model and k.  For the graph of 2500000
    vertices without edges and k = 2500000, within the range of the
    encoder's loops, the clauses emitted are the three families in their
    order and their number is n + n*k*(k-1)/2 + m*k =
    7812496875002500000, as claimed, but the header line prints
    -1410875161852275808 as their count: the product n*k*(k-1) leaves the
    64-bit range before it is halved. *)
Theorem header_count_not_clauses_emitted :
  valid_graph wide_graph /\ n wide_graph < INT_MAX /\
  1 <= 2500000 < INT_MAX /\
  clauses_of (encode wide_graph 2500000)
  = coverage_family (n wide_graph) 2500000
      ++ exclusivity_family (n wide_graph) 2500000
      ++ adjacency_family (edges wide_graph) 2500000 /\
  Z.of_nat (List.length (clauses_of (encode wide_graph 2500000)))
  = n wide_graph + n wide_graph * 2500000 * (2500000 - 1) / 2
    + m wide_graph * 2500000 /\
  Z.of_nat (List.length (clauses_of (encode wide_graph 2500000)))
  = 7812496875002500000 /\
  header_of (encode wide_graph 2500000)
  = Some (num_vars wide_graph 2500000, -1410875161852275808).
Proof.
  assert (Hv : valid_graph wide_graph).
  { unfold valid_graph, wide_graph. simpl.
    split; [lia |]. split; [reflexivity | constructor]. }
  assert (Hn : n wide_graph < INT_MAX) by (vm_compute; reflexivity).
  assert (Hk : 1 <= 2500000 < INT_MAX)
    by (split; [discriminate | reflexivity]).
  assert (Hn' : n wide_graph <= INT_MAX) by (vm_compute; discriminate).
  assert (Hk' : 1 <= 2500000 <= INT_MAX)
    by (split; vm_compute; discriminate).
  split; [exact Hv |]. split; [exact Hn |]. split; [exact Hk |].
  split; [exact (encode_clauses wide_graph 2500000 Hv Hn' Hk') |].
  split; [exact (length_clauses wide_graph 2500000 Hv Hn' Hk') |].
  split.
  - rewrite (length_clauses wide_graph 2500000 Hv Hn' Hk').
    vm_compute. reflexivity.
  - unfold encode. cbn [header_of].
    replace (num_clauses wide_graph 2500000) with (-1410875161852275808)
      by (vm_compute; reflexivity).
    reflexivity.
Qed.

(** The first clause of an output is the coverage clause of vertex 1. *)
Lemma first_clause (g : Graph) (k : Z) (cl : list Z) :
  1 <= n g ->
  cl = for_loop 1 k (fun i => [var k 1 i]) ->
  In cl (clauses_of (encode g k)).
Proof.
  intros Hn ->. unfold encode. cbn [clauses_of]. rewrite clauses_of_app.
  apply in_or_app. left.
  unfold coverage, for_loop.
  rewrite (range_cons 1 (n g)) by lia.
  cbn [flat_map app clauses_of]. left. reflexivity.
Qed.

Lemma big_graph_first_clause : In [1; 2] (clauses_of (encode big_graph 2)).
Proof.
  apply first_clause.
  - unfold big_graph. cbn [n]. lia.
  - vm_compute. reflexivity.
Qed.

(** C7, as stated, fails.  The reader accepts an edge whose endpoint is not
    a vertex, and the encoder then emits a literal beyond the declared
    variable count: for "p edge 2 1", "e 1 5" and k = 2 the header
    declares 4 variables and the clause of -1 and -9 is emitted.  And the
    declared count is n*k reduced to an int: for 2^30 vertices and k = 2
    it is -2147483648, below the literal 1 of the first clause. *)
Lemma literal_beyond_declared_count :
  read_graph (Some stray_text) = Ok (mkGraph 2 1 [(1, 5)]) [] /\
  header_of (encode (mkGraph 2 1 [(1, 5)]) 2) = Some (4, 6) /\
  ~ (forall cl l,
       In cl (clauses_of (encode (mkGraph 2 1 [(1, 5)]) 2)) ->
       In l cl -> Z.abs l <= 4) /\
  valid_graph big_graph /\
  num_vars big_graph 2 = -2147483648 /\
  ~ (forall cl l,
       In cl (clauses_of (encode big_graph 2)) ->
       In l cl -> Z.abs l <= num_vars big_graph 2).
Proof.
  split; [vm_compute; reflexivity |].
  split; [vm_compute; reflexivity |].
  split.
  { intros H. specialize (H [-1; -9] (-9)).
    assert (Hle : Z.abs (-9) <= 4).
    { apply H.
      - vm_compute. do 4 right. left. reflexivity.
      - right. left. reflexivity. }
    simpl in Hle. lia. }
  split.
  { unfold valid_graph, big_graph. simpl.
    split; [lia |]. split; [reflexivity | constructor]. }
  split; [vm_compute; reflexivity |].
  intros H. specialize (H [1; 2] 1 big_graph_first_clause).
  assert (Hle : Z.abs 1 <= num_vars big_graph 2).
  { apply H. left. reflexivity. }
  replace (num_vars big_graph 2) with (-2147483648) in Hle
    by (vm_compute; reflexivity).
  simpl in Hle. lia.
Qed.

(** C7, amended.  For every n >= 1 and k >= 1 (below INT_MAX) the
    encoder's map (v, c) -> (v-1)*k + c is injective on [1,n] x [1,k] and
    its values lie within [1, n*k]; hence, for a graph whose edge
    endpoints lie in [1, n], the absolute value of every literal of every
    emitted clause lies within [1, n*k], which is the declared variable
    count whenever n*k fits an int. *)
Theorem variable_index_bounds (g : Graph) (k : Z) :
  valid_graph g -> n g < INT_MAX -> 1 <= k < INT_MAX ->
  (forall v c v' c',
     1 <= v <= n g -> 1 <= c <= k -> 1 <= v' <= n g -> 1 <= c' <= k ->
     var k v c = var k v' c' -> v = v' /\ c = c') /\
  (forall v c,
     1 <= v <= n g -> 1 <= c <= k ->
     var k v c = (v - 1) * k + c /\ 1 <= var k v c <= n g * k) /\
  (forall cl l,
     In cl (clauses_of (encode g k)) -> In l cl ->
     1 <= Z.abs l <= n g * k) /\
  (n g * k <= INT_MAX -> num_vars g k = n g * k).
Proof.
  intros Hg Hn Hk. split; [| split; [| split]].
  - intros v c v' c' Hv Hc Hv' Hc' H.
    rewrite !var_exact in H by lia.
    apply (index_injective k); assumption.
  - intros v c Hv Hc. rewrite var_exact by lia.
    split; [reflexivity | apply index_range; assumption].
  - intros cl l Hcl Hl. rewrite encode_clauses in Hcl by (auto; lia).
    apply (family_literals g k cl l); auto; lia.
  - intros Hfit. unfold num_vars. destruct Hg as (Hn1 & _).
    assert (Hb := mul_bound (n g) k).
    unfold INT_MAX in *.
    rewrite to_long_id by (unfold LONG_MIN, LONG_MAX; lia).
    apply to_int_id. unfold INT_MIN, INT_MAX. lia.
Qed.

Lemma variable_index_bounds_witness :
  valid_graph triangle /\ n triangle < INT_MAX /\ 1 <= 3 < INT_MAX /\
  (forall cl l,
     In cl (clauses_of (encode triangle 3)) -> In l cl ->
     1 <= Z.abs l <= 9) /\
  num_vars triangle 3 = 9.
Proof.
  assert (Hn : n triangle < INT_MAX) by (unfold INT_MAX; simpl; lia).
  assert (Hk : 1 <= 3 < INT_MAX) by (unfold INT_MAX; lia).
  split; [exact valid_triangle |].
  split; [exact Hn |]. split; [exact Hk |].
  destruct (variable_index_bounds triangle 3 valid_triangle Hn Hk)
    as (_ & _ & Hlit & Hvars).
  split; [exact Hlit |].
  apply Hvars. unfold INT_MAX. simpl. lia.
Defined.

End HeaderProperties.

(* ================================================================== *)
(** * Properties of the reader and of the parsing of k *)

Section ReaderProperties.
Import Scan Color2sat Spec Examples.

(** C5. The reader does not fail on every line after the problem line
    that does not match "e U V": a line that starts with 'e' and does not
    match is passed over while fewer than M edges are recorded.  For
    "p edge 3 1" followed by "e 1" the reader returns the graph without
    edges, with the warning of a short input; for "p edge 3 1", "e x y",
    "e 1 2" it returns the graph with the edge (1, 2) and prints
    nothing. *)
Theorem malformed_edge_line_passed_over :
  sscanf_e (String "e" (String " " (String "1" (String newline EmptyString))))
    = None /\
  read_graph (Some malformed_text)
    = Ok (mkGraph 3 0 []) [EdgeCountWarning 0 1] /\
  read_graph (Some malformed_text2) = Ok (mkGraph 3 1 [(1, 2)]) [].
Proof. repeat split; vm_compute; reflexivity. Qed.

(** C9. If the input ends before M valid edge lines have been read (the
    lines after the problem line all being edge lines, since any other
    line is fatal), the reader does not fail: it returns the graph with
    the edges of the valid lines, its edge count m set to their number,
    and prints the warning that names this number and M. *)
Theorem short_input_warns (text : string) (pre rest : list string)
  (pl : string) (vn vm : Z) :
  fgets_lines 256 text = pre ++ pl :: rest ->
  Forall (fun l => first_is "p" l = false) pre ->
  first_is "p" pl = true ->
  sscanf_p_edge pl = Some (vn, vm) ->
  0 < vn ->
  Forall (fun l => first_is "e" l = true) rest ->
  Z.of_nat (List.length (valid_edges rest)) < vm ->
  read_graph (Some text)
  = Ok (mkGraph vn (Z.of_nat (List.length (valid_edges rest)))
          (valid_edges rest))
       [EdgeCountWarning (Z.of_nat (List.length (valid_edges rest))) vm].
Proof.
  intros Hlines Hpre Hp Hscan Hvn Hrest Hshort.
  unfold read_graph, read_lines. rewrite Hlines.
  rewrite problem_line_skip by exact Hpre.
  cbn [problem_line]. rewrite Hp, Hscan.
  destruct (Z.leb_spec vn 0); [lia |].
  destruct (Z.ltb_spec vm 0); [lia |].
  cbn [orb].
  rewrite edge_lines_short by (auto; lia).
  cbn [Z.add app].
  destruct (Z.eqb_spec (Z.of_nat (List.length (valid_edges rest))) vm);
    [lia | reflexivity].
Qed.

Lemma short_input_warns_witness :
  read_graph (Some short_text)
  = Ok (mkGraph 3 1 [(1, 2)]) [EdgeCountWarning 1 2].
Proof.
  apply (short_input_warns short_text
           [String.append "c two edges declared" (String newline EmptyString)]
           [String.append "e 1 2" (String newline EmptyString)]
           (String.append "p edge 3 2" (String newline EmptyString)) 3 2).
  - vm_compute. reflexivity.
  - repeat constructor.
  - reflexivity.
  - vm_compute. reflexivity.
  - lia.
  - repeat constructor.
  - vm_compute. reflexivity.
Defined.

(** C10. The driver takes the value that strtol finds at the head of the
    argument of -k and only checks that it is positive, whatever follows
    the numeral: an argument with a positive decimal prefix and further
    characters after it, such as "5x", is accepted and its prefix is the
    first k of the search.  The encoder rejects every argument k in
    which characters follow the numeral, as a fatal error, and accepts a
    positive numeral with nothing after it. *)
Theorem k_with_trailing_characters (s : string) (k : Z) (rest : string) :
  strtol s = (k, rest) ->
  (0 < k ->
   Driver.parse_k_override (Some s) = Some k /\ Driver.k_start k = k) /\
  (rest <> EmptyString ->
   Color2sat.parse_k s = None /\
   forall f file, Color2sat.main [f; s] file = Fatal InvalidK) /\
  (rest = EmptyString -> 0 < k -> Color2sat.parse_k s = Some k).
Proof.
  intros Hs. split; [| split].
  - intros Hk. split.
    + unfold Driver.parse_k_override. rewrite Hs. cbn [fst].
      destruct (Z.leb_spec k 0); [lia | reflexivity].
    + unfold Driver.k_start. destruct (Z.ltb_spec 0 k); [reflexivity | lia].
  - intros Hrest.
    assert (Hp : Color2sat.parse_k s = None).
    { unfold parse_k. rewrite Hs.
      destruct rest; [contradiction | reflexivity]. }
    split; [exact Hp |].
    intros f file. unfold main. rewrite Hp. reflexivity.
  - intros -> Hk. unfold parse_k. rewrite Hs.
    destruct (Z.leb_spec k 0); [lia | reflexivity].
Qed.

Lemma k_with_trailing_characters_witness :
  strtol "5x" = (5, "x"%string) /\
  Driver.parse_k_override (Some "5x"%string) = Some 5 /\
  Driver.k_start 5 = 5 /\
  Color2sat.parse_k "5x" = None.
Proof.
  split; [reflexivity |].
  destruct (k_with_trailing_characters "5x" 5 "x" eq_refl) as (H1 & H2 & _).
  destruct H1 as [H1 H1']; [lia |].
  destruct H2 as [H2 _]; [discriminate |].
  auto.
Defined.

End ReaderProperties.

(* ================================================================== *)
(** * Properties of the driver *)

Section DriverProperties.
Import Scan Driver Spec Examples.

Lemma sat_round_launches : launches sat_round.
Proof. repeat split. Qed.

(** C3, as stated, fails: with an override of 5 for a graph of 3 vertices
    in which every k is satisfiable, k = 2 included, no round is run and
    the run ends in failure without a report. *)
Lemma override_above_vertex_count :
  parse_k_override (k_opt override_5) = Some 5 /\
  parse_header three_vertices = Some 3 /\
  verdict (rounds (env_sat three_vertices) 2) = true /\
  main override_5 (env_sat three_vertices)
    = mkOutcome EXIT_FAILURE None None [Created; Removed] /\
  reported (trace (main override_5 (env_sat three_vertices))) <> Some 5.
Proof.
  repeat split; try (vm_compute; reflexivity).
  vm_compute. discriminate.
Qed.

(** No round of a list of rounds that did not return 0 is a round that
    returned 0. *)
Lemma last_round_zero (pre : list (Z * Z)) (k : Z) :
  ~ Forall (fun p : Z * Z => snd p <> 0) (pre ++ [(k, 0)]).
Proof.
  intros H. rewrite Forall_forall in H.
  apply (H (k, 0)); [| reflexivity].
  apply in_or_app. right. left. reflexivity.
Qed.

(** C3, amended.  The search starts at k = 2 by default or at the
    positive override of the caller and scans k upward, one round for
    each k, while k is at most the vertex count n of the header; it goes
    on after a round that returns a value other than 0 and stops at the
    first round that returns 0.  The k of that round is reported, and the
    run ends in success, when the result file can be opened again and the
    output file, if one is named, can be opened; when one of them cannot
    be opened the run ends there by a fatal error, without a report.  A
    round in which the write of the graph raises SIGPIPE ends the driver:
    the scan stops there without a report.  When the start exceeds n no
    round is run and the run ends in failure.  When the system calls of
    the rounds succeed, the reported k is the first k from the start to n
    for which the solver answers SAT, and when there is none every k of
    the range is tried and the run ends in failure without a report. *)
Theorem search_scans_upward (a : args) (e : env) (k_override : Z)
  (buf : string) (max_k : Z) :
  parse_k_override (k_opt a) = Some k_override ->
  graph_buf e = Some buf ->
  parse_header buf = Some max_k ->
  mkstemp_ok e = true ->
  (k_opt a = None -> k_start k_override = 2) /\
  (forall s, k_opt a = Some s ->
     k_start k_override = fst (strtol s) /\ 0 < fst (strtol s)) /\
  (exists rs,
     rounds_of (trace (main a e)) = rs /\
     (status (main a e) <> SIGNALED ->
      scan (range (k_start k_override) max_k) rs) /\
     (status (main a e) = SIGNALED ->
      exists k, scan_killed (range (k_start k_override) max_k) rs k /\
                In (Signal k) (trace (main a e)) /\
                reported (trace (main a e)) = None) /\
     (forall pre k, rs = pre ++ [(k, 0)] ->
        (reopen_ok e = true -> outfile a = None \/ outfile_ok e = true ->
         reported (trace (main a e)) = Some k /\
         status (main a e) = EXIT_SUCCESS) /\
        (reopen_ok e = false \/ (outfile a <> None /\ outfile_ok e = false) ->
         reported (trace (main a e)) = None /\
         status (main a e) = EXIT_FAILURE /\
         died (main a e) <> None)) /\
     (status (main a e) = EXIT_SUCCESS ->
      exists pre k, rs = pre ++ [(k, 0)] /\
        reported (trace (main a e)) = Some k) /\
     (forall k, reported (trace (main a e)) = Some k ->
        status (main a e) = EXIT_SUCCESS /\
        exists pre, rs = pre ++ [(k, 0)])) /\
  (max_k < k_start k_override ->
   main a e = mkOutcome EXIT_FAILURE None None [Created; Removed]) /\
  (reopen_ok e = true ->
   outfile a = None \/ outfile_ok e = true ->
   (forall k, launches (rounds e k)) ->
   (forall k0,
      k_start k_override <= k0 <= max_k ->
      verdict (rounds e k0) = true ->
      (forall k, k_start k_override <= k < k0 ->
         verdict (rounds e k) = false) ->
      tried (trace (main a e)) = range (k_start k_override) k0 /\
      reported (trace (main a e)) = Some k0 /\
      status (main a e) = EXIT_SUCCESS) /\
   ((forall k, k_start k_override <= k <= max_k ->
       verdict (rounds e k) = false) ->
    tried (trace (main a e)) = range (k_start k_override) max_k /\
    reported (trace (main a e)) = None /\
    status (main a e) = EXIT_FAILURE)).
Proof.
  intros Hk Hbuf Hhdr Hmk.
  assert (Hmain : main a e
            = search a e (range (k_start k_override) max_k)
                (Some EmptyString) [Created]).
  { unfold main. rewrite Hk, Hbuf, Hhdr, Hmk. reflexivity. }
  split; [| split; [| split; [| split]]].
  - intros Hnone. rewrite Hnone in Hk. inversion Hk. reflexivity.
  - intros s Hs. rewrite Hs in Hk. unfold parse_k_override in Hk.
    destruct (Z.leb_spec (fst (strtol s)) 0); [discriminate |].
    inversion Hk. unfold k_start.
    destruct (Z.ltb_spec 0 (fst (strtol s))); [auto | lia].
  - rewrite Hmain.
    destruct (search_outcome a e (range (k_start k_override) max_k)
                (Some EmptyString) [Created] eq_refl) as (rs & Hrs & Hend).
    exists rs. split; [exact Hrs |].
    destruct Hend as [(Hscan & Hall & Hst & Hd & Hrep)
                     |[(pre0 & k0 & -> & Hscan & Hall & Hend)
                      |(k0 & Hscan & Hall & Hst & Hd & Hrep & Hin)]].
    + rewrite Hst, Hrep.
      split; [intros _; exact Hscan |]. split; [discriminate |].
      split; [| split; [discriminate | discriminate]].
      intros pre k ->. destruct (last_round_zero pre k Hall).
    + assert (Hlast : forall pre k, pre0 ++ [(k0, 0)] = pre ++ [(k, 0)] ->
                pre = pre0 /\ k = k0).
      { intros pre k H. apply app_inj_tail in H. destruct H as [H1 H2].
        inversion H2. auto. }
      destruct Hend as [(Hre & Hout & Hst & Hd & Hrep)
                       |(Hno & Hst & Hd & Hrep)]; rewrite Hst, Hrep.
      * split; [intros _; exact Hscan |]. split; [discriminate |].
        split; [| split].
        -- intros pre k H. destruct (Hlast pre k H) as [-> ->].
           split; [auto |]. intros [Hf|[Ho Hf]].
           ++ congruence.
           ++ destruct Hout as [Hn|Hok]; [contradiction | congruence].
        -- intros _. exists pre0, k0. auto.
        -- intros k H. inversion H; subst k. split; [reflexivity |].
           exists pre0. reflexivity.
      * split; [intros _; exact Hscan |]. split; [discriminate |].
        split; [| split; [discriminate | discriminate]].
        intros pre k H. destruct (Hlast pre k H) as [-> ->].
        split; [| auto].
        intros Hre Hout. destruct Hno as [Hf|[Ho Hf]].
        -- congruence.
        -- destruct Hout as [Hn|Hok]; [contradiction | congruence].
    + rewrite Hst, Hrep.
      split; [intros H; contradiction |].
      split; [intros _; exists k0; auto |].
      split; [| split; [discriminate | discriminate]].
      intros pre k ->. destruct (last_round_zero pre k Hall).
  - intros Habove. rewrite Hmain, range_empty by lia. reflexivity.
  - intros Hre Hout Hlaunch. split.
    + intros k0 Hk0 Hsat Hfirst. rewrite Hmain.
      rewrite (range_split (k_start k_override) (k0 - 1) max_k) by lia.
      replace (k0 - 1 + 1) with k0 by lia.
      rewrite (range_cons k0 max_k) by lia.
      rewrite search_found; auto.
      * cbn [trace status]. rewrite tried_app, reported_app.
        cbn [tried reported].
        rewrite tried_app, reported_app, tried_rounds, reported_rounds.
        cbn [tried reported].
        rewrite (range_split (k_start k_override) (k0 - 1) k0) by lia.
        replace (k0 - 1 + 1) with k0 by lia.
        rewrite (range_cons k0 k0), (range_empty (k0 + 1) k0) by lia.
        auto.
      * intros k Hin. apply in_range in Hin. apply Hfirst. lia.
    + intros Hno. rewrite Hmain.
      rewrite search_exhausted
        by (auto; intros k Hin; apply Hno, in_range, Hin).
      cbn [trace status]. rewrite tried_app, reported_app. cbn [tried reported].
      rewrite tried_app, reported_app, tried_rounds, reported_rounds.
      cbn [tried reported]. rewrite app_nil_r. auto.
Qed.

Lemma search_scans_upward_witness :
  parse_k_override (k_opt override_5) = Some 5 /\
  parse_header five_vertices = Some 5 /\
  verdict (rounds (env_sat five_vertices) 2) = true /\
  tried (trace (main override_5 (env_sat five_vertices))) = [5] /\
  reported (trace (main override_5 (env_sat five_vertices))) = Some 5 /\
  status (main override_5 (env_sat five_vertices)) = EXIT_SUCCESS /\
  rounds_of (trace (main no_options env_no_reopen)) = [(2, 0)] /\
  reported (trace (main no_options env_no_reopen)) = None /\
  status (main no_options env_no_reopen) = EXIT_FAILURE.
Proof.
  assert (Hk : parse_k_override (k_opt override_5) = Some 5) by reflexivity.
  assert (Hh : parse_header five_vertices = Some 5)
    by (vm_compute; reflexivity).
  assert (Hh3 : parse_header three_vertices = Some 3)
    by (vm_compute; reflexivity).
  split; [exact Hk |]. split; [exact Hh |].
  split; [vm_compute; reflexivity |].
  destruct (search_scans_upward override_5 (env_sat five_vertices) 5
              five_vertices 5 Hk eq_refl Hh eq_refl)
    as (_ & _ & _ & _ & Hwell).
  destruct (Hwell eq_refl (or_introl eq_refl) (fun _ => sat_round_launches))
    as (Hfound & _).
  destruct (Hfound 5) as (H1 & H2 & H3).
  - vm_compute. split; discriminate.
  - vm_compute. reflexivity.
  - intros k Hr. change (k_start 5) with 5 in Hr. lia.
  - split; [exact H1 |]. split; [exact H2 |]. split; [exact H3 |].
    destruct (search_scans_upward no_options env_no_reopen 0
                three_vertices 3 eq_refl eq_refl Hh3 eq_refl)
      as (_ & _ & (rs & Hrs & _ & _ & Hlast & _) & _).
    assert (Hrounds : rounds_of (trace (main no_options env_no_reopen))
                      = [(2, 0)]) by (vm_compute; reflexivity).
    split; [exact Hrounds |].
    rewrite Hrounds in Hrs.
    destruct (Hlast [] 2 (eq_sym Hrs)) as [_ Hfail].
    destruct (Hfail (or_introl eq_refl)) as (Hrep & Hst & _).
    split; [exact Hrep | exact Hst].
Defined.

End DriverProperties.

(* ================================================================== *)
(** * Failures in a round and the result file *)

Section DriverFailures.
Import Scan Driver Spec Examples.

(** C4, as stated, fails: a failure of pipe is not fatal.  With the round
    of k = 2 unable to create its pipes and the round of k = 3
    satisfiable, the run logs the failure, goes on with k = 3 and ends in
    success.  A missing collaborator is not fatal either: when no round
    can execute the solver, each round logs it and returns -1, and the run
    ends by exhaustion of the range; when no round can execute the
    encoder, the round logs it and goes on to the solver, whose result
    decides. *)
Lemma pipe_failure_not_fatal :
  pipe_p2c_ok (rounds env_no_pipe 2) = false /\
  main no_options env_no_pipe
  = mkOutcome EXIT_SUCCESS None None
      [Created; Log PipeFailed; Round 2 (-1); Round 3 0;
       Report 3 (solver_output sat_round) None; Removed] /\
  main no_options env_no_solver
  = mkOutcome EXIT_FAILURE None None
      [Created; Log ChildExecMinisat; Round 2 (-1);
       Log ChildExecMinisat; Round 3 (-1); Removed] /\
  main no_options env_no_encoder
  = mkOutcome EXIT_SUCCESS None None
      [Created; Log ChildExecColor2sat; Round 2 0;
       Report 2 (solver_output no_encoder_round) None; Removed].
Proof.
  split; [reflexivity |].
  split; [vm_compute; reflexivity |].
  split; vm_compute; reflexivity.
Qed.

(** C4, amended.  A failure to create a channel or to launch a process is
    logged and does not end the run.  A pipe that cannot be created logs
    "pipe failed" and a fork that fails logs "fork failed", and the round
    returns -1 at once, the result file untouched.  A solver that cannot
    be executed is logged by its child, leaves the result file empty, and
    the round returns -1.  An encoder that cannot be executed is logged by
    its child and the round goes on to the solver.  Every round that
    returns a value other than 0 returns -1, for such a failure as for a
    result that does not begin with SAT; it counts as "k not satisfiable":
    its diagnostics are recorded and the search goes on with k+1.  The one
    failure inside a round that ends the run is the write of the graph
    raising SIGPIPE, which ends the driver. *)
Theorem launch_failure_advances (a : args) (e : env) (k : Z) (ks : list Z)
  (tmp : file) (tr : list event) :
  (pipe_p2c_ok (rounds e k) = false \/ pipe_c2s_ok (rounds e k) = false ->
   run_color_minisat (rounds e k) tmp = (Returned (-1), tmp, [PipeFailed])) /\
  (pipe_p2c_ok (rounds e k) = true -> pipe_c2s_ok (rounds e k) = true ->
   (fork1_ok (rounds e k) = false ->
    run_color_minisat (rounds e k) tmp = (Returned (-1), tmp, [ForkFailed])) /\
   (fork1_ok (rounds e k) = true ->
    (exec_color2sat_ok (rounds e k) = false ->
     exists re tmp' log,
       run_color_minisat (rounds e k) tmp
       = (re, tmp', ChildExecColor2sat :: log) /\
       (re = Killed <-> write_graph (rounds e k) = Sigpipe)) /\
    (write_graph (rounds e k) <> Sigpipe ->
     (fork2_ok (rounds e k) = false ->
      exists log,
        run_color_minisat (rounds e k) tmp
        = (Returned (-1), tmp, log ++ [ForkFailed])) /\
     (fork2_ok (rounds e k) = true ->
      open_result_ok (rounds e k) = true ->
      exec_minisat_ok (rounds e k) = false ->
      exists log,
        run_color_minisat (rounds e k) tmp
        = (Returned (-1), Some EmptyString, log ++ [ChildExecMinisat])))))
  /\
  (forall ret tmp' log,
     run_color_minisat (rounds e k) tmp = (Returned ret, tmp', log) ->
     ret <> 0 ->
     ret = -1 /\
     search a e (k :: ks) tmp tr
     = search a e ks tmp' (tr ++ map Log log ++ [Round k ret])) /\
  (forall tmp' log,
     run_color_minisat (rounds e k) tmp = (Killed, tmp', log) ->
     write_graph (rounds e k) = Sigpipe /\
     search a e (k :: ks) tmp tr
     = mkOutcome SIGNALED None tmp' (tr ++ map Log log ++ [Signal k])).
Proof.
  set (r := rounds e k).
  split; [| split; [| split]].
  - intros H. unfold run_color_minisat.
    destruct H as [H|H]; rewrite H, ?andb_false_r; reflexivity.
  - intros H1 H2. split.
    + intros H3. unfold run_color_minisat. rewrite H1, H2, H3. reflexivity.
    + intros H3. split.
      * intros Hc. destruct (write_graph r) eqn:Hw.
        -- rewrite round_after_write by (auto; congruence). rewrite Hc, Hw.
           cbv zeta.
           destruct (negb (fork2_ok r)); [eexists _, _, _; split;
             [reflexivity | split; discriminate] |].
           destruct (if negb (open_result_ok r) then _ else _) as [f l3].
           destruct (if fopen_result_ok r then f else None) as [c|];
             [destruct (fgets 32 c) |];
             eexists _, _, _; (split; [reflexivity | split; discriminate]).
        -- rewrite round_after_write by (auto; congruence). rewrite Hc, Hw.
           cbv zeta.
           destruct (negb (fork2_ok r)); [eexists _, _, _; split;
             [reflexivity | split; discriminate] |].
           destruct (if negb (open_result_ok r) then _ else _) as [f l3].
           destruct (if fopen_result_ok r then f else None) as [c|];
             [destruct (fgets 32 c) |];
             eexists _, _, _; (split; [reflexivity | split; discriminate]).
        -- unfold run_color_minisat. rewrite H1, H2, H3, Hc, Hw.
           exists Killed, tmp, []. split; [reflexivity | split; reflexivity].
      * intros Hw. split.
        -- intros H4. rewrite round_after_write by assumption.
           rewrite H4. cbv zeta. cbn [negb].
           eexists. rewrite app_assoc. reflexivity.
        -- intros H4 H5 H6. rewrite round_after_write by assumption.
           rewrite H4, H5, H6. cbv zeta. cbn [negb].
           exists ((if exec_color2sat_ok r then [] else [ChildExecColor2sat])
                     ++ match write_graph r with
                        | WriteError => [WriteFailed]
                        | _ => []
                        end).
           rewrite <- app_assoc.
           destruct (fopen_result_ok r); reflexivity.
  - intros ret tmp' log Hrun Hret.
    assert (H := round_returns r tmp). rewrite Hrun in H. cbn [fst] in H.
    split.
    + destruct H as [H|[H|H]]; inversion H; [contradiction | reflexivity].
    + apply search_advance; assumption.
  - intros tmp' log Hrun. split.
    + unfold run_color_minisat in Hrun.
      destruct (pipe_p2c_ok r && pipe_c2s_ok r); [| discriminate].
      destruct (fork1_ok r); [| discriminate].
      cbn [negb] in Hrun.
      destruct (write_graph r); [| | reflexivity]; exfalso;
        (destruct (negb (fork2_ok r)); [discriminate |];
         destruct (if negb (open_result_ok r) then _ else _) as [f l3];
         destruct (if fopen_result_ok r then f else None) as [c|];
         [destruct (fgets 32 c) |]; discriminate).
    + apply search_killed. exact Hrun.
Qed.

Lemma launch_failure_advances_witness :
  run_color_minisat (rounds env_no_pipe 2) (Some EmptyString)
    = (Returned (-1), Some EmptyString, [PipeFailed]) /\
  search no_options env_no_pipe [2; 3] (Some EmptyString) [Created]
  = search no_options env_no_pipe [3] (Some EmptyString)
      ([Created] ++ map Log [PipeFailed] ++ [Round 2 (-1)]).
Proof.
  destruct (launch_failure_advances no_options env_no_pipe 2 [3]
              (Some EmptyString) [Created]) as (Hpipe & _ & Hgo & _).
  assert (Hrun := Hpipe (or_introl eq_refl)).
  split; [exact Hrun |].
  apply (Hgo (-1) (Some EmptyString) [PipeFailed] Hrun). discriminate.
Defined.

(** C8. The result file is created before the first iteration, but it is
    not removed on every exit path: with a satisfiable round and an
    output file that cannot be opened, the run is ended by ERROR_EXIT
    inside the loop, before remove(tmpfile) is reached, and the result
    file is left behind. *)
Theorem result_file_left_behind :
  main to_file env_no_output
  = mkOutcome EXIT_FAILURE (Some OpenOutputFailed)
      (Some (solver_output sat_round)) [Created; Round 2 0] /\
  tmpfile (main to_file env_no_output) <> None /\
  ~ In Removed (trace (main to_file env_no_output)).
Proof.
  split; [vm_compute; reflexivity |].
  split; [vm_compute; discriminate |].
  vm_compute. intros [H|[H|[]]]; discriminate.
Qed.

(** The life of the result file in every run.  It is created before the
    first iteration of the search, and it is removed when the run ends by
    success or by exhaustion of the range of k, the removal being the
    last thing the run does.  A run ended by a fatal error inside the loop
    (the result file or the output file cannot be opened) leaves the
    result file behind, and so does a run ended by SIGPIPE inside a
    round; a run ended by a fatal error before the loop has not created
    it. *)
Lemma result_file_lifecycle (a : args) (e : env) :
  (forall pre k ret post,
     trace (main a e) = pre ++ Round k ret :: post -> In Created pre) /\
  (died (main a e) = None -> status (main a e) <> SIGNALED ->
   tmpfile (main a e) = None /\
   exists tr, trace (main a e) = Created :: tr ++ [Removed] /\
              ~ In Removed tr) /\
  (forall d, died (main a e) = Some d ->
     d <> OpenResultFailed -> d <> OpenOutputFailed ->
     trace (main a e) = [] /\ tmpfile (main a e) = None) /\
  (forall d, died (main a e) = Some d ->
     d = OpenResultFailed \/ d = OpenOutputFailed ->
     In Created (trace (main a e)) /\
     tmpfile (main a e) <> None /\
     ~ In Removed (trace (main a e))) /\
  (status (main a e) = SIGNALED ->
   In Created (trace (main a e)) /\
   tmpfile (main a e) <> None /\
   ~ In Removed (trace (main a e))).
Proof.
  assert (Hearly : forall d,
            d <> OpenResultFailed -> d <> OpenOutputFailed ->
            (forall pre k ret post,
               trace (die d None []) = pre ++ Round k ret :: post ->
               In Created pre) /\
            (died (die d None []) = None ->
             status (die d None []) <> SIGNALED ->
             tmpfile (die d None []) = None /\
             exists tr, trace (die d None []) = Created :: tr ++ [Removed] /\
                        ~ In Removed tr) /\
            (forall d', died (die d None []) = Some d' ->
               d' <> OpenResultFailed -> d' <> OpenOutputFailed ->
               trace (die d None []) = [] /\ tmpfile (die d None []) = None) /\
            (forall d', died (die d None []) = Some d' ->
               d' = OpenResultFailed \/ d' = OpenOutputFailed ->
               In Created (trace (die d None [])) /\
               tmpfile (die d None []) <> None /\
               ~ In Removed (trace (die d None []))) /\
            (status (die d None []) = SIGNALED ->
             In Created (trace (die d None [])) /\
             tmpfile (die d None []) <> None /\
             ~ In Removed (trace (die d None [])))).
  { intros d Hn1 Hn2. cbn [die trace died tmpfile status].
    split; [| split; [| split; [| split]]].
    - intros pre k ret post H. destruct pre; discriminate.
    - discriminate.
    - auto.
    - intros d' H Hw. inversion H. subst d'. destruct Hw; contradiction.
    - discriminate. }
  unfold main.
  destruct (parse_k_override (k_opt a)) as [k_override|];
    [| apply Hearly; discriminate].
  destruct (graph_buf e) as [buf|]; [| apply Hearly; discriminate].
  destruct (parse_header buf) as [max_k|]; [| apply Hearly; discriminate].
  destruct (mkstemp_ok e); [| apply Hearly; discriminate].
  set (ks := range (k_start k_override) max_k).
  destruct (search_ends a e ks (Some EmptyString) [Created])
    as (tr2 & Htr & Hend); [discriminate |].
  rewrite Htr. cbn [app].
  split; [| split; [| split; [| split]]].
  - intros pre k ret post H. destruct pre as [|ev pre]; simpl in H.
    + discriminate.
    + inversion H. left. reflexivity.
  - intros Hd Hst.
    destruct Hend as [(_ & _ & Hf & tr3 & -> & Hno)
                     |[(d & Hd' & _)|(Hs & _)]];
      [| congruence | contradiction].
    split; [exact Hf |]. exists tr3. auto.
  - intros d Hd Hn1 Hn2.
    destruct Hend as [(Hd' & _)|[(d' & Hd' & Hw & _)|(_ & Hd' & _)]];
      [congruence | | congruence].
    rewrite Hd in Hd'. inversion Hd'. subst d'. destruct Hw; contradiction.
  - intros d Hd Hw.
    destruct Hend as [(Hd' & _)
                     |[(d' & Hd' & _ & _ & Hf & Hno)|(_ & Hd' & _)]];
      [congruence | | congruence].
    split; [left; reflexivity |]. split; [exact Hf |].
    intros [H|H]; [discriminate | exact (Hno H)].
  - intros Hst.
    destruct Hend as [(_ & Hs & _)
                     |[(d' & _ & _ & Hs & _)|(_ & _ & Hf & Hno)]];
      [contradiction | congruence |].
    split; [left; reflexivity |]. split; [exact Hf |].
    intros [H|H]; [discriminate | exact (Hno H)].
Qed.

End DriverFailures.

(* ================================================================== *)
(** * The lines that the reader sees *)

Section TextLines.
Import Scan Lines.

Lemma sapp_nil_r (s : string) : (s ++ EmptyString)%string = s.
Proof. induction s as [|c s IH]; simpl; congruence. Qed.

Lemma sapp_assoc (a b c : string) :
  ((a ++ b) ++ c)%string = (a ++ (b ++ c))%string.
Proof. induction a as [|x a IH]; simpl; congruence. Qed.

Lemma slength_app (a b : string) :
  String.length (a ++ b) = (String.length a + String.length b)%nat.
Proof. induction a as [|x a IH]; simpl; congruence. Qed.

Lemma snoc_app (cur : string) (c : ascii) (r : string) :
  (snoc cur c ++ r)%string = (cur ++ String c r)%string.
Proof. unfold snoc. rewrite sapp_assoc. reflexivity. Qed.

Lemma glue_app (l1 l2 : list string) :
  glue (l1 ++ l2) = (glue l1 ++ glue l2)%string.
Proof.
  induction l1 as [|a l1 IH]; simpl; auto. rewrite IH, sapp_assoc. reflexivity.
Qed.

Lemma ends_line_tail (c : ascii) (r : string) :
  ends_line (String c r) = true -> r <> EmptyString -> ends_line r = true.
Proof.
  destruct r as [|d r]; [contradiction |]. cbn [ends_line]. intros H _.
  apply andb_prop in H. apply H.
Qed.

Lemma ends_line_head (c d : ascii) (r : string) :
  ends_line (String c (String d r)) = true -> Ascii.eqb c newline = false.
Proof.
  cbn [ends_line]. intros H. apply andb_prop in H. destruct H as [H _].
  destruct (Ascii.eqb c newline); [discriminate | reflexivity].
Qed.

Lemma no_newline_snoc (cur : string) (c : ascii) :
  no_newline cur = true -> Ascii.eqb c newline = false ->
  no_newline (snoc cur c) = true.
Proof.
  intros Hcur Hc. induction cur as [|x cur IH]; simpl in *.
  - rewrite Hc. reflexivity.
  - apply andb_prop in Hcur. destruct Hcur as [Hx Hcur].
    rewrite Hx. simpl. apply IH. exact Hcur.
Qed.

Lemma ends_line_snoc (cur : string) :
  no_newline cur = true -> ends_line (snoc cur newline) = true.
Proof.
  induction cur as [|x cur IH]; intros H.
  - reflexivity.
  - simpl in H. apply andb_prop in H. destruct H as [Hx Hcur].
    specialize (IH Hcur). unfold snoc in *.
    change (String x cur ++ String newline EmptyString)%string
      with (String x (cur ++ String newline EmptyString)%string).
    destruct (cur ++ String newline EmptyString)%string as [|y t] eqn:E.
    + destruct cur; discriminate.
    + cbn [ends_line]. cbn [ends_line] in IH. rewrite Hx. exact IH.
Qed.

Lemma slength_snoc (cur : string) (c : ascii) :
  String.length (snoc cur c) = S (String.length cur).
Proof. unfold snoc. rewrite slength_app. simpl. lia. Qed.

(** Nothing of the input is lost or read twice. *)
Lemma fgets_all_glue (room0 : nat) (s : string) : forall room cur,
  glue (fgets_all room0 room cur s) = (cur ++ s)%string.
Proof.
  induction s as [|c r IH]; intros room cur.
  - simpl. destruct cur; simpl; rewrite ?sapp_nil_r; reflexivity.
  - cbn [fgets_all].
    destruct (Ascii.eqb c newline || Nat.leb room 1).
    + cbn [glue fold_right]. fold (glue (fgets_all room0 room0 EmptyString r)).
      rewrite IH. simpl. apply snoc_app.
    + rewrite IH. apply snoc_app.
Qed.

(** A complete line that fits the buffer is one result. *)
Lemma fgets_all_line (room0 : nat) (l : string) : forall room cur t,
  ends_line l = true -> (String.length l <= room)%nat ->
  fgets_all room0 room cur (l ++ t)
  = (cur ++ l)%string :: fgets_all room0 room0 EmptyString t.
Proof.
  induction l as [|c r IH]; intros room cur t Hl Hlen; [discriminate |].
  destruct r as [|d r].
  - cbn [ends_line] in Hl. simpl. rewrite Hl. reflexivity.
  - assert (Hc := ends_line_head c d r Hl).
    assert (Hr := ends_line_tail c (String d r) Hl ltac:(discriminate)).
    change (String c (String d r) ++ t)%string
      with (String c (String d r ++ t)%string).
    cbn [fgets_all]. rewrite Hc. simpl in Hlen.
    destruct (Nat.leb_spec room 1); [lia |]. cbn [orb].
    rewrite IH by (auto; simpl; lia).
    rewrite snoc_app. reflexivity.
Qed.

(** A line that does not end within the buffer is cut when the buffer is
    full. *)
Lemma fgets_all_cut (room0 : nat) (p : string) : forall room cur t,
  no_newline p = true -> String.length p = room -> (1 <= room)%nat ->
  fgets_all room0 room cur (p ++ t)
  = (cur ++ p)%string :: fgets_all room0 room0 EmptyString t.
Proof.
  induction p as [|c r IH]; intros room cur t Hp Hlen Hroom.
  - simpl in Hlen. lia.
  - simpl in Hp. apply andb_prop in Hp. destruct Hp as [Hc Hr].
    apply negb_true_iff in Hc.
    change (String c r ++ t)%string with (String c (r ++ t)%string).
    cbn [fgets_all]. rewrite Hc. simpl in Hlen. cbn [orb].
    destruct (Nat.leb_spec room 1).
    + assert (r = EmptyString) by (destruct r; [reflexivity | simpl in Hlen; lia]).
      subst r. reflexivity.
    + rewrite IH by (auto; lia). rewrite snoc_app. reflexivity.
Qed.

(** Every result is not empty, fits the buffer, and has no newline but at
    its end. *)
Lemma fgets_all_shape (room0 : nat) (s : string) : forall room cur,
  (1 <= room)%nat -> (String.length cur + room = room0)%nat ->
  no_newline cur = true ->
  Forall (fun l => (ends_line l = true \/ no_newline l = true) /\
                   (1 <= String.length l <= room0)%nat)
    (fgets_all room0 room cur s).
Proof.
  induction s as [|c r IH]; intros room cur Hroom Hlen Hcur.
  - simpl. destruct cur as [|x cur]; constructor; [| constructor].
    split; [right; exact Hcur | simpl in *; lia].
  - cbn [fgets_all].
    destruct (Ascii.eqb c newline) eqn:Hc.
    + cbn [orb]. constructor.
      * apply Ascii.eqb_eq in Hc. subst c. split.
        -- left. apply ends_line_snoc. exact Hcur.
        -- rewrite slength_snoc. lia.
      * apply IH; simpl; auto; lia.
    + cbn [orb]. destruct (Nat.leb_spec room 1).
      * constructor.
        -- split; [right; apply no_newline_snoc; assumption |].
           rewrite slength_snoc. lia.
        -- apply IH; simpl; auto; lia.
      * apply IH; [lia | rewrite slength_snoc; lia |].
        apply no_newline_snoc; assumption.
Qed.

Lemma fgets_lines_lines (ls : list string) (t : string) :
  Forall (fun l => ends_line l = true /\ (String.length l <= 255)%nat) ls ->
  fgets_lines 256 (glue ls ++ t) = ls ++ fgets_lines 256 t.
Proof.
  unfold fgets_lines. cbn [Nat.sub].
  induction 1 as [|l ls [Hl Hlen] _ IH]; simpl; auto.
  rewrite sapp_assoc, fgets_all_line by assumption.
  simpl. rewrite IH. reflexivity.
Qed.

End TextLines.

(* ================================================================== *)
(** * Scanning a line and scanning the text from the line on *)

Section ScanAhead.
Import Scan Lines.

Lemma expect_stable (c : ascii) (s r t : string) :
  expect c s = Some r -> expect c (s ++ t) = Some (r ++ t)%string.
Proof.
  destruct s as [|x s]; simpl; [discriminate |].
  destruct (Ascii.eqb x c); [| discriminate].
  intros H. inversion H. reflexivity.
Qed.

Lemma expect_ends (c : ascii) (s r : string) :
  expect c s = Some r -> ends_line s = true -> r <> EmptyString ->
  ends_line r = true.
Proof.
  destruct s as [|x s]; simpl; [discriminate |].
  destruct (Ascii.eqb x c); [| discriminate].
  intros H Hs Hr. inversion H; subst. apply (ends_line_tail x); assumption.
Qed.

Lemma expect_nonempty (c : ascii) (s r : string) :
  expect c s = Some r -> s <> EmptyString.
Proof. destruct s; [discriminate | discriminate]. Qed.

Lemma skip_ws_stable (s t : string) :
  skip_ws s <> EmptyString -> skip_ws (s ++ t) = (skip_ws s ++ t)%string.
Proof.
  induction s as [|c s IH]; simpl; [contradiction |].
  destruct (isspace c); auto.
Qed.

Lemma skip_ws_ends (s : string) :
  ends_line s = true -> skip_ws s <> EmptyString ->
  ends_line (skip_ws s) = true.
Proof.
  induction s as [|c s IH]; intros Hs Hne; [discriminate |].
  cbn [skip_ws] in *. destruct (isspace c); [| exact Hs].
  apply IH; [| exact Hne].
  apply (ends_line_tail c); [exact Hs |].
  intros ->. apply Hne. reflexivity.
Qed.

Lemma skip_ws_nonempty (s : string) :
  skip_ws s <> EmptyString -> s <> EmptyString.
Proof. intros H ->. apply H. reflexivity. Qed.

Lemma newline_not_digit : isdigit newline = false.
Proof. reflexivity. Qed.

(** The digits of a number end within a complete line. *)
Lemma scan_digits_stable (s t : string) : forall acc,
  ends_line s = true ->
  scan_digits acc (s ++ t)
  = (fst (scan_digits acc s), (snd (scan_digits acc s) ++ t)%string) /\
  ends_line (snd (scan_digits acc s)) = true.
Proof.
  induction s as [|c s IH]; intros acc Hs; [discriminate |].
  destruct s as [|d s].
  - cbn [ends_line] in Hs. apply Ascii.eqb_eq in Hs. subst c.
    simpl. auto.
  - assert (Hr := ends_line_tail c (String d s) Hs ltac:(discriminate)).
    change (String c (String d s) ++ t)%string
      with (String c (String d s ++ t)%string).
    cbn [scan_digits]. destruct (isdigit c).
    + apply IH. exact Hr.
    + auto.
Qed.

Lemma scan_number_stable (s t : string) (v : Z) (r : string) :
  ends_line s = true -> scan_number s = Some (v, r) ->
  scan_number (s ++ t) = Some (v, (r ++ t)%string) /\ ends_line r = true.
Proof.
  intros Hs H. destruct s as [|c s]; [discriminate |].
  unfold scan_number in *.
  change (String c s ++ t)%string with (String c (s ++ t)%string).
  destruct (isdigit c) eqn:Hd; [| discriminate].
  change (String c (s ++ t)%string) with (String c s ++ t)%string.
  destruct (scan_digits_stable (String c s) t 0 Hs) as [E Hr].
  rewrite E.
  destruct (scan_digits 0 (String c s)) as [v' r'].
  inversion H; subst. cbn [fst snd] in *. rewrite ?Hd. auto.
Qed.

Lemma scan_number_nonempty (s : string) (v : Z) (r : string) :
  scan_number s = Some (v, r) -> s <> EmptyString.
Proof. destruct s; discriminate. Qed.

Lemma scan_signed_stable (s t : string) (v : Z) (r : string) :
  ends_line s = true -> scan_signed s = Some (v, r) ->
  scan_signed (s ++ t) = Some (v, (r ++ t)%string) /\ ends_line r = true.
Proof.
  intros Hs H. destruct s as [|c s]; [discriminate |].
  change (String c s ++ t)%string with (String c (s ++ t)%string).
  cbn [scan_signed] in *.
  destruct (Ascii.eqb c "-").
  - destruct (scan_number s) as [[v' r']|] eqn:E; [| discriminate].
    inversion H; subst.
    assert (Hs' : ends_line s = true).
    { apply (ends_line_tail c); [exact Hs |].
      exact (scan_number_nonempty _ _ _ E). }
    destruct (scan_number_stable s t v' r Hs' E) as [E' Hr].
    rewrite E'. auto.
  - destruct (Ascii.eqb c "+").
    + assert (Hs' : ends_line s = true).
      { apply (ends_line_tail c); [exact Hs |].
        exact (scan_number_nonempty _ _ _ H). }
      exact (scan_number_stable s t v r Hs' H).
    + change (String c (s ++ t)%string) with (String c s ++ t)%string.
      exact (scan_number_stable (String c s) t v r Hs H).
Qed.

(** A conversion [%d] that succeeds on a complete line gives the same value
    on the line followed by more text, and leaves the rest of the line. *)
Lemma scan_d_stable (s t : string) (v : Z) (r : string) :
  ends_line s = true -> scan_d s = Some (v, r) ->
  scan_d (s ++ t) = Some (v, (r ++ t)%string) /\ ends_line r = true.
Proof.
  intros Hs H. unfold scan_d in *.
  destruct (scan_signed (skip_ws s)) as [[v' r']|] eqn:E; [| discriminate].
  inversion H; subst.
  assert (Hne : skip_ws s <> EmptyString).
  { intros Hn. rewrite Hn in E. discriminate. }
  rewrite skip_ws_stable by exact Hne.
  destruct (scan_signed_stable (skip_ws s) t v' r (skip_ws_ends s Hs Hne) E)
    as [E' Hr].
  rewrite E'. auto.
Qed.

Lemma scan_d_nonempty (s : string) (v : Z) (r : string) :
  scan_d s = Some (v, r) -> skip_ws s <> EmptyString.
Proof.
  unfold scan_d. intros H Hn. rewrite Hn in H. discriminate.
Qed.

(** A problem line that scans as a complete line scans to the same values
    with the rest of the text after it. *)
Lemma sscanf_p_edge_stable (s t : string) (vn vm : Z) :
  ends_line s = true -> sscanf_p_edge s = Some (vn, vm) ->
  sscanf_p_edge (s ++ t) = Some (vn, vm).
Proof.
  intros Hs H. unfold sscanf_p_edge, bind in *.
  destruct (expect "p" s) as [s1|] eqn:E1; [| discriminate].
  rewrite (expect_stable _ _ _ t E1).
  destruct (expect "e" (skip_ws s1)) as [s3|] eqn:E2; [| discriminate].
  assert (N2 := expect_nonempty _ _ _ E2).
  assert (H1 : ends_line s1 = true).
  { apply (expect_ends _ _ _ E1 Hs). exact (skip_ws_nonempty _ N2). }
  assert (H2 := skip_ws_ends s1 H1 N2).
  rewrite skip_ws_stable by exact N2.
  rewrite (expect_stable _ _ _ t E2).
  destruct (expect "d" s3) as [s4|] eqn:E3; [| discriminate].
  assert (H3 : ends_line s3 = true)
    by (apply (expect_ends _ _ _ E2 H2); exact (expect_nonempty _ _ _ E3)).
  rewrite (expect_stable _ _ _ t E3).
  destruct (expect "g" s4) as [s5|] eqn:E4; [| discriminate].
  assert (H4 : ends_line s4 = true)
    by (apply (expect_ends _ _ _ E3 H3); exact (expect_nonempty _ _ _ E4)).
  rewrite (expect_stable _ _ _ t E4).
  destruct (expect "e" s5) as [s6|] eqn:E5; [| discriminate].
  assert (H5 : ends_line s5 = true)
    by (apply (expect_ends _ _ _ E4 H4); exact (expect_nonempty _ _ _ E5)).
  rewrite (expect_stable _ _ _ t E5).
  destruct (scan_d (skip_ws s6)) as [[a s8]|] eqn:E6; [| discriminate].
  assert (N6 : skip_ws s6 <> EmptyString).
  { intros Hn. rewrite Hn in E6. discriminate. }
  assert (H6 : ends_line s6 = true)
    by (apply (expect_ends _ _ _ E5 H5); exact (skip_ws_nonempty _ N6)).
  assert (H7 := skip_ws_ends s6 H6 N6).
  rewrite skip_ws_stable by exact N6.
  destruct (scan_d_stable _ t a s8 H7 E6) as [E6' H8].
  rewrite E6'. cbn [fst snd] in *.
  destruct (scan_d (skip_ws s8)) as [[b s10]|] eqn:E7; [| discriminate].
  assert (N8 : skip_ws s8 <> EmptyString).
  { intros Hn. rewrite Hn in E7. discriminate. }
  assert (H9 := skip_ws_ends s8 H8 N8).
  rewrite skip_ws_stable by exact N8.
  destruct (scan_d_stable _ t b s10 H9 E7) as [E7' _].
  rewrite E7'. exact H.
Qed.

End ScanAhead.

(* ================================================================== *)
(** * Scanning sees the C string *)

Section CStrings.
Import Scan Lines Driver.

(** A text without zero byte is its own C string. *)
Lemma c_str_no_zero (s : string) : no_zero s = true -> c_str s = s.
Proof.
  induction s as [|c s IH]; intros H; [reflexivity |].
  cbn [no_zero c_str] in *. apply andb_prop in H. destruct H as [Hc Hs].
  destruct (Ascii.eqb c zero); [discriminate |]. rewrite IH by exact Hs.
  reflexivity.
Qed.

Lemma c_str_app (s t : string) :
  no_zero s = true -> c_str (s ++ t) = (s ++ c_str t)%string.
Proof.
  induction s as [|c s IH]; intros H; [reflexivity |].
  cbn [no_zero] in H. apply andb_prop in H. destruct H as [Hc Hs].
  change (String c s ++ t)%string with (String c (s ++ t)%string).
  cbn [c_str]. destruct (Ascii.eqb c zero); [discriminate |].
  rewrite IH by exact Hs. reflexivity.
Qed.

Lemma no_zero_app (a b : string) :
  no_zero (a ++ b) = no_zero a && no_zero b.
Proof.
  induction a as [|c a IH]; [reflexivity |].
  change (String c a ++ b)%string with (String c (a ++ b)%string).
  cbn [no_zero]. rewrite IH, andb_assoc. reflexivity.
Qed.

(** The zero byte is matched by no directive: scanning the bytes is
    scanning the C string. *)
Lemma expect_c_str (c : ascii) (s : string) :
  Ascii.eqb zero c = false ->
  expect c (c_str s) = option_map c_str (expect c s).
Proof.
  intros Hc. destruct s as [|x s]; [reflexivity |].
  cbn [c_str]. destruct (Ascii.eqb x zero) eqn:Hx.
  - apply Ascii.eqb_eq in Hx. subst x. cbn [expect]. rewrite Hc.
    reflexivity.
  - cbn [expect]. destruct (Ascii.eqb x c); reflexivity.
Qed.

Lemma skip_ws_c_str (s : string) : skip_ws (c_str s) = c_str (skip_ws s).
Proof.
  induction s as [|x s IH]; [reflexivity |].
  cbn [c_str]. destruct (Ascii.eqb x zero) eqn:Hx.
  - apply Ascii.eqb_eq in Hx. subst x. cbn. reflexivity.
  - cbn [skip_ws]. destruct (isspace x); [exact IH |].
    cbn [c_str]. rewrite Hx. reflexivity.
Qed.

Lemma scan_digits_c_str (s : string) : forall acc,
  scan_digits acc (c_str s)
  = (fst (scan_digits acc s), c_str (snd (scan_digits acc s))).
Proof.
  induction s as [|x s IH]; intros acc; [reflexivity |].
  cbn [c_str]. destruct (Ascii.eqb x zero) eqn:Hx.
  - apply Ascii.eqb_eq in Hx. subst x. cbn. reflexivity.
  - cbn [scan_digits]. destruct (isdigit x); [apply IH |].
    cbn [fst snd c_str]. rewrite Hx. reflexivity.
Qed.

Lemma scan_number_c_str (s : string) :
  scan_number (c_str s)
  = option_map (fun p => (fst p, c_str (snd p))) (scan_number s).
Proof.
  destruct s as [|x s]; [reflexivity |].
  assert (E := scan_digits_c_str (String x s) 0).
  cbn [c_str] in *. destruct (Ascii.eqb x zero) eqn:Hx.
  - apply Ascii.eqb_eq in Hx. subst x. reflexivity.
  - unfold scan_number. destruct (isdigit x); [| reflexivity].
    rewrite E. reflexivity.
Qed.

Lemma scan_signed_c_str (s : string) :
  scan_signed (c_str s)
  = option_map (fun p => (fst p, c_str (snd p))) (scan_signed s).
Proof.
  destruct s as [|x s]; [reflexivity |].
  assert (E := scan_number_c_str (String x s)).
  cbn [c_str] in *. destruct (Ascii.eqb x zero) eqn:Hx.
  - apply Ascii.eqb_eq in Hx. subst x. reflexivity.
  - cbn [scan_signed]. destruct (Ascii.eqb x "-").
    + rewrite scan_number_c_str.
      destruct (scan_number s) as [[v r]|]; reflexivity.
    + destruct (Ascii.eqb x "+"); [apply scan_number_c_str | exact E].
Qed.

Lemma scan_d_c_str (s : string) :
  scan_d (c_str s)
  = option_map (fun p => (fst p, c_str (snd p))) (scan_d s).
Proof.
  unfold scan_d. rewrite skip_ws_c_str, scan_signed_c_str.
  destruct (scan_signed (skip_ws s)) as [[v r]|]; reflexivity.
Qed.

(** [sscanf] with the format of the problem line gives on the bytes of a
    buffer what it gives on the C string in it. *)
Lemma sscanf_p_edge_c_str (s : string) :
  sscanf_p_edge (c_str s) = sscanf_p_edge s.
Proof.
  unfold sscanf_p_edge, bind.
  rewrite expect_c_str by reflexivity.
  destruct (expect "p" s) as [s1|]; [| reflexivity]. cbn [option_map].
  rewrite skip_ws_c_str, expect_c_str by reflexivity.
  destruct (expect "e" (skip_ws s1)) as [s2|]; [| reflexivity].
  cbn [option_map]. rewrite expect_c_str by reflexivity.
  destruct (expect "d" s2) as [s3|]; [| reflexivity].
  cbn [option_map]. rewrite expect_c_str by reflexivity.
  destruct (expect "g" s3) as [s4|]; [| reflexivity].
  cbn [option_map]. rewrite expect_c_str by reflexivity.
  destruct (expect "e" s4) as [s5|]; [| reflexivity].
  cbn [option_map]. rewrite skip_ws_c_str, scan_d_c_str.
  destruct (scan_d (skip_ws s5)) as [[a ra]|]; [| reflexivity].
  cbn [option_map fst snd]. rewrite skip_ws_c_str, scan_d_c_str.
  destruct (scan_d (skip_ws ra)) as [[b rb]|]; reflexivity.
Qed.

(** So does [sscanf] with the format of an edge line. *)
Lemma sscanf_e_c_str (s : string) : sscanf_e (c_str s) = sscanf_e s.
Proof.
  unfold sscanf_e, bind.
  rewrite expect_c_str by reflexivity.
  destruct (expect "e" s) as [s1|]; [| reflexivity]. cbn [option_map].
  rewrite skip_ws_c_str, scan_d_c_str.
  destruct (scan_d (skip_ws s1)) as [[a ra]|]; [| reflexivity].
  cbn [option_map fst snd]. rewrite skip_ws_c_str, scan_d_c_str.
  destruct (scan_d (skip_ws ra)) as [[b rb]|]; reflexivity.
Qed.

(** One step of the walk of [parse_header], at a byte that is not zero. *)
Lemma parse_header_step (bol : bool) (c : ascii) (r : string) :
  Ascii.eqb c zero = false ->
  parse_header_from bol (String c r)
  = if bol && Ascii.eqb c "p" then
      match sscanf_p_edge (String c r) with
      | Some (nn, _) => Some nn
      | None => parse_header_from (Ascii.eqb c newline) r
      end
    else parse_header_from (Ascii.eqb c newline) r.
Proof.
  intros Hc. cbn [parse_header_from]. rewrite Hc.
  rewrite sscanf_p_edge_c_str. reflexivity.
Qed.

End CStrings.

(* ================================================================== *)
(** * The vertex count of the driver and the one of the encoder *)

Section Agreement.
Import Scan Lines Color2sat Driver Examples.

(** Inside a line [parse_header] goes on to the start of the next line. *)
Lemma parse_header_inside (l t : string) :
  ends_line l = true -> no_zero l = true ->
  parse_header_from false (l ++ t) = parse_header_from true t.
Proof.
  induction l as [|c r IH]; intros Hl Hz; [discriminate |].
  cbn [no_zero] in Hz. apply andb_prop in Hz. destruct Hz as [Hc Hz].
  apply negb_true_iff in Hc.
  change (String c r ++ t)%string with (String c (r ++ t)%string).
  rewrite parse_header_step by exact Hc. cbn [andb].
  destruct r as [|d r].
  - cbn [ends_line] in Hl. rewrite Hl. reflexivity.
  - rewrite (ends_line_head c d r Hl). apply IH; [| exact Hz].
    exact (ends_line_tail c (String d r) Hl ltac:(discriminate)).
Qed.

(** A complete line that does not start with 'p' is passed over. *)
Lemma parse_header_skip (l t : string) :
  ends_line l = true -> no_zero l = true -> first_is "p" l = false ->
  parse_header_from true (l ++ t) = parse_header_from true t.
Proof.
  intros Hl Hz Hp. destruct l as [|c r]; [discriminate |].
  simpl in Hp.
  cbn [no_zero] in Hz. apply andb_prop in Hz. destruct Hz as [Hc Hz].
  apply negb_true_iff in Hc.
  change (String c r ++ t)%string with (String c (r ++ t)%string).
  rewrite parse_header_step by exact Hc. cbn [andb]. rewrite Hp.
  destruct r as [|d r].
  - cbn [ends_line] in Hl. rewrite Hl. reflexivity.
  - rewrite (ends_line_head c d r Hl).
    apply parse_header_inside; [| exact Hz].
    exact (ends_line_tail c (String d r) Hl ltac:(discriminate)).
Qed.

Lemma parse_header_skip_all (pre : list string) (t : string) :
  Forall (fun l => first_is "p" l = false /\ ends_line l = true /\
                   no_zero l = true) pre ->
  parse_header_from true (glue pre ++ t) = parse_header_from true t.
Proof.
  induction 1 as [|l pre (Hp & Hl & Hz) _ IH]; simpl; auto.
  rewrite sapp_assoc, parse_header_skip by assumption. exact IH.
Qed.

(** At a complete problem line [parse_header] returns its vertex count. *)
Lemma parse_header_at (pl t : string) (vn vm : Z) :
  first_is "p" pl = true -> ends_line pl = true ->
  sscanf_p_edge pl = Some (vn, vm) ->
  parse_header_from true (pl ++ t) = Some vn.
Proof.
  intros Hp Hl Hs.
  assert (E := sscanf_p_edge_stable pl t vn vm Hl Hs).
  destruct pl as [|c r]; [discriminate |]. simpl in Hp.
  change (String c r ++ t)%string with (String c (r ++ t)%string) in *.
  apply Ascii.eqb_eq in Hp. subst c.
  rewrite parse_header_step by reflexivity. cbn [andb Ascii.eqb].
  change (Ascii.eqb "p" "p") with true. cbn iota. rewrite E. reflexivity.
Qed.

(** The problem line of a graph that the reader returns. *)
Lemma read_lines_header (pre rest : list string) (pl : string)
  (g : Graph) (log : list Color2sat.diag) :
  Forall (fun l => first_is "p" l = false) pre ->
  first_is "p" pl = true ->
  read_lines (pre ++ pl :: rest) = Ok g log ->
  exists vm, sscanf_p_edge pl = Some (n g, vm).
Proof.
  intros Hpre Hp. unfold read_lines.
  rewrite problem_line_skip by exact Hpre.
  cbn [problem_line]. rewrite Hp.
  destruct (sscanf_p_edge pl) as [[vn vm]|]; [| discriminate].
  destruct ((vn <=? 0) || (vm <? 0)); [discriminate |].
  destruct (edge_lines vm 0 [] rest) as [d|[count es]]; [discriminate |].
  destruct (negb (count =? vm)); intros H; inversion H; subst;
    exists vm; reflexivity.
Qed.

End Agreement.

(* ================================================================== *)
(** * Printing a number and scanning it *)

Section Decimal.
Import Scan Lines Pipeline Spec.

Lemma digit_cases (d : Z) :
  0 <= d <= 9 ->
  d = 0 \/ d = 1 \/ d = 2 \/ d = 3 \/ d = 4 \/ d = 5 \/ d = 6 \/ d = 7 \/
  d = 8 \/ d = 9.
Proof. lia. Qed.

Lemma digit_char_digit (d : Z) :
  0 <= d <= 9 ->
  isdigit (digit_char d) = true /\ digit_val (digit_char d) = d /\
  Ascii.eqb (digit_char d) newline = false.
Proof.
  intros H. destruct (digit_cases d H) as [E|[E|[E|[E|[E|[E|[E|[E|[E|E]]]]]]]]];
    subst d; repeat split.
Qed.

Lemma all_digits_app (a b : string) :
  all_digits (a ++ b) = all_digits a && all_digits b.
Proof.
  induction a as [|c a IH]; simpl; auto. rewrite IH, andb_assoc. reflexivity.
Qed.

Lemma mod10_digit (x : Z) : 0 <= x mod 10 <= 9.
Proof. assert (H := Z.mod_pos_bound x 10). lia. Qed.

Lemma utoa_digits (fuel : nat) : forall x, 0 <= x -> all_digits (utoa fuel x) = true.
Proof.
  induction fuel as [|f IH]; intros x Hx; [reflexivity |].
  cbn [utoa]. destruct (Z.ltb_spec x 10).
  - cbn [all_digits]. rewrite (proj1 (digit_char_digit x ltac:(lia))). reflexivity.
  - rewrite all_digits_app, IH by (apply Z.div_pos; lia).
    cbn [all_digits]. rewrite (proj1 (digit_char_digit _ (mod10_digit x))).
    reflexivity.
Qed.

Lemma utoa_nonempty (fuel : nat) (x : Z) : utoa (S fuel) x <> EmptyString.
Proof.
  cbn [utoa]. destruct (x <? 10); [discriminate |].
  destruct (utoa fuel (x / 10)); discriminate.
Qed.

Lemma utoa_length (fuel : nat) : forall x,
  (String.length (utoa fuel x) <= fuel)%nat.
Proof.
  induction fuel as [|f IH]; intros x; [cbn [utoa String.length]; lia |].
  cbn [utoa]. destruct (x <? 10); [cbn [String.length]; lia |].
  rewrite slength_app. cbn [String.length]. specialize (IH (x / 10)). lia.
Qed.

Lemma scan_digits_all (ds : string) : forall acc,
  all_digits ds = true -> snd (scan_digits acc ds) = EmptyString.
Proof.
  induction ds as [|c ds IH]; intros acc H; [reflexivity |].
  simpl in *. apply andb_prop in H. destruct H as [Hc Hds].
  rewrite Hc. apply IH. exact Hds.
Qed.

Lemma scan_digits_snoc (p : string) (d : ascii) : forall acc,
  all_digits p = true -> isdigit d = true ->
  fst (scan_digits acc (p ++ String d EmptyString))
  = 10 * fst (scan_digits acc p) + digit_val d.
Proof.
  induction p as [|c p IH]; intros acc Hp Hd.
  - simpl. rewrite Hd. reflexivity.
  - simpl in *. apply andb_prop in Hp. destruct Hp as [Hc Hp].
    rewrite Hc. apply IH; assumption.
Qed.

(** The numeral printed for [x] has the value [x]. *)
Lemma utoa_value (fuel : nat) : forall x,
  0 <= x < 10 ^ Z.of_nat fuel -> decimal (utoa fuel x) = x.
Proof.
  unfold decimal.
  induction fuel as [|f IH]; intros x Hx.
  - simpl in *. lia.
  - cbn [utoa]. destruct (Z.ltb_spec x 10).
    + destruct (digit_char_digit x ltac:(lia)) as (Hd & Hv & _).
      cbn [scan_digits]. rewrite Hd. cbn [scan_digits fst]. rewrite Hv. lia.
    + destruct (digit_char_digit _ (mod10_digit x)) as (Hd & Hv & _).
      rewrite scan_digits_snoc by (auto; apply utoa_digits, Z.div_pos; lia).
      rewrite Hv, IH.
      * symmetry. apply Z.div_mod. lia.
      * rewrite Nat2Z.inj_succ, Z.pow_succ_r in Hx by lia.
        split; [apply Z.div_pos; lia |].
        apply Z.div_lt_upper_bound; lia.
Qed.

Lemma pow10_20 : 10 ^ Z.of_nat 20 = 100000000000000000000.
Proof. reflexivity. Qed.

Lemma take_all (len : nat) : forall s,
  (String.length s <= len)%nat -> take len s = s.
Proof.
  induction len as [|l IH]; intros [|c s] H; simpl in *; try reflexivity.
  - lia.
  - rewrite IH by lia. reflexivity.
Qed.

(** A conversion [%d] reads an unsigned numeral that something else than a
    digit follows. *)
Lemma scan_d_prefix (ds rest : string) :
  ds <> EmptyString -> all_digits ds = true -> no_digit_ahead rest = true ->
  scan_d (ds ++ rest) = Some (to_int (clamp_long (decimal ds)), rest).
Proof.
  intros Hne Hds Hrest. destruct ds as [|c ds]; [contradiction |].
  assert (Hc : isdigit c = true).
  { simpl in Hds. apply andb_prop in Hds. tauto. }
  unfold scan_d, decimal.
  change (String c ds ++ rest)%string with (String c (ds ++ rest)%string).
  cbn [skip_ws]. rewrite (digit_not_space c Hc).
  unfold scan_signed.
  rewrite (digit_not_char c "-"), (digit_not_char c "+") by auto.
  unfold scan_number. rewrite Hc.
  change (String c (ds ++ rest)%string) with (String c ds ++ rest)%string.
  rewrite scan_digits_prefix by assumption. reflexivity.
Qed.

(** What [snprintf] stores in [ks] is the whole numeral of [k]. *)
Lemma snprintf_ld_positive (k : Z) :
  0 <= k <= LONG_MAX -> snprintf_ld 32 k = utoa 20 k.
Proof.
  intros Hk. unfold snprintf_ld, ltoa.
  destruct (Z.ltb_spec k 0); [lia |].
  change (32 - 1)%nat with 31%nat.
  apply take_all. assert (H' := utoa_length 20 k). lia.
Qed.

(** [strtol] reads back the numeral of a [long] that is not negative. *)
Lemma strtol_utoa (k : Z) :
  0 <= k <= LONG_MAX -> strtol (utoa 20 k) = (k, EmptyString).
Proof.
  intros Hk.
  rewrite <- (sapp_nil_r (utoa 20 k)) at 1.
  rewrite strtol_prefix;
    [| apply utoa_nonempty | apply utoa_digits; lia | reflexivity].
  rewrite utoa_value by (rewrite pow10_20; unfold LONG_MAX in Hk; lia).
  unfold clamp_long, LONG_MIN, LONG_MAX in *. f_equal. lia.
Qed.

End Decimal.

(* ================================================================== *)
(** * More on the reader *)

Section ReaderOutcomes.
Import Scan Lines Color2sat Spec.

(** Without a line that starts with 'p' the counts keep their initial 0. *)
Lemma problem_line_none (lines : list string) :
  Forall (fun l => first_is "p" l = false) lines ->
  problem_line lines = inr (0, 0, []).
Proof.
  induction 1 as [|l lines Hl _ IH]; simpl; auto. rewrite Hl. exact IH.
Qed.

(** Valid edge lines, not more of them than [vm] allows, are all
    recorded. *)
Lemma edge_lines_valid (vm : Z) (lines : list string) : forall count acc,
  Forall (fun l => first_is "e" l = true /\ sscanf_e l <> None) lines ->
  count + Z.of_nat (List.length lines) <= vm ->
  edge_lines vm count acc lines
  = inr (count + Z.of_nat (List.length lines), acc ++ valid_edges lines).
Proof.
  induction lines as [|l rest IH]; intros count acc Hall Hle.
  - simpl. rewrite Z.add_0_r, app_nil_r. reflexivity.
  - inversion Hall as [|? ? [Hl Hs] Hrest]; subst.
    unfold valid_edges in *. cbn [flat_map edge_lines List.length] in *.
    rewrite Hl. destruct (Z.ltb_spec count vm); [| lia].
    cbn [andb].
    destruct (sscanf_e l) as [[u v]|]; [| contradiction].
    rewrite IH by (auto; lia).
    rewrite <- app_assoc. cbn [app]. f_equal. f_equal. lia.
Qed.

Lemma valid_edges_length (lines : list string) :
  Forall (fun l => first_is "e" l = true /\ sscanf_e l <> None) lines ->
  List.length (valid_edges lines) = List.length lines.
Proof.
  induction 1 as [|l rest [_ Hs] _ IH]; [reflexivity |].
  unfold valid_edges in *. cbn [flat_map].
  destruct (sscanf_e l) as [e|]; [| contradiction].
  cbn [app List.length]. rewrite IH. reflexivity.
Qed.

End ReaderOutcomes.

(* ================================================================== *)
(** * Reading the text of a graph *)

Section CanonicalText.
Import Scan Lines Pipeline Color2sat Spec Format.

Lemma no_newline_app (a b : string) :
  no_newline (a ++ b) = no_newline a && no_newline b.
Proof.
  induction a as [|c a IH]; simpl; auto. rewrite IH, andb_assoc. reflexivity.
Qed.

Lemma no_newline_digits (s : string) :
  all_digits s = true -> no_newline s = true.
Proof.
  induction s as [|c s IH]; intros H; [reflexivity |].
  simpl in *. apply andb_prop in H. destruct H as [Hc Hs].
  rewrite (digit_not_char c newline Hc eq_refl). simpl. auto.
Qed.

Lemma with_newline_ends (body : string) :
  no_newline body = true -> ends_line (with_newline body) = true.
Proof. exact (ends_line_snoc body). Qed.

Lemma skip_ws_digits (ds rest : string) :
  ds <> EmptyString -> all_digits ds = true ->
  skip_ws (ds ++ rest) = (ds ++ rest)%string.
Proof.
  intros Hne Hds. destruct ds as [|c ds]; [contradiction |].
  simpl in Hds. apply andb_prop in Hds. destruct Hds as [Hc _].
  simpl. rewrite (digit_not_space c Hc). reflexivity.
Qed.

(** The problem line with two numerals scans to their values. *)
Lemma sscanf_p_edge_numerals (a b : string) :
  a <> EmptyString -> all_digits a = true ->
  b <> EmptyString -> all_digits b = true ->
  sscanf_p_edge ("p edge " ++ a ++ " " ++ with_newline b)
  = Some (to_int (clamp_long (decimal a)), to_int (clamp_long (decimal b))).
Proof.
  intros Ha Hda Hb Hdb. unfold sscanf_p_edge, bind, with_newline. simpl.
  rewrite (skip_ws_digits a) by assumption.
  rewrite (scan_d_prefix a) by (auto; reflexivity).
  simpl.
  rewrite (skip_ws_digits b) by assumption.
  rewrite (scan_d_prefix b) by (auto; reflexivity).
  reflexivity.
Qed.

(** An edge line with two numerals scans to their values. *)
Lemma sscanf_e_numerals (a b : string) :
  a <> EmptyString -> all_digits a = true ->
  b <> EmptyString -> all_digits b = true ->
  sscanf_e ("e " ++ a ++ " " ++ with_newline b)
  = Some (to_int (clamp_long (decimal a)), to_int (clamp_long (decimal b))).
Proof.
  intros Ha Hda Hb Hdb. unfold sscanf_e, bind, with_newline. simpl.
  rewrite (skip_ws_digits a) by assumption.
  rewrite (scan_d_prefix a) by (auto; reflexivity).
  simpl.
  rewrite (skip_ws_digits b) by assumption.
  rewrite (scan_d_prefix b) by (auto; reflexivity).
  reflexivity.
Qed.

Lemma int_numeral (x : Z) :
  0 <= x <= INT_MAX -> to_int (clamp_long (decimal (utoa 20 x))) = x.
Proof.
  intros Hx. unfold INT_MAX in Hx.
  rewrite utoa_value by (rewrite pow10_20; lia).
  unfold clamp_long, LONG_MIN, LONG_MAX.
  rewrite Z.min_r, Z.max_r by lia.
  apply to_int_id. unfold INT_MIN, INT_MAX. lia.
Qed.

Lemma problem_text_line (vn vm : Z) :
  with_newline (problem_text vn vm)
  = ("p edge " ++ utoa 20 vn ++ " " ++ with_newline (utoa 20 vm))%string.
Proof.
  unfold problem_text, with_newline. rewrite !sapp_assoc. reflexivity.
Qed.

Lemma edge_text_line (e : Z * Z) :
  with_newline (edge_text e)
  = ("e " ++ utoa 20 (fst e) ++ " " ++ with_newline (utoa 20 (snd e)))%string.
Proof.
  unfold edge_text, with_newline. rewrite !sapp_assoc. reflexivity.
Qed.

(** A line of two numerals after a short word is a complete line that fits
    the reader's buffer. *)
Lemma numerals_line (word : string) (x y : Z) :
  no_newline word = true -> (String.length word <= 8)%nat ->
  0 <= x -> 0 <= y ->
  ends_line (word ++ utoa 20 x ++ " " ++ with_newline (utoa 20 y)) = true /\
  (String.length (word ++ utoa 20 x ++ " " ++ with_newline (utoa 20 y)) <= 255)%nat.
Proof.
  intros Hw Hlen Hx Hy. split.
  - replace (word ++ utoa 20 x ++ " " ++ with_newline (utoa 20 y))%string
      with (snoc (word ++ utoa 20 x ++ " " ++ utoa 20 y) newline)
      by (unfold snoc, with_newline; rewrite !sapp_assoc; reflexivity).
    apply ends_line_snoc.
    rewrite !no_newline_app, Hw.
    rewrite (no_newline_digits (utoa 20 x)), (no_newline_digits (utoa 20 y))
      by (apply utoa_digits; assumption).
    reflexivity.
  - unfold with_newline. rewrite !slength_app.
    assert (Hx' := utoa_length 20 x). assert (Hy' := utoa_length 20 y).
    cbn [String.length]. lia.
Qed.

Lemma sscanf_p_edge_text (vn vm : Z) :
  0 <= vn <= INT_MAX -> 0 <= vm <= INT_MAX ->
  sscanf_p_edge (with_newline (problem_text vn vm)) = Some (vn, vm).
Proof.
  intros Hn Hm. rewrite problem_text_line.
  rewrite sscanf_p_edge_numerals
    by (try apply utoa_nonempty; apply utoa_digits; lia).
  rewrite !int_numeral by assumption. reflexivity.
Qed.

Lemma sscanf_e_text (e : Z * Z) :
  0 <= fst e <= INT_MAX -> 0 <= snd e <= INT_MAX ->
  sscanf_e (with_newline (edge_text e)) = Some e.
Proof.
  intros Hu Hv. rewrite edge_text_line.
  rewrite sscanf_e_numerals
    by (try apply utoa_nonempty; apply utoa_digits; lia).
  rewrite !int_numeral by assumption. destruct e. reflexivity.
Qed.

Lemma edge_lines_text (es : list (Z * Z)) :
  Forall (fun e => 0 <= fst e <= INT_MAX /\ 0 <= snd e <= INT_MAX) es ->
  Forall (fun l => first_is "e" l = true /\ sscanf_e l <> None)
    (map with_newline (map edge_text es)) /\
  valid_edges (map with_newline (map edge_text es)) = es /\
  Forall (fun l => ends_line l = true /\ (String.length l <= 255)%nat)
    (map with_newline (map edge_text es)).
Proof.
  induction 1 as [|e es [Hu Hv] _ (IH1 & IH2 & IH3)]; simpl.
  - repeat split; constructor.
  - assert (Hs := sscanf_e_text e Hu Hv).
    split; [| split].
    + constructor; [| exact IH1]. split; [reflexivity |].
      rewrite Hs. discriminate.
    + unfold valid_edges in *. cbn [flat_map]. rewrite Hs, IH2. reflexivity.
    + constructor; [| exact IH3]. rewrite edge_text_line.
      apply numerals_line; try reflexivity; try lia. simpl. lia.
Qed.

End CanonicalText.

(* ================================================================== *)
(** * Colorings and models *)

Section Colorings.
Import Color2sat Spec.

(** Every vertex its own color. *)
Lemma colorable_own_colors (g : Graph) :
  Forall (fun e => fst e <> snd e) (edges g) -> colorable g (n g).
Proof.
  intros Hloop. exists (fun v => v). split.
  - intros v Hv. exact Hv.
  - intros u w He. rewrite Forall_forall in Hloop.
    exact (Hloop (u, w) He).
Qed.

(** More colors do not hurt. *)
Lemma colorable_more (g : Graph) (k k' : Z) :
  k <= k' -> colorable g k -> colorable g k'.
Proof.
  intros Hk (col & Hc & He). exists col. split; [| exact He].
  intros v Hv. specialize (Hc v Hv). lia.
Qed.

(** An edge from a vertex to itself cannot be colored. *)
Lemma self_loop_not_colorable (g : Graph) (k u : Z) :
  In (u, u) (edges g) -> ~ colorable g k.
Proof. intros He (col & _ & Hne). exact (Hne u u He eq_refl). Qed.

Lemma color_pair_in (k i j : Z) :
  1 <= i -> i < j -> j <= k -> In (i, j) (color_pairs k).
Proof.
  intros Hi Hij Hj. unfold color_pairs. apply filter_In. split.
  - apply in_prod; apply in_range; lia.
  - simpl. apply Z.ltb_lt. exact Hij.
Qed.

(** In a model of the exclusivity clauses a vertex has no two colors. *)
Lemma exclusivity_one_color (vn k : Z) (a : assignment) (v i j : Z) :
  models a (exclusivity_family vn k) = true ->
  1 <= v <= vn -> 1 <= i -> i < j -> j <= k ->
  a (index k v i) = true -> a (index k v j) = true -> False.
Proof.
  intros Hm Hv Hi Hij Hj Hai Haj.
  assert (Hcl : clause_holds a [- index k v i; - index k v j] = true).
  { unfold models in Hm. rewrite forallb_forall in Hm. apply Hm.
    unfold exclusivity_family. apply in_flat_map. exists v. split.
    - apply in_range. exact Hv.
    - apply (in_map (fun p => [- index k v (fst p); - index k v (snd p)])
               (color_pairs k) (i, j)).
      apply color_pair_in; assumption. }
  assert (Bi := index_range vn k v i Hv ltac:(lia)).
  assert (Bj := index_range vn k v j Hv ltac:(lia)).
  unfold clause_holds in Hcl. cbn [existsb] in Hcl.
  rewrite !lit_holds_neg in Hcl by lia.
  rewrite Hai, Haj in Hcl. discriminate.
Qed.

(** A model of the three families is read as a proper coloring, and the
    variables of a vertex that hold are the one of its color. *)
Lemma model_coloring (g : Graph) (k : Z) (a : assignment) :
  valid_graph g -> 1 <= k ->
  models a (coverage_family (n g) k ++ exclusivity_family (n g) k
              ++ adjacency_family (edges g) k) = true ->
  proper_coloring g k (coloring_of k a) /\
  (forall v c, 1 <= v <= n g -> 1 <= c <= k ->
     (a (index k v c) = true <-> c = coloring_of k a v)).
Proof.
  intros Hg Hk Hm. rewrite !models_app in Hm.
  apply andb_prop in Hm. destruct Hm as [Hcov Hm].
  apply andb_prop in Hm. destruct Hm as [Hexc Hadj].
  split; [apply coloring_of_proper; assumption |].
  intros v c Hv Hc.
  destruct (coloring_of_holds g k a Hcov v Hv) as [Hcol Ha].
  split.
  - intros Hac.
    destruct (Z.lt_trichotomy c (coloring_of k a v)) as [L|[E|G]]; auto; exfalso.
    + exact (exclusivity_one_color (n g) k a v c (coloring_of k a v)
               Hexc Hv ltac:(lia) L ltac:(lia) Hac Ha).
    + exact (exclusivity_one_color (n g) k a v (coloring_of k a v) c
               Hexc Hv ltac:(lia) G ltac:(lia) Ha Hac).
  - intros ->. exact Ha.
Qed.

End Colorings.

(* ================================================================== *)
(** * The buffer of load_file *)

Section LoaderBounds.
Import Scan Loader.

Lemma to_size_id (x : Z) : 0 <= x < 2 ^ 64 -> to_size x = x.
Proof. intros H. unfold to_size. apply Z.mod_small. exact H. Qed.

(** The loop keeps one byte free for the closing zero and never holds more
    than twice what it has read, or the first 4096 bytes. *)
Lemma read_stdin_bounds (s : string) : forall cap used buf,
  0 <= used -> used + 1 <= cap -> cap <= Z.max 4096 (2 * used) ->
  used + Z.of_nat (String.length s) < 2 ^ 62 ->
  exists cap',
    read_stdin s cap used buf
    = Some (mkLoaded (buf ++ s) (used + Z.of_nat (String.length s)) cap') /\
    used + Z.of_nat (String.length s) + 1 <= cap' /\
    cap' <= Z.max 4096 (2 * (used + Z.of_nat (String.length s))).
Proof.
  change (2 ^ 62) with 4611686018427387904.
  induction s as [|c r IH]; intros cap used buf Hu Hfree Hcap Hlen.
  - exists cap. cbn [read_stdin String.length Z.of_nat].
    destruct (Z.ltb_spec used cap); [| lia].
    rewrite sapp_nil_r, Z.add_0_r. auto.
  - cbn [read_stdin]. cbn [String.length] in *.
    rewrite Nat2Z.inj_succ in *.
    rewrite (to_size_id (used + 1))
      by (change (2 ^ 64) with 18446744073709551616; lia).
    rewrite Z.geb_leb.
    destruct (Z.leb_spec cap (used + 1)).
    + rewrite (to_size_id (cap * 2))
        by (change (2 ^ 64) with 18446744073709551616; lia).
      destruct (Z.ltb_spec used (cap * 2)); [| lia].
      destruct (IH (cap * 2) (used + 1) (snoc buf c)) as (cap' & E & B1 & B2);
        try lia.
      exists cap'. rewrite E, snoc_app.
      replace (used + 1 + Z.of_nat (String.length r))
        with (used + Z.succ (Z.of_nat (String.length r))) in * by lia.
      auto.
    + destruct (Z.ltb_spec used cap); [| lia].
      destruct (IH cap (used + 1) (snoc buf c)) as (cap' & E & B1 & B2);
        try lia.
      exists cap'. rewrite E, snoc_app.
      replace (used + 1 + Z.of_nat (String.length r))
        with (used + Z.succ (Z.of_nat (String.length r))) in * by lia.
      auto.
Qed.

End LoaderBounds.

(* ================================================================== *)
(** * The options for minisat *)

Section Tokens.
Import Options Notions.

Lemma skip_delims_head (s : string) (c : ascii) (r : string) :
  skip_delims s = String c r -> is_delim c = false.
Proof.
  induction s as [|x s IH]; simpl; [discriminate |].
  destruct (is_delim x) eqn:Hx; [exact IH |].
  intros H. inversion H; subst. exact Hx.
Qed.

Lemma token_no_delim (s : string) : no_delim (fst (token s)) = true.
Proof.
  induction s as [|c s IH]; simpl; auto.
  destruct (is_delim c) eqn:Hc; [reflexivity |].
  destruct (token s) as [t rest]. simpl in *. rewrite Hc. exact IH.
Qed.

(** A token is a word. *)
Lemma strtok_r_word (s tok rest : string) :
  strtok_r s = Some (tok, rest) -> word tok.
Proof.
  unfold strtok_r. destruct (skip_delims s) as [|c r] eqn:E; [discriminate |].
  intros H.
  assert (Ht : token (String c r) = (tok, rest)) by congruence.
  assert (Hc := skip_delims_head s c r E).
  assert (Hn := token_no_delim (String c r)). rewrite Ht in Hn.
  split; [| exact Hn].
  cbn [token] in Ht. rewrite Hc in Ht.
  destruct (token r). inversion Ht. discriminate.
Qed.

Lemma tokens_words (room : nat) : forall s,
  Forall word (tokens room s) /\ (List.length (tokens room s) <= room)%nat.
Proof.
  induction room as [|room IH]; intros s; [split; [constructor | simpl; lia] |].
  cbn [tokens]. destruct (strtok_r s) as [[tok rest]|] eqn:E.
  - destruct (IH rest) as [Hw Hl]. split.
    + constructor; [exact (strtok_r_word s tok rest E) | exact Hw].
    + simpl. lia.
  - split; [constructor | simpl; lia].
Qed.

Lemma skip_delims_word (t x : string) :
  word t -> skip_delims (t ++ x) = (t ++ x)%string.
Proof.
  intros [Hne Hd]. destruct t as [|c t]; [contradiction |].
  simpl in *. apply andb_prop in Hd. destruct Hd as [Hc _].
  apply negb_true_iff in Hc. rewrite Hc. reflexivity.
Qed.

Lemma token_word_end (t : string) :
  no_delim t = true -> token t = (t, EmptyString).
Proof.
  induction t as [|c t IH]; intros H; [reflexivity |].
  simpl in *. apply andb_prop in H. destruct H as [Hc Ht].
  apply negb_true_iff in Hc. rewrite Hc, IH by exact Ht. reflexivity.
Qed.

Lemma token_word_blank (t x : string) :
  no_delim t = true -> token (t ++ String " " x) = (t, x).
Proof.
  induction t as [|c t IH]; intros H; [reflexivity |].
  simpl in *. apply andb_prop in H. destruct H as [Hc Ht].
  apply negb_true_iff in Hc. rewrite Hc, IH by exact Ht. reflexivity.
Qed.

Lemma strtok_r_last (t : string) :
  word t -> strtok_r t = Some (t, EmptyString).
Proof.
  intros Hw. unfold strtok_r.
  rewrite <- (sapp_nil_r t) at 1. rewrite skip_delims_word by exact Hw.
  rewrite sapp_nil_r. destruct Hw as [Hne Hd].
  destruct t as [|c t]; [contradiction |].
  rewrite token_word_end by exact Hd. reflexivity.
Qed.

Lemma strtok_r_next (t x : string) :
  word t -> strtok_r (t ++ String " " x) = Some (t, x).
Proof.
  intros Hw. unfold strtok_r. rewrite skip_delims_word by exact Hw.
  destruct Hw as [Hne Hd].
  destruct (t ++ String " " x)%string as [|c r] eqn:E.
  - destruct t; discriminate.
  - rewrite <- E, token_word_blank by exact Hd. reflexivity.
Qed.

Lemma strtok_r_empty : strtok_r EmptyString = None.
Proof. reflexivity. Qed.

(** The words of a text are its tokens, as far as there is room. *)
Lemma tokens_unwords (ts : list string) : forall room,
  Forall word ts -> tokens room (unwords ts) = firstn room ts.
Proof.
  induction ts as [|t rest IH]; intros room Hw.
  - destruct room; reflexivity.
  - inversion Hw as [|? ? Ht Hrest]; subst.
    destruct room as [|room]; [reflexivity |].
    cbn [tokens firstn unwords].
    destruct rest as [|t' rest'].
    + rewrite strtok_r_last by exact Ht.
      destruct room; reflexivity.
    + rewrite strtok_r_next by exact Ht.
      rewrite IH by exact Hrest. reflexivity.
Qed.

End Tokens.

(* ================================================================== *)
(** * The first line of the result file *)

Section FirstLine.
Import Scan Lines Driver Spec Notions.

(** The first result of [fgets]: a part of the text from its start, which
    is all of it, or a complete line, or as long as the buffer allows. *)
Lemma fgets_all_first (room0 : nat) (s : string) : forall room cur l ls,
  (1 <= room)%nat -> no_newline cur = true ->
  fgets_all room0 room cur s = l :: ls ->
  exists x, (cur ++ s)%string = (l ++ x)%string /\
    (x = EmptyString \/ ends_line l = true \/
     String.length l = (String.length cur + room)%nat).
Proof.
  induction s as [|c r IH]; intros room cur l ls Hroom Hcur H.
  - cbn [fgets_all] in H. destruct cur as [|x cur]; [discriminate |].
    inversion H; subst. exists EmptyString. auto.
  - cbn [fgets_all] in H. destruct (Ascii.eqb c newline) eqn:Hc.
    + cbn [orb] in H. inversion H; subst. exists r.
      apply Ascii.eqb_eq in Hc. subst c. split.
      * symmetry. apply snoc_app.
      * right. left. apply ends_line_snoc. exact Hcur.
    + cbn [orb] in H. destruct (Nat.leb_spec room 1).
      * inversion H; subst. exists r. split.
        -- symmetry. apply snoc_app.
        -- right. right. rewrite slength_snoc. lia.
      * destruct (IH (room - 1)%nat (snoc cur c) l ls) as (x & E & Hx);
          [lia | apply no_newline_snoc; assumption | exact H |].
        exists x. split.
        -- rewrite <- E. symmetry. apply snoc_app.
        -- rewrite slength_snoc in Hx. destruct Hx as [Hx|[Hx|Hx]]; auto.
           right. right. lia.
Qed.

Lemma prefix_nil (s : string) : String.prefix EmptyString s = true.
Proof. destruct s; reflexivity. Qed.

(** Whether a text begins with SAT is seen on such a first part. *)
Lemma prefix_SAT_part (l x : string) :
  x = EmptyString \/ ends_line l = true \/ (3 <= String.length l)%nat ->
  String.prefix "SAT" (l ++ x) = String.prefix "SAT" l.
Proof.
  intros [->|[Hl|Hlen]].
  - rewrite sapp_nil_r. reflexivity.
  - destruct l as [|a [|b [|c l]]]; [discriminate | | |].
    + cbn [ends_line] in Hl. apply Ascii.eqb_eq in Hl. subst a. reflexivity.
    + cbn [ends_line] in Hl. apply andb_prop in Hl. destruct Hl as [_ Hb].
      apply Ascii.eqb_eq in Hb. subst b.
      cbn [append String.prefix]. destruct (ascii_dec "S" a); reflexivity.
    + cbn [append String.prefix].
      destruct (ascii_dec "S" a), (ascii_dec "A" b), (ascii_dec "T" c);
        rewrite ?prefix_nil; reflexivity.
  - destruct l as [|a [|b [|c l]]]; simpl in Hlen; try lia.
    cbn [append String.prefix].
    destruct (ascii_dec "S" a), (ascii_dec "A" b), (ascii_dec "T" c);
      rewrite ?prefix_nil; reflexivity.
Qed.

(** The test on the first line of the result file is a test on the file. *)
Lemma first_line_SAT (content : string) :
  match fgets 32 content with
  | Some l => starts_with_SAT l
  | None => false
  end = String.prefix "SAT" content.
Proof.
  unfold fgets, fgets_lines, starts_with_SAT.
  change (32 - 1)%nat with 31%nat.
  destruct (fgets_all 31 31 EmptyString content) as [|l ls] eqn:E.
  - assert (G := fgets_all_glue 31 content 31 EmptyString).
    rewrite E in G. simpl in G. subst content. reflexivity.
  - destruct (fgets_all_first 31 content 31 EmptyString l ls) as (x & Ex & Hx);
      [lia | reflexivity | exact E |].
    simpl in Ex. subst content. symmetry. apply prefix_SAT_part.
    destruct Hx as [Hx|[Hx|Hx]]; auto. simpl in Hx. right. right. lia.
Qed.

(** The result file after a round that reaches the second fork. *)
Lemma round_file (r : round_env) (tmp : file) :
  pipe_p2c_ok r = true -> pipe_c2s_ok r = true ->
  fork1_ok r = true -> write_graph r <> Sigpipe -> fork2_ok r = true ->
  snd (fst (run_color_minisat r tmp)) = result_after r tmp.
Proof.
  intros H1 H2 H3 Hw H4. rewrite round_after_write by assumption.
  unfold result_after. rewrite H4. cbv zeta. cbn [negb].
  destruct (open_result_ok r); cbn [negb];
    [destruct (exec_minisat_ok r); cbn [negb] |];
    (destruct (fopen_result_ok r); [| reflexivity]).
  - destruct (fgets 32 (solver_output r)); reflexivity.
  - destruct (fgets 32 EmptyString); reflexivity.
  - destruct tmp as [c|]; [| reflexivity].
    destruct (fgets 32 c); reflexivity.
Qed.

End FirstLine.

(* ================================================================== *)
(** * Further properties of the reader *)

Section ReaderFurther.
Import Scan Lines Pipeline Color2sat Spec Examples Format Notions.

(** X1. The reader takes its input in pieces of at most 255 characters:
    the pieces put together are the input; every piece is not empty and
    has no newline but at its end; complete lines of at most 255
    characters, newline included, are one piece each; and a line that goes
    on after 255 characters is cut there, what follows being read as a
    line of its own. *)
Theorem reader_line_pieces (s : string) (ls : list string) (p : string) :
  glue (fgets_lines 256 s) = s /\
  Forall (fun l => (ends_line l = true \/ no_newline l = true) /\
                   (1 <= String.length l <= 255)%nat)
    (fgets_lines 256 s) /\
  (Forall (fun l => ends_line l = true /\ (String.length l <= 255)%nat) ls ->
   fgets_lines 256 (glue ls ++ s) = ls ++ fgets_lines 256 s) /\
  (no_newline p = true -> String.length p = 255%nat ->
   fgets_lines 256 (p ++ s) = p :: fgets_lines 256 s).
Proof.
  split; [| split; [| split]].
  - unfold fgets_lines. rewrite fgets_all_glue. reflexivity.
  - unfold fgets_lines. change (256 - 1)%nat with 255%nat.
    apply fgets_all_shape; [lia | reflexivity | reflexivity].
  - apply fgets_lines_lines.
  - intros Hp Hlen. unfold fgets_lines. change (256 - 1)%nat with 255%nat.
    rewrite fgets_all_cut by (auto; lia). reflexivity.
Qed.

Lemma reader_line_pieces_witness :
  fgets_lines 256 (fill 255 "x" ++ with_newline "y")
  = [fill 255 "x"; with_newline "y"].
Proof.
  destruct (reader_line_pieces (with_newline "y") [] (fill 255 "x"))
    as (_ & _ & _ & Hcut).
  rewrite Hcut.
  - vm_compute. reflexivity.
  - vm_compute. reflexivity.
  - vm_compute. reflexivity.
Defined.

(** X3. What the reader rejects before it reads edges: an input that
    cannot be opened; an input without a line that starts with 'p', the
    empty input included, with the diagnostic of 0 vertices and 0 edges; a
    first line starting with 'p' that is not a problem line, even if a
    later line is one; and a problem line whose vertex count is not
    positive or whose edge count is negative. *)
Theorem reader_rejects (text : string) (pre rest : list string) (pl : string) :
  read_graph None = Fatal OpenFailed /\
  (Forall (fun l => first_is "p" l = false) (fgets_lines 256 text) ->
   read_graph (Some text) = Fatal (InvalidNM 0 0)) /\
  (fgets_lines 256 text = pre ++ pl :: rest ->
   Forall (fun l => first_is "p" l = false) pre ->
   first_is "p" pl = true ->
   (sscanf_p_edge pl = None ->
    read_graph (Some text) = Fatal InvalidProblemLine) /\
   (forall vn vm, sscanf_p_edge pl = Some (vn, vm) -> vn <= 0 \/ vm < 0 ->
      read_graph (Some text) = Fatal (InvalidNM vn vm))).
Proof.
  split; [reflexivity |]. split.
  - intros Hno. unfold read_graph, read_lines.
    rewrite problem_line_none by exact Hno. reflexivity.
  - intros Hl Hpre Hp. unfold read_graph, read_lines. rewrite Hl.
    rewrite problem_line_skip by exact Hpre.
    cbn [problem_line]. rewrite Hp. split.
    + intros ->. reflexivity.
    + intros vn vm -> Hbad.
      destruct (Z.leb_spec vn 0); [reflexivity |].
      destruct (Z.ltb_spec vm 0); [reflexivity | lia].
Qed.

Lemma reader_rejects_witness :
  read_graph (Some EmptyString) = Fatal (InvalidNM 0 0) /\
  read_graph (Some (unlines ["p cnf 3 2"%string; "p edge 3 0"%string]))
    = Fatal InvalidProblemLine /\
  read_graph (Some (unlines ["p edge 0 0"%string])) = Fatal (InvalidNM 0 0).
Proof.
  split; [| split].
  - destruct (reader_rejects EmptyString [] [] EmptyString) as (_ & Hno & _).
    apply Hno. constructor.
  - destruct (reader_rejects
                (unlines ["p cnf 3 2"%string; "p edge 3 0"%string]) []
                [with_newline "p edge 3 0"] (with_newline "p cnf 3 2"))
      as (_ & _ & Hp).
    destruct (Hp ltac:(vm_compute; reflexivity) (Forall_nil _) eq_refl)
      as [Hbad _].
    apply Hbad. vm_compute. reflexivity.
  - destruct (reader_rejects (unlines ["p edge 0 0"%string]) [] []
                (with_newline "p edge 0 0")) as (_ & _ & Hp).
    destruct (Hp ltac:(vm_compute; reflexivity) (Forall_nil _) eq_refl)
      as [_ Hnm].
    apply Hnm; [vm_compute; reflexivity | left; lia].
Defined.

(** X4. With exactly as many valid edge lines as the problem line
    declares, the reader returns the graph with these edges and prints no
    warning; a further line, a valid edge line as well, ends the run with
    the diagnostic of the edge lines. *)
Theorem declared_count_respected (text : string) (pre rest more : list string)
  (pl : string) (vn vm : Z) :
  fgets_lines 256 text = pre ++ pl :: rest ++ more ->
  Forall (fun l => first_is "p" l = false) pre ->
  first_is "p" pl = true ->
  sscanf_p_edge pl = Some (vn, vm) ->
  0 < vn ->
  Forall (fun l => first_is "e" l = true /\ sscanf_e l <> None) rest ->
  Z.of_nat (List.length rest) = vm ->
  (more = [] ->
   read_graph (Some text) = Ok (mkGraph vn vm (valid_edges rest)) []) /\
  (forall l more', more = l :: more' ->
   read_graph (Some text) = Fatal (InvalidEdgeLine vm l)).
Proof.
  intros Hl Hpre Hp Hs Hvn Hrest Hlen.
  assert (Hedges : edge_lines vm 0 [] rest = inr (vm, valid_edges rest)).
  { rewrite edge_lines_valid by (auto; lia). cbn [app]. f_equal. f_equal. lia. }
  unfold read_graph, read_lines. rewrite Hl.
  rewrite problem_line_skip by exact Hpre.
  cbn [problem_line]. rewrite Hp, Hs.
  destruct (Z.leb_spec vn 0); [lia |].
  destruct (Z.ltb_spec vm 0); [lia |]. cbn [orb].
  split.
  - intros ->. rewrite app_nil_r, Hedges, Z.eqb_refl. reflexivity.
  - intros l more' ->.
    rewrite (edge_lines_fatal vm rest l more' vm (valid_edges rest) Hedges)
      by (right; lia).
    reflexivity.
Qed.

Lemma declared_count_respected_witness :
  read_graph (Some triangle_text) = Ok triangle [] /\
  read_graph (Some (triangle_text ++ with_newline "e 1 3")%string)
    = Fatal (InvalidEdgeLine 3 (with_newline "e 1 3")).
Proof.
  assert (Hr : Forall (fun l => first_is "e" l = true /\ sscanf_e l <> None)
                 [with_newline "e 1 2"; with_newline "e 2 3";
                  with_newline "e 1 3"]).
  { repeat constructor; vm_compute; discriminate. }
  split.
  - destruct (declared_count_respected triangle_text
                [with_newline "c triangle"]
                [with_newline "e 1 2"; with_newline "e 2 3";
                 with_newline "e 1 3"]
                [] (with_newline "p edge 3 3") 3 3) as [Hexact _].
    + vm_compute. reflexivity.
    + repeat constructor.
    + vm_compute. reflexivity.
    + vm_compute. reflexivity.
    + lia.
    + exact Hr.
    + reflexivity.
    + exact (Hexact eq_refl).
  - destruct (declared_count_respected
                (triangle_text ++ with_newline "e 1 3")%string
                [with_newline "c triangle"]
                [with_newline "e 1 2"; with_newline "e 2 3";
                 with_newline "e 1 3"]
                [with_newline "e 1 3"] (with_newline "p edge 3 3") 3 3)
      as [_ Hmore].
    + vm_compute. reflexivity.
    + repeat constructor.
    + vm_compute. reflexivity.
    + vm_compute. reflexivity.
    + lia.
    + exact Hr.
    + reflexivity.
    + exact (Hmore (with_newline "e 1 3") [] eq_refl).
Defined.

End ReaderFurther.

(* ================================================================== *)
(** * The driver and the encoder on the same input *)

Section SameInput.
Import Scan Lines Pipeline Color2sat Driver Spec Examples Format Notions.

(** The whole input is its pieces put together. *)
Lemma glue_fgets_lines (size : nat) (s : string) :
  glue (fgets_lines size s) = s.
Proof. unfold fgets_lines. rewrite fgets_all_glue. reflexivity. Qed.

(** The run of the reader on an input with exactly the declared number of
    valid edge lines. *)
Lemma read_graph_counted (text : string) (pre rest : list string)
  (pl : string) (vn vm : Z) :
  fgets_lines 256 text = pre ++ pl :: rest ->
  Forall (fun l => first_is "p" l = false) pre ->
  first_is "p" pl = true ->
  sscanf_p_edge pl = Some (vn, vm) ->
  0 < vn ->
  Forall (fun l => first_is "e" l = true /\ sscanf_e l <> None) rest ->
  Z.of_nat (List.length rest) = vm ->
  read_graph (Some text) = Ok (mkGraph vn vm (valid_edges rest)) [].
Proof.
  intros Hl Hpre Hp Hs Hvn Hrest Hlen.
  unfold read_graph, read_lines. rewrite Hl.
  rewrite problem_line_skip by exact Hpre.
  cbn [problem_line]. rewrite Hp, Hs.
  destruct (Z.leb_spec vn 0); [lia |].
  destruct (Z.ltb_spec vm 0); [lia |]. cbn [orb].
  rewrite edge_lines_valid by (auto; lia). cbn [app].
  replace (0 + Z.of_nat (List.length rest)) with vm by lia.
  rewrite Z.eqb_refl. reflexivity.
Qed.

(** X2. The driver and the encoder read the same vertex count.  When the
    lines before the first line that starts with 'p' are complete lines
    without a zero byte, and that line is complete as well, the vertex
    count that the driver takes as the bound of its search is the vertex
    count of the graph that the encoder reads from the same bytes. *)
Theorem driver_and_encoder_agree (text : string) (pre rest : list string)
  (pl : string) (g : Graph) (log : list Color2sat.diag) :
  fgets_lines 256 text = pre ++ pl :: rest ->
  Forall (fun l => first_is "p" l = false /\ ends_line l = true /\
                   no_zero l = true) pre ->
  first_is "p" pl = true -> ends_line pl = true ->
  read_graph (Some text) = Ok g log ->
  parse_header text = Some (n g).
Proof.
  intros Hl Hpre Hp Hpl Hr.
  assert (Hpre' : Forall (fun l => first_is "p" l = false) pre).
  { eapply Forall_impl; [| exact Hpre]. intros l [H _]. exact H. }
  unfold read_graph in Hr. rewrite Hl in Hr.
  destruct (read_lines_header pre rest pl g log Hpre' Hp Hr) as [vm Hs].
  rewrite <- (glue_fgets_lines 256 text), Hl, glue_app.
  unfold parse_header. rewrite parse_header_skip_all by exact Hpre.
  cbn [glue]. exact (parse_header_at pl (glue rest) (n g) vm Hp Hpl Hs).
Qed.

Lemma driver_and_encoder_agree_witness :
  parse_header triangle_text = Some (n triangle).
Proof.
  apply (driver_and_encoder_agree triangle_text [with_newline "c triangle"]
           [with_newline "e 1 2"; with_newline "e 2 3"; with_newline "e 1 3"]
           (with_newline "p edge 3 3") triangle []).
  - vm_compute. reflexivity.
  - repeat constructor.
  - reflexivity.
  - reflexivity.
  - vm_compute. reflexivity.
Defined.

(** The lines of the text of a graph, as the reader gets them. *)
Lemma show_graph_lines (g : Graph) :
  0 <= n g <= INT_MAX -> 0 <= m g <= INT_MAX ->
  Forall (fun e => 0 <= fst e <= INT_MAX /\ 0 <= snd e <= INT_MAX) (edges g) ->
  let pl := with_newline (problem_text (n g) (m g)) in
  let rest := map with_newline (map edge_text (edges g)) in
  fgets_lines 256 (show_graph g) = pl :: rest /\
  first_is "p" pl = true /\ ends_line pl = true /\
  sscanf_p_edge pl = Some (n g, m g) /\
  Forall (fun l => first_is "e" l = true /\ sscanf_e l <> None) rest /\
  valid_edges rest = edges g.
Proof.
  intros Hn Hm Hes pl rest.
  destruct (edge_lines_text (edges g) Hes) as (Hvalid & Hedges & Hshape).
  assert (Hpl : ends_line pl = true /\ (String.length pl <= 255)%nat).
  { unfold pl. rewrite problem_text_line.
    apply (numerals_line "p edge " (n g) (m g)); [reflexivity | | lia | lia].
    cbn [String.length]. lia. }
  assert (Hp : first_is "p" pl = true).
  { unfold pl. rewrite problem_text_line. reflexivity. }
  assert (Hs : sscanf_p_edge pl = Some (n g, m g)).
  { unfold pl. apply sscanf_p_edge_text; lia. }
  assert (Htext : show_graph g = glue (pl :: rest)) by reflexivity.
  split; [| split; [exact Hp | split; [exact (proj1 Hpl) | auto]]].
  rewrite Htext, <- (sapp_nil_r (glue (pl :: rest))).
  rewrite fgets_lines_lines by (constructor; assumption).
  change (fgets_lines 256 EmptyString) with (@nil string).
  apply app_nil_r.
Qed.

(** X5. Writing a graph in the DIMACS format and reading it gives the
    graph back, without a warning, and the driver reads its vertex count
    from the same text: for at least one vertex, as many edges as the
    graph declares, and counts and endpoints that an int holds and that
    are not negative. *)
Theorem read_show_graph (g : Graph) :
  1 <= n g <= INT_MAX ->
  m g = Z.of_nat (List.length (edges g)) -> m g <= INT_MAX ->
  Forall (fun e => 0 <= fst e <= INT_MAX /\ 0 <= snd e <= INT_MAX) (edges g) ->
  read_graph (Some (show_graph g)) = Ok g [] /\
  parse_header (show_graph g) = Some (n g).
Proof.
  intros Hn Hm Hmmax Hes.
  destruct (show_graph_lines g ltac:(lia) ltac:(lia) Hes)
    as (Hlines & Hp & Hpl & Hs & Hvalid & Hedges).
  split.
  - rewrite (read_graph_counted _ [] _ _ (n g) (m g) Hlines (Forall_nil _)
               Hp Hs ltac:(lia) Hvalid).
    + rewrite Hedges. destruct g. reflexivity.
    + rewrite !length_map. lia.
  - rewrite <- (glue_fgets_lines 256 (show_graph g)), Hlines.
    unfold parse_header.
    exact (parse_header_at _ (glue (map with_newline
                                      (map edge_text (edges g))))
             (n g) (m g) Hp Hpl Hs).
Qed.

Lemma read_show_graph_witness :
  read_graph (Some (show_graph triangle)) = Ok triangle [] /\
  parse_header (show_graph triangle) = Some 3.
Proof.
  apply (read_show_graph triangle).
  - vm_compute. split; discriminate.
  - reflexivity.
  - vm_compute. discriminate.
  - repeat constructor; vm_compute; discriminate.
Defined.

End SameInput.

(* ================================================================== *)
(** * One round of the pipeline: the driver's k and the encoder *)

Section Rounds.
Import Scan Lines Pipeline Color2sat Driver Spec Examples Format Notions.

Lemma to_int_range (x : Z) : INT_MIN <= to_int x <= INT_MAX.
Proof.
  unfold to_int, wrap, INT_MIN, INT_MAX.
  change (2 ^ (32 - 1)) with 2147483648.
  change (2 ^ 32) with 4294967296.
  assert (H := Z.mod_pos_bound (x + 2147483648) 4294967296 ltac:(lia)). lia.
Qed.

Lemma scan_d_int (s : string) (v : Z) (r : string) :
  scan_d s = Some (v, r) -> INT_MIN <= v <= INT_MAX.
Proof.
  unfold scan_d. destruct (scan_signed (skip_ws s)) as [[w r']|];
    [| discriminate].
  intros H. inversion H; subst. apply to_int_range.
Qed.

Lemma sscanf_p_edge_int (s : string) (vn vm : Z) :
  sscanf_p_edge s = Some (vn, vm) -> INT_MIN <= vn <= INT_MAX.
Proof.
  unfold sscanf_p_edge, bind.
  destruct (expect "p" s) as [s1|]; [| discriminate].
  destruct (expect "e" (skip_ws s1)) as [s2|]; [| discriminate].
  destruct (expect "d" s2) as [s3|]; [| discriminate].
  destruct (expect "g" s3) as [s4|]; [| discriminate].
  destruct (expect "e" s4) as [s5|]; [| discriminate].
  destruct (scan_d (skip_ws s5)) as [[a ra]|] eqn:Ha; [| discriminate].
  destruct (scan_d (skip_ws (snd (a, ra)))) as [[b rb]|]; [| discriminate].
  intros H. inversion H; subst. cbn [fst]. exact (scan_d_int _ _ _ Ha).
Qed.

(** The bound of the search is an [int]. *)
Lemma parse_header_int (s : string) : forall bol max_k,
  parse_header_from bol s = Some max_k -> INT_MIN <= max_k <= INT_MAX.
Proof.
  induction s as [|c r IH]; intros bol max_k; [discriminate |].
  destruct (Ascii.eqb c zero) eqn:Hc.
  - cbn [parse_header_from]. rewrite Hc. discriminate.
  - rewrite parse_header_step by exact Hc.
    destruct (bol && Ascii.eqb c "p"); [| apply IH].
    destruct (sscanf_p_edge (String c r)) as [[vn vm]|] eqn:Hs; [| apply IH].
    intros H. inversion H; subst. exact (sscanf_p_edge_int _ _ _ Hs).
Qed.

Lemma k_start_positive (k_override : Z) : 0 < k_start k_override.
Proof. unfold k_start. destruct (Z.ltb_spec 0 k_override); lia. Qed.

(** The encoder takes the numeral of a positive [long]. *)
Lemma child_k_accepted (k : Z) :
  0 < k <= LONG_MAX -> Color2sat.parse_k (snprintf_ld 32 k) = Some k.
Proof.
  intros Hk. rewrite snprintf_ld_positive by lia.
  unfold Color2sat.parse_k. rewrite strtol_utoa by lia.
  destruct (Z.leb_spec k 0); [lia | reflexivity].
Qed.

Lemma ltoa_positive (k : Z) : 0 <= k -> ltoa k = utoa 20 k.
Proof. intros H. unfold ltoa. destruct (Z.ltb_spec k 0); [lia | reflexivity]. Qed.

(** What the first child prints. *)
Lemma encoder_child_output (buf : string) (k : Z) :
  0 < k <= LONG_MAX ->
  encoder_child buf k
  = match read_graph (Some buf) with
    | Fatal d => Fatal d
    | Ok g log => Ok (encode g k) log
    end.
Proof.
  intros Hk. unfold encoder_child, color2sat_argv. cbn [tl].
  unfold Color2sat.main. rewrite child_k_accepted by exact Hk. reflexivity.
Qed.

(** X6. The number of colors passes from the driver to the encoder
    unchanged: every k that the driver tries is positive and at most
    INT_MAX, the 32 bytes of the driver's buffer hold all of its decimal
    digits, and the encoder's check of its argument accepts them as k. *)
Theorem encoder_accepts_driver_k (buf : string) (max_k k_override k : Z) :
  parse_header buf = Some max_k ->
  In k (range (k_start k_override) max_k) ->
  0 < k <= INT_MAX /\
  snprintf_ld 32 k = ltoa k /\
  Color2sat.parse_k (nth 2 (color2sat_argv k) EmptyString) = Some k.
Proof.
  intros Hh Hin. apply in_range in Hin.
  assert (Hmax := parse_header_int buf true max_k Hh).
  assert (Hpos := k_start_positive k_override).
  assert (Hk : 0 < k <= INT_MAX) by lia.
  assert (Hl : 0 < k <= LONG_MAX) by (unfold INT_MAX, LONG_MAX in *; lia).
  split; [exact Hk |]. split.
  - rewrite snprintf_ld_positive, ltoa_positive by lia. reflexivity.
  - cbn [color2sat_argv nth]. apply child_k_accepted. exact Hl.
Qed.

Lemma encoder_accepts_driver_k_witness :
  Color2sat.parse_k (nth 2 (color2sat_argv 3) EmptyString) = Some 3.
Proof.
  apply (encoder_accepts_driver_k triangle_text 3 0 3).
  - vm_compute. reflexivity.
  - vm_compute. right. left. reflexivity.
Defined.

(** X7. The first child of a round prints the formula of the graph that
    the driver has loaded: with the arguments that the driver gives it and
    the driver's buffer as its input, the encoder ends with the reader's
    diagnostic when the reader rejects the buffer; and when the reader
    returns a graph with fewer than INT_MAX vertices whose endpoints are
    vertices, it prints the encoding of the graph for the driver's k,
    which is satisfiable exactly when the graph can be colored with k
    colors. *)
Theorem encoder_child_formula (buf : string) (k : Z) :
  0 < k < INT_MAX ->
  (forall d, read_graph (Some buf) = Fatal d -> encoder_child buf k = Fatal d) /\
  (forall g log, read_graph (Some buf) = Ok g log ->
     n g < INT_MAX ->
     Forall (fun e => 1 <= fst e <= n g /\ 1 <= snd e <= n g) (edges g) ->
     encoder_child buf k = Ok (encode g k) log /\
     (satisfiable (clauses_of (encode g k)) <-> colorable g k)).
Proof.
  intros Hk.
  assert (Hl : 0 < k <= LONG_MAX) by (unfold INT_MAX, LONG_MAX in *; lia).
  split.
  - intros d Hr. rewrite encoder_child_output, Hr by exact Hl. reflexivity.
  - intros g log Hr Hn Hes.
    assert (Hout : encoder_child buf k = Ok (encode g k) log).
    { rewrite encoder_child_output, Hr by exact Hl. reflexivity. }
    split; [exact Hout |].
    apply (main_satisfiable_iff_colorable "-" (snprintf_ld 32 k) (Some buf)
             (encode g k) log g k); auto.
    + apply child_k_accepted. exact Hl.
    + lia.
Qed.

Lemma encoder_child_formula_witness :
  encoder_child triangle_text 3 = Ok (encode triangle 3) [] /\
  (satisfiable (clauses_of (encode triangle 3)) <-> colorable triangle 3).
Proof.
  destruct (encoder_child_formula triangle_text 3) as [_ H].
  - vm_compute. split; reflexivity.
  - apply (H triangle []).
    + vm_compute. reflexivity.
    + vm_compute. reflexivity.
    + repeat constructor; vm_compute; discriminate.
Defined.

(** X16. The driver scans for the problem line in the rest of the
    buffer, the encoder in one line: when the first line that starts with
    'p' is not a problem line by itself but the text from there on scans
    as one, as for a problem line broken before its numbers, the driver
    takes the vertex count and starts the search, while the encoder
    rejects the same text in every round.  The lines before that line
    are complete lines without a zero byte. *)
Theorem header_across_lines (text : string) (pre rest : list string)
  (pl : string) (vn vm : Z) :
  fgets_lines 256 text = pre ++ pl :: rest ->
  Forall (fun l => first_is "p" l = false /\ ends_line l = true /\
                   no_zero l = true) pre ->
  first_is "p" pl = true ->
  sscanf_p_edge pl = None ->
  sscanf_p_edge (glue (pl :: rest)) = Some (vn, vm) ->
  parse_header text = Some vn /\
  read_graph (Some text) = Fatal InvalidProblemLine /\
  forall k, 0 < k <= LONG_MAX ->
    encoder_child text k = Fatal InvalidProblemLine.
Proof.
  intros Hl Hpre Hp Hnone Hsome.
  assert (Hread : read_graph (Some text) = Fatal InvalidProblemLine).
  { unfold read_graph, read_lines. rewrite Hl.
    rewrite problem_line_skip.
    - cbn [problem_line]. rewrite Hp, Hnone. reflexivity.
    - eapply Forall_impl; [| exact Hpre]. intros l [H _]. exact H. }
  split; [| split].
  - rewrite <- (glue_fgets_lines 256 text), Hl, glue_app.
    unfold parse_header. rewrite parse_header_skip_all by exact Hpre.
    destruct pl as [|c r]; [discriminate |]. cbn [first_is] in Hp.
    change (glue (String c r :: rest))
      with (String c (r ++ glue rest)%string) in *.
    apply Ascii.eqb_eq in Hp. subst c.
    rewrite parse_header_step by reflexivity.
    change (true && Ascii.eqb "p" "p") with true. cbn iota.
    rewrite Hsome. reflexivity.
  - exact Hread.
  - intros k Hk. rewrite encoder_child_output, Hread by exact Hk.
    reflexivity.
Qed.

Lemma header_across_lines_witness :
  parse_header (unlines ["p edge"%string; "3 0"%string]) = Some 3 /\
  read_graph (Some (unlines ["p edge"%string; "3 0"%string]))
    = Fatal InvalidProblemLine.
Proof.
  destruct (header_across_lines (unlines ["p edge"%string; "3 0"%string]) []
              [with_newline "3 0"] (with_newline "p edge") 3 0)
    as (Hh & Hr & _).
  - vm_compute. reflexivity.
  - constructor.
  - reflexivity.
  - vm_compute. reflexivity.
  - vm_compute. reflexivity.
  - split; assumption.
Defined.

End Rounds.

(* ================================================================== *)
(** * The whole search with a solver that is right *)

Section WholeSearch.
Import Scan Lines Pipeline Color2sat Driver Spec Examples Format Notions.

(** The first candidate of a range at which a test holds, if any. *)
Lemma range_first_hit (f : Z -> bool) (hi : Z) : forall (c : nat) (lo : Z),
  Z.to_nat (hi + 1 - lo) = c ->
  (forall k, lo <= k <= hi -> f k = false) \/
  (exists k0, lo <= k0 <= hi /\ f k0 = true /\
     forall k, lo <= k < k0 -> f k = false).
Proof.
  induction c as [|c IH]; intros lo Hc.
  - left. intros k Hk. lia.
  - destruct (f lo) eqn:Hlo.
    + right. exists lo. split; [lia |]. split; [exact Hlo |].
      intros k Hk. lia.
    + destruct (IH (lo + 1) ltac:(lia)) as [Hall | (k0 & Hk0 & Hf & Hbefore)].
      * left. intros k Hk. destruct (Z.eq_dec k lo) as [-> | Hne]; auto.
        apply Hall. lia.
      * right. exists k0. split; [lia |]. split; [exact Hf |].
        intros k Hk. destruct (Z.eq_dec k lo) as [-> | Hne]; auto.
        apply Hbefore. lia.
Qed.

Lemma reported_found (pre : list Z) (k0 : Z) (content : string)
  (dest : option string) :
  reported ([Created] ++ map (fun k => Round k (-1)) pre
              ++ [Round k0 0; Report k0 content dest; Removed]) = Some k0.
Proof.
  cbn [app reported]. rewrite reported_app, reported_rounds. reflexivity.
Qed.

Lemma reported_exhausted (ks : list Z) :
  reported ([Created] ++ map (fun k => Round k (-1)) ks ++ [Removed]) = None.
Proof.
  cbn [app reported]. rewrite reported_app, reported_rounds. reflexivity.
Qed.

(** The two ends of a search whose rounds launch. *)
Lemma search_range (a : args) (e : env) (lo hi : Z) :
  (forall k, launches (rounds e k)) ->
  reopen_ok e = true ->
  outfile a = None \/ outfile_ok e = true ->
  let o := search a e (range lo hi) (Some EmptyString) [Created] in
  (status o = EXIT_FAILURE /\ reported (trace o) = None /\
   forall k, lo <= k <= hi -> verdict (rounds e k) = false) \/
  (exists k0, status o = EXIT_SUCCESS /\ reported (trace o) = Some k0 /\
     lo <= k0 <= hi /\ verdict (rounds e k0) = true /\
     forall k, lo <= k < k0 -> verdict (rounds e k) = false).
Proof.
  intros Hlaunch Hreopen Hout o. subst o.
  destruct (range_first_hit (fun k => verdict (rounds e k)) hi _ lo eq_refl)
    as [Hall | (k0 & Hk0 & Hv & Hbefore)].
  - left. rewrite (search_exhausted a e Hlaunch).
    + cbn [status trace]. rewrite reported_exhausted. auto.
    + intros k Hk. apply Hall. apply in_range. exact Hk.
  - right. exists k0.
    rewrite (range_split lo (k0 - 1) hi) by lia.
    rewrite (range_cons (k0 - 1 + 1) hi) by lia.
    replace (k0 - 1 + 1) with k0 by lia.
    rewrite (search_found a e Hlaunch Hreopen Hout).
    + cbn [status trace]. rewrite reported_found. auto.
    + intros k Hk. apply in_range in Hk. apply Hbefore. lia.
    + exact Hv.
Qed.

(** X8. With rounds whose system calls and launches succeed and a solver
    that answers SAT exactly for the satisfiable formulas among those that
    the encoder prints for this input, the driver decides colorability:
    the run succeeds exactly when the graph can be colored with some k from
    the start to the vertex count; the k that it reports is the least such
    k; and for a graph without loops whose vertex count is not below the
    start the run always succeeds. *)
Theorem driver_finds_least_coloring (a : args) (e : env) (buf : string)
  (g : Graph) (log : list Color2sat.diag) (k_override : Z) :
  parse_k_override (k_opt a) = Some k_override ->
  graph_buf e = Some buf ->
  read_graph (Some buf) = Ok g log ->
  parse_header buf = Some (n g) ->
  n g < INT_MAX ->
  Forall (fun e => 1 <= fst e <= n g /\ 1 <= snd e <= n g) (edges g) ->
  mkstemp_ok e = true -> reopen_ok e = true ->
  outfile a = None \/ outfile_ok e = true ->
  (forall k, launches (rounds e k)) ->
  (forall k out log', In k (range (k_start k_override) (n g)) ->
     encoder_child buf k = Ok out log' ->
     (verdict (rounds e k) = true <-> satisfiable (clauses_of out))) ->
  (status (main a e) = EXIT_SUCCESS <->
   exists k, k_start k_override <= k <= n g /\ colorable g k) /\
  (forall k0, reported (trace (main a e)) = Some k0 ->
     k_start k_override <= k0 <= n g /\ colorable g k0 /\
     forall k, k_start k_override <= k < k0 -> ~ colorable g k) /\
  (Forall (fun e => fst e <> snd e) (edges g) ->
   k_start k_override <= n g ->
   status (main a e) = EXIT_SUCCESS).
Proof.
  intros Hk Hbuf Hr Hh Hn Hes Hmk Hreopen Hout Hlaunch Hsolver.
  assert (Hmain : main a e
            = search a e (range (k_start k_override) (n g))
                (Some EmptyString) [Created]).
  { unfold main. rewrite Hk, Hbuf, Hh, Hmk. reflexivity. }
  assert (Hpos := k_start_positive k_override).
  assert (Hv : forall k, k_start k_override <= k <= n g ->
             (verdict (rounds e k) = true <-> colorable g k)).
  { intros k Hrange.
    assert (Hk1 : 0 < k < INT_MAX) by lia.
    assert (Hl : 0 < k <= LONG_MAX) by (unfold INT_MAX, LONG_MAX in *; lia).
    assert (Hchild : encoder_child buf k = Ok (encode g k) log).
    { rewrite encoder_child_output, Hr by exact Hl. reflexivity. }
    rewrite (Hsolver k (encode g k) log
               (proj2 (in_range _ _ _) Hrange) Hchild).
    apply (main_satisfiable_iff_colorable "-" (snprintf_ld 32 k) (Some buf)
             (encode g k) log g k); auto; [| lia].
    apply child_k_accepted. exact Hl. }
  assert (Hnot : forall k, k_start k_override <= k <= n g ->
             verdict (rounds e k) = false -> ~ colorable g k).
  { intros k Hrange Hf Hc. apply (Hv k Hrange) in Hc. congruence. }
  assert (Hfirst : (status (main a e) = EXIT_SUCCESS <->
                    exists k, k_start k_override <= k <= n g /\ colorable g k) /\
                   (forall k0, reported (trace (main a e)) = Some k0 ->
                      k_start k_override <= k0 <= n g /\ colorable g k0 /\
                      forall k, k_start k_override <= k < k0 ->
                        ~ colorable g k)).
  { rewrite Hmain.
    destruct (search_range a e (k_start k_override) (n g)
                Hlaunch Hreopen Hout)
      as [(Hst & Hrep & Hall) | (k0 & Hst & Hrep & Hk0 & Hv0 & Hbefore)].
    - rewrite Hst, Hrep. split.
      + split; [discriminate |]. intros (k & Hrange & Hc).
        exfalso. exact (Hnot k Hrange (Hall k Hrange) Hc).
      + discriminate.
    - rewrite Hst, Hrep. split.
      + split; [| reflexivity]. intros _. exists k0. split; [exact Hk0 |].
        apply (Hv k0 Hk0). exact Hv0.
      + intros k1 H1. inversion H1; subst k1.
        split; [exact Hk0 |]. split; [apply (Hv k0 Hk0); exact Hv0 |].
        intros k Hrange. apply Hnot; [lia |]. apply Hbefore. exact Hrange. }
  destruct Hfirst as [Hiff Hleast].
  split; [exact Hiff |]. split; [exact Hleast |].
  intros Hloops Hstart. apply Hiff. exists (n g). split; [lia |].
  apply colorable_own_colors. exact Hloops.
Qed.

Lemma triangle_rounds_launch (k : Z) : launches (rounds env_triangle k).
Proof.
  unfold env_triangle. cbn [rounds]. destruct (k <? 3);
    unfold launches; cbn; repeat split.
Qed.

Lemma triangle_solver_right (k : Z) (out : list line)
  (log' : list Color2sat.diag) :
  In k (range (k_start 0) (n triangle)) ->
  encoder_child triangle_text k = Ok out log' ->
  (verdict (rounds env_triangle k) = true <-> satisfiable (clauses_of out)).
Proof.
  intros Hin. apply in_range in Hin.
  change (k_start 0) with 2 in Hin. change (n triangle) with 3 in Hin.
  destruct triangle_formulas as [Hsat Hunsat].
  assert (Hcase : k = 2 \/ k = 3) by lia.
  destruct Hcase as [-> | ->].
  - replace (encoder_child triangle_text 2) with (Ok (encode triangle 2) [])
      by (vm_compute; reflexivity).
    intros H. inversion H; subst. split.
    + vm_compute. discriminate.
    + intros Hs. contradiction.
  - replace (encoder_child triangle_text 3) with (Ok (encode triangle 3) [])
      by (vm_compute; reflexivity).
    intros H. inversion H; subst. split.
    + intros _. exact Hsat.
    + intros _. vm_compute. reflexivity.
Qed.

Lemma driver_finds_least_coloring_witness :
  reported (trace (main no_options env_triangle)) = Some 3 /\
  colorable triangle 3 /\ ~ colorable triangle 2.
Proof.
  assert (Hrep : reported (trace (main no_options env_triangle)) = Some 3)
    by (vm_compute; reflexivity).
  split; [exact Hrep |].
  destruct (driver_finds_least_coloring no_options env_triangle triangle_text
              triangle [] 0) as (_ & Hleast & _).
  - reflexivity.
  - reflexivity.
  - vm_compute. reflexivity.
  - vm_compute. reflexivity.
  - vm_compute. reflexivity.
  - repeat constructor; vm_compute; discriminate.
  - reflexivity.
  - reflexivity.
  - left. reflexivity.
  - exact triangle_rounds_launch.
  - exact triangle_solver_right.
  - destruct (Hleast 3 Hrep) as (_ & Hc & Hbefore).
    split; [exact Hc |]. apply Hbefore. vm_compute. split; [discriminate | reflexivity].
Defined.

End WholeSearch.

(* ================================================================== *)
(** * What the formulas say about the number of colors *)

Section FormulaFacts.
Import Scan Lines Pipeline Color2sat Driver Spec Examples Format Notions.

Lemma encode_satisfiable (g : Graph) (k : Z) :
  valid_graph g -> n g < INT_MAX -> 1 <= k < INT_MAX ->
  (satisfiable (clauses_of (encode g k)) <-> colorable g k).
Proof.
  intros Hg Hn Hk. rewrite encode_clauses by (auto; lia).
  apply families_colorable; [exact Hg | lia].
Qed.

(** X9. The bound of the search is enough and a success is never lost by
    going on: for a graph without loops the formula for as many colors as
    vertices is satisfiable, and a formula that is satisfiable for k
    colors is satisfiable for every larger number of colors. *)
Theorem enough_colors (g : Graph) (k k' : Z) :
  valid_graph g -> n g < INT_MAX ->
  (Forall (fun e => fst e <> snd e) (edges g) ->
   satisfiable (clauses_of (encode g (n g)))) /\
  (1 <= k -> k <= k' -> k' < INT_MAX ->
   satisfiable (clauses_of (encode g k)) ->
   satisfiable (clauses_of (encode g k'))).
Proof.
  intros Hg Hn. split.
  - intros Hloops. destruct Hg as (Hn1 & Hm & Hes).
    apply encode_satisfiable; [repeat split; auto | lia | lia |].
    apply colorable_own_colors. exact Hloops.
  - intros Hk Hkk Hk' Hsat.
    apply encode_satisfiable; [exact Hg | lia | lia |].
    apply (colorable_more g k k' Hkk).
    apply (encode_satisfiable g k Hg Hn); [lia | exact Hsat].
Qed.

Lemma enough_colors_witness :
  satisfiable (clauses_of (encode triangle (n triangle))).
Proof.
  destruct (enough_colors triangle 3 3) as [Hown _].
  - exact valid_triangle.
  - vm_compute. reflexivity.
  - apply Hown. repeat constructor; vm_compute; discriminate.
Defined.

(** X10. The reader takes an edge from a vertex to itself like any other
    edge, and the formula of a graph with such an edge is unsatisfiable
    for every number of colors. *)
Theorem loop_never_satisfiable (g : Graph) (u : Z) :
  valid_graph g -> n g < INT_MAX -> m g <= INT_MAX ->
  In (u, u) (edges g) ->
  read_graph (Some (show_graph g)) = Ok g [] /\
  forall k, 1 <= k < INT_MAX -> ~ satisfiable (clauses_of (encode g k)).
Proof.
  intros Hg Hn Hm Hin. split.
  - destruct Hg as (Hn1 & Hlen & Hes).
    assert (Hes' : Forall (fun e => 0 <= fst e <= INT_MAX /\
                                    0 <= snd e <= INT_MAX) (edges g)).
    { eapply Forall_impl; [| exact Hes]. cbn beta. intros e He. lia. }
    destruct (show_graph_lines g ltac:(lia) ltac:(lia) Hes')
      as (Hlines & Hp & _ & Hs & Hvalid & Hedges).
    rewrite (read_graph_counted _ [] _ _ (n g) (m g) Hlines (Forall_nil _)
               Hp Hs ltac:(lia) Hvalid).
    + rewrite Hedges. destruct g. reflexivity.
    + rewrite !length_map. lia.
  - intros k Hk Hsat.
    apply (encode_satisfiable g k Hg Hn Hk) in Hsat.
    exact (self_loop_not_colorable g k u Hin Hsat).
Qed.

Lemma loop_never_satisfiable_witness :
  read_graph (Some (show_graph loop_graph)) = Ok loop_graph [] /\
  ~ satisfiable (clauses_of (encode loop_graph 2)).
Proof.
  destruct (loop_never_satisfiable loop_graph 2) as [Hread Hunsat].
  - split; [vm_compute; discriminate |]. split; [reflexivity |].
    repeat constructor; vm_compute; discriminate.
  - vm_compute. reflexivity.
  - vm_compute. discriminate.
  - right. left. reflexivity.
  - split; [exact Hread |]. apply Hunsat. vm_compute. split; [discriminate | reflexivity].
Defined.

(** X11. A model of the formula is a coloring: for a satisfying
    assignment of the formula for k colors, every vertex has exactly one
    color c whose variable (v-1)*k + c is true, and these colors form a
    proper coloring of the graph. *)
Theorem model_is_coloring (g : Graph) (k : Z) (a : assignment) :
  valid_graph g -> n g < INT_MAX -> 1 <= k < INT_MAX ->
  models a (clauses_of (encode g k)) = true ->
  proper_coloring g k (coloring_of k a) /\
  (forall v c, 1 <= v <= n g -> 1 <= c <= k ->
     (a (var k v c) = true <-> c = coloring_of k a v)).
Proof.
  intros Hg Hn Hk Hm. rewrite encode_clauses in Hm by (auto; lia).
  destruct (model_coloring g k a Hg ltac:(lia) Hm) as [Hp Hone].
  split; [exact Hp |]. intros v c Hv Hc.
  rewrite var_exact by lia. apply Hone; assumption.
Qed.

Lemma model_is_coloring_witness :
  proper_coloring triangle 3 (coloring_of 3 (assignment_of 3 (fun v => v))).
Proof.
  apply (model_is_coloring triangle 3 (assignment_of 3 (fun v => v))).
  - exact valid_triangle.
  - vm_compute. reflexivity.
  - vm_compute. split; [discriminate | reflexivity].
  - vm_compute. reflexivity.
Defined.

End FormulaFacts.

(* ================================================================== *)
(** * The command line, the input buffer and the result of a round *)

Section DriverParts.
Import Scan Lines Pipeline Color2sat Driver Options Loader Spec Examples Notions.

(** X12. Reading standard input stays inside the buffer: for an input of
    fewer than 2^62 bytes every byte and the closing zero are stored
    within the allocated size, the buffer holds the input, the size
    returned is its length, and the allocated size is at most 4096 or
    twice the length. *)
Theorem load_stdin_in_bounds (s : string) :
  Z.of_nat (String.length s) < 2 ^ 62 ->
  exists cap,
    load_stdin s = Some (mkLoaded s (Z.of_nat (String.length s)) cap) /\
    Z.of_nat (String.length s) + 1 <= cap /\
    cap <= Z.max 4096 (2 * Z.of_nat (String.length s)).
Proof.
  intros Hlen. unfold load_stdin.
  destruct (read_stdin_bounds s 4096 0 EmptyString) as (cap & Hr & Hlo & Hhi);
    try lia.
  exists cap. rewrite Hr. cbn [String.append]. auto.
Qed.

Lemma load_stdin_in_bounds_witness :
  exists cap,
    load_stdin (fill 5000 "x")
    = Some (mkLoaded (fill 5000 "x") 5000 cap) /\ 5001 <= cap <= 10000.
Proof.
  destruct (load_stdin_in_bounds (fill 5000 "x")) as (cap & Hr & Hlo & Hhi).
  - vm_compute. reflexivity.
  - exists cap.
    replace (Z.of_nat (String.length (fill 5000 "x"))) with 5000 in *
      by (vm_compute; reflexivity).
    split; [exact Hr | lia].
Defined.

(** X13. The options for the solver are the words of the option text:
    every stored token is not empty and has no blank or tab, at most 31
    are stored, and for words with one blank between them the stored
    tokens are the first 31 words. *)
Theorem solver_options_are_words (s : option string) (ts : list string) :
  Forall word (ms_opts s) /\
  (List.length (ms_opts s) <= 31)%nat /\
  (Forall word ts -> ms_opts (Some (unwords ts)) = firstn 31 ts).
Proof.
  split; [| split].
  - destruct s as [s|]; [apply tokens_words | constructor].
  - destruct s as [s|]; [apply tokens_words | cbn; lia].
  - intros Hts. cbn [ms_opts]. apply tokens_unwords. exact Hts.
Qed.

Lemma solver_options_are_words_witness :
  ms_opts (Some "-verb=0 -rnd-freq=0.1"%string)
  = ["-verb=0"%string; "-rnd-freq=0.1"%string].
Proof.
  destruct (solver_options_are_words None
              ["-verb=0"%string; "-rnd-freq=0.1"%string]) as (_ & _ & H).
  apply H. repeat constructor; try discriminate.
Defined.

(** X14. The handler of the long options looks up the name at
    [longopts[optind-1]]: it stores the solver options only when optind
    is 1.  After an option has been taken optind is at least 2: at 2 the
    name looked up is "help" and the options are left unset, from 3 on the
    entry is the closing one, without a name, or lies beyond the table. *)
Theorem long_option_never_stored (optind : Z) (optarg : string) :
  (long_option_case optind optarg = Sets optarg <-> optind = 1) /\
  (optind = 2 -> long_option_case optind optarg = Keeps) /\
  (3 <= optind -> long_option_case optind optarg = Undefined).
Proof.
  assert (Hcases : optind <= 0 \/ optind = 1 \/ optind = 2 \/ optind = 3 \/
                   4 <= optind) by lia.
  unfold long_option_case.
  destruct Hcases as [H | [-> | [-> | [-> | H]]]].
  - destruct (Z.ltb_spec (optind - 1) 0); [| lia].
    split; [split; [discriminate | lia] | split; intros; lia].
  - cbn. split; [split; auto | split; intros; [discriminate | lia]].
  - cbn. split; [split; [discriminate | lia] | split; intros; [reflexivity | lia]].
  - cbn. split; [split; [discriminate | lia] | split; intros; [lia | reflexivity]].
  - destruct (Z.ltb_spec (optind - 1) 0); [lia |].
    assert (Hn : nth_error longopts (Z.to_nat (optind - 1)) = None).
    { apply nth_error_None. cbn [longopts List.length]. lia. }
    rewrite Hn.
    split; [split; [discriminate | lia] | split; intros; [lia | reflexivity]].
Qed.

Lemma long_option_never_stored_witness :
  long_option_case 2 "-verb=0" = Keeps /\
  long_option_case 3 "-verb=0" = Undefined.
Proof.
  split.
  - apply (long_option_never_stored 2 "-verb=0"). reflexivity.
  - apply (long_option_never_stored 3 "-verb=0"). lia.
Defined.

(** The return value of a round whose pipes and forks succeed and whose
    write raises no signal. *)
Lemma round_value (r : round_env) (tmp : file) :
  pipe_p2c_ok r = true -> pipe_c2s_ok r = true ->
  fork1_ok r = true -> write_graph r <> Sigpipe -> fork2_ok r = true ->
  fst (fst (run_color_minisat r tmp))
  = Returned
      match (if fopen_result_ok r then result_after r tmp else None) with
      | Some content => if String.prefix "SAT" content then 0 else -1
      | None => -1
      end.
Proof.
  intros H1 H2 H3 Hw H4. rewrite round_after_write by assumption.
  unfold result_after. rewrite H4. cbv zeta. cbn [negb].
  assert (Hf : forall (f : file) (log : list diag),
            fst (fst (match (if fopen_result_ok r then f else None) with
                      | None => (Returned (-1), f, log)
                      | Some content =>
                          match fgets 32 content with
                          | None => (Returned (-1), f, log)
                          | Some l =>
                              (Returned (if starts_with_SAT l then 0 else -1),
                               f, log)
                          end
                      end))
            = Returned
                match (if fopen_result_ok r then f else None) with
                | Some content => if String.prefix "SAT" content then 0 else -1
                | None => -1
                end).
  { intros f log. destruct (fopen_result_ok r); [| reflexivity].
    destruct f as [content|]; [| reflexivity].
    rewrite <- (first_line_SAT content).
    destruct (fgets 32 content) as [l|]; reflexivity. }
  destruct (open_result_ok r); cbn [negb].
  - destruct (exec_minisat_ok r); cbn [negb]; apply Hf.
  - apply Hf.
Qed.

(** X15. How a round ends.  It returns 0 exactly when both pipes and both
    forks succeed, the write of the graph raises no SIGPIPE, the parent
    can open the result file, and the result file as the second child
    leaves it begins with the three characters SAT: whatever follows
    them, and whether or not the encoder could be executed or the write
    returned an error.  The driver is ended by SIGPIPE inside the round
    exactly when the pipes and the first fork succeed and the write finds
    no reader.  In every other case the round returns -1. *)
Theorem round_succeeds_iff (r : round_env) (tmp : file) :
  (fst (fst (run_color_minisat r tmp)) = Returned 0 <->
   pipe_p2c_ok r = true /\ pipe_c2s_ok r = true /\
   fork1_ok r = true /\ write_graph r <> Sigpipe /\ fork2_ok r = true /\
   fopen_result_ok r = true /\
   exists content, result_after r tmp = Some content /\
                   String.prefix "SAT" content = true) /\
  (fst (fst (run_color_minisat r tmp)) = Killed <->
   pipe_p2c_ok r = true /\ pipe_c2s_ok r = true /\
   fork1_ok r = true /\ write_graph r = Sigpipe) /\
  (fst (fst (run_color_minisat r tmp)) = Returned 0 \/
   fst (fst (run_color_minisat r tmp)) = Returned (-1) \/
   fst (fst (run_color_minisat r tmp)) = Killed).
Proof.
  assert (Hearly : pipe_p2c_ok r = false \/ pipe_c2s_ok r = false \/
                   fork1_ok r = false ->
                   fst (fst (run_color_minisat r tmp)) = Returned (-1)).
  { unfold run_color_minisat. intros [H|[H|H]]; rewrite H, ?andb_false_r;
      [reflexivity | reflexivity |].
    destruct (pipe_p2c_ok r && pipe_c2s_ok r); reflexivity. }
  assert (Hsig : pipe_p2c_ok r = true -> pipe_c2s_ok r = true ->
                 fork1_ok r = true -> write_graph r = Sigpipe ->
                 fst (fst (run_color_minisat r tmp)) = Killed).
  { intros H1 H2 H3 Hw. unfold run_color_minisat.
    rewrite H1, H2, H3, Hw. reflexivity. }
  assert (Hfork : pipe_p2c_ok r = true -> pipe_c2s_ok r = true ->
                  fork1_ok r = true -> write_graph r <> Sigpipe ->
                  fork2_ok r = false ->
                  fst (fst (run_color_minisat r tmp)) = Returned (-1)).
  { intros H1 H2 H3 Hw H4. rewrite round_after_write by assumption.
    rewrite H4. reflexivity. }
  assert (Hw : write_graph r = Sigpipe \/ write_graph r <> Sigpipe).
  { destruct (write_graph r); [right | right | left]; congruence. }
  split; [| split].
  - split.
    + intros H0.
      destruct (pipe_p2c_ok r) eqn:H1;
        [| rewrite Hearly in H0 by auto; discriminate].
      destruct (pipe_c2s_ok r) eqn:H2;
        [| rewrite Hearly in H0 by auto; discriminate].
      destruct (fork1_ok r) eqn:H3;
        [| rewrite Hearly in H0 by auto; discriminate].
      destruct Hw as [Hw|Hw]; [rewrite Hsig in H0 by auto; discriminate |].
      destruct (fork2_ok r) eqn:H4;
        [| rewrite Hfork in H0 by auto; discriminate].
      rewrite (round_value r tmp H1 H2 H3 Hw H4) in H0.
      destruct (fopen_result_ok r); [| discriminate].
      destruct (result_after r tmp) as [content|]; [| discriminate].
      destruct (String.prefix "SAT" content) eqn:Hp; [| discriminate].
      repeat split; auto. exists content. auto.
    + intros (H1 & H2 & H3 & Hw' & H4 & H5 & content & Hc & Hp).
      rewrite (round_value r tmp H1 H2 H3 Hw' H4), H5, Hc, Hp. reflexivity.
  - split.
    + intros Hk.
      destruct (pipe_p2c_ok r) eqn:H1;
        [| rewrite Hearly in Hk by auto; discriminate].
      destruct (pipe_c2s_ok r) eqn:H2;
        [| rewrite Hearly in Hk by auto; discriminate].
      destruct (fork1_ok r) eqn:H3;
        [| rewrite Hearly in Hk by auto; discriminate].
      destruct Hw as [Hw|Hw]; [auto |].
      destruct (fork2_ok r) eqn:H4;
        [| rewrite Hfork in Hk by auto; discriminate].
      rewrite (round_value r tmp H1 H2 H3 Hw H4) in Hk. discriminate.
    + intros (H1 & H2 & H3 & Hw'). apply Hsig; assumption.
  - apply round_returns.
Qed.

Lemma round_succeeds_iff_witness :
  fst (fst (run_color_minisat sat_round (Some EmptyString))) = Returned 0 /\
  fst (fst (run_color_minisat sigpipe_round (Some EmptyString))) = Killed.
Proof.
  destruct (round_succeeds_iff sat_round (Some EmptyString)) as (Hz & _ & _).
  destruct (round_succeeds_iff sigpipe_round (Some EmptyString))
    as (_ & Hk & _).
  split.
  - apply Hz. repeat split; try discriminate.
    exists (solver_output sat_round). split; reflexivity.
  - apply Hk. repeat split.
Defined.

End DriverParts.
